(** * A Redis-backed quota bucket: model of [redis/redis.go] and its properties

    The Go package keeps a counter per bucket name in a shared store and
    derives the remaining quota and the reset time of the bucket from it.
    The model follows the source function by function.  The store and the
    wall clock are the environment of the code: they are reached through a
    [World] interface, every command sent to the store is recorded, and the
    properties are stated for an arbitrary world wherever the code allows
    it.  A reference store implementing the command contract is given at
    the end of the definitions; it is the world of the multi-call
    properties and of the concrete scenarios. *)

From Stdlib Require Import ZArith Lia String Ascii List Decimal DecimalString DecimalN DecimalZ.
From stdpp Require Import base decidable option numbers strings gmap.

Local Open Scope string_scope.
Local Open Scope Z_scope.
Local Open Scope list_scope.

(** ** Go machine integers

    [uint], [uint64], [int] and [int64] are integers of [Z] whose
    wrap-around is written where the source computes with them.  [uint]
    and [int] are 64 bits wide, as on the platforms the package is built
    for. *)

Definition uint_bits : Z := 64.
Definition uint_max : Z := 2 ^ uint_bits - 1.
Definition int64_min : Z := - 2 ^ 63.
Definition int64_max : Z := 2 ^ 63 - 1.

(** Conversion to [uint] (and [uint64]): reduction modulo [2^64]. *)
Definition to_uint (z : Z) : Z := z mod 2 ^ uint_bits.

(** Conversion to [int64] (and [int]): two's complement wrap-around. *)
Definition to_int64 (z : Z) : Z := (z + 2 ^ 63) mod 2 ^ 64 - 2 ^ 63.

Definition is_uint (z : Z) : Prop := 0 <= z <= uint_max.
Definition is_int64 (z : Z) : Prop := int64_min <= z <= int64_max.

(** ** Errors

    Go's [error] values that can reach the package: the sentinels of the
    client library and of the bucket interface, the failures of the reply
    conversions, and the failures of the server or of the connection. *)

Inductive error : Type :=
| ErrNil                        (* redis.ErrNil: nil reply *)
| ErrFull                       (* leakybucket.ErrorFull *)
| ErrNegativeInt                (* redigo: unexpected value for Uint64 *)
| ErrUnexpectedType             (* redigo: unexpected type for the conversion *)
| ErrSyntax                     (* strconv.ErrSyntax *)
| ErrRange                      (* strconv.ErrRange *)
| ServerError (msg : string)    (* an error reply of the server *)
| ConnError (msg : string).     (* transport failure, cancelled context *)

#[global] Instance error_eq_dec : EqDecision error.
Proof. solve_decision. Defined.

(** ** Package [time] *)

Module time.

(** A [time.Time] is the number of nanoseconds since the Unix epoch, a
    [time.Duration] a signed 64-bit count of nanoseconds. *)
Definition Time : Type := Z.
Definition Duration : Type := Z.

Definition Nanosecond : Duration := 1.
Definition Millisecond : Duration := 1000000.
Definition Second : Duration := 1000000000.

(** [t.Unix()]: whole seconds since the epoch, rounded down. *)
Definition Unix (t : Time) : Z := t / Second.

(** [t.Add(d)]. *)
Definition Add (t : Time) (d : Duration) : Time := t + d.

(** [d.Nanoseconds()]. *)
Definition Nanoseconds (d : Duration) : Z := d.

End time.

(** ** Package [strconv]: base-10 parsing at 64 bits *)

Module strconv.

(** [strconv.ParseUint(s, 10, 64)]: a non-empty string of decimal digits
    whose value fits 64 bits. *)
Definition ParseUint (s : string) : Z * option error :=
  match NilZero.uint_of_string s with
  | None => (0, Some ErrSyntax)
  | Some d =>
      let n := Z.of_N (N.of_uint d) in
      if n <=? uint_max then (n, None) else (uint_max, Some ErrRange)
  end.

(** [strconv.ParseInt(s, 10, 64)]: an optional sign, then digits. *)
Definition ParseInt (s : string) : Z * option error :=
  let '(neg, digits) :=
    match s with
    | String "+"%char r => (false, r)
    | String "-"%char r => (true, r)
    | _ => (false, s)
    end in
  match NilZero.uint_of_string digits with
  | None => (0, Some ErrSyntax)
  | Some d =>
      let n := Z.of_N (N.of_uint d) in
      if neg then
        if n <=? 2 ^ 63 then (- n, None) else (int64_min, Some ErrRange)
      else
        if n <=? int64_max then (n, None) else (int64_max, Some ErrRange)
  end.

(** Decimal text of an integer, as the server prints a counter. *)
Definition FormatInt (z : Z) : string :=
  NilZero.string_of_int (Z.to_int z).

End strconv.

(** ** Package [redis]: commands, replies and reply conversions of the client *)

(** The commands the package sends. *)
Inductive command : Type :=
| GET (key : string)
| INCRBY (key : string) (amount : Z)
| PEXPIRE (key : string) (ms : Z)
| PTTL (key : string).

#[global] Instance command_eq_dec : EqDecision command.
Proof. solve_decision. Defined.

(** A mutating command changes the counter or its lifetime. *)
Definition mutating (c : command) : bool :=
  match c with
  | GET _ | PTTL _ => false
  | INCRBY _ _ | PEXPIRE _ _ => true
  end.

(** The dynamic type of a reply ([interface{}] in the source). *)
Inductive reply : Type :=
| RNil                          (* nil: the key does not exist *)
| RInt (n : Z)                  (* int64 *)
| RBulk (s : string)            (* []byte *)
| RStatus (s : string)          (* string *)
| RError (msg : string).        (* redis.Error *)

#[global] Instance reply_eq_dec : EqDecision reply.
Proof. solve_decision. Defined.

Module redis.

Definition ErrNil : error := ErrNil.

(** [redis.Uint64(reply, err)]. *)
Definition Uint64 (r : reply * option error) : Z * option error :=
  match r with
  | (_, Some err) => (0, Some err)
  | (RInt n, None) =>
      if n <? 0 then (0, Some ErrNegativeInt) else (to_uint n, None)
  | (RBulk s, None) => strconv.ParseUint s
  | (RNil, None) => (0, Some ErrNil)
  | (RError msg, None) => (0, Some (ServerError msg))
  | (RStatus _, None) => (0, Some ErrUnexpectedType)
  end.

(** [redis.Int64(reply, err)]. *)
Definition Int64 (r : reply * option error) : Z * option error :=
  match r with
  | (_, Some err) => (0, Some err)
  | (RInt n, None) => (n, None)
  | (RBulk s, None) => strconv.ParseInt s
  | (RNil, None) => (0, Some ErrNil)
  | (RError msg, None) => (0, Some (ServerError msg))
  | (RStatus _, None) => (0, Some ErrUnexpectedType)
  end.

End redis.

(** ** Package [leakybucket]: the interface the bucket implements *)

Module leakybucket.

(** Modelled from the spec: the declaration of [BucketState] is in the
    root package of the repository; the state snapshot is the triple of
    capacity, remaining and reset. *)
Record BucketState : Type := {
  Capacity : Z;
  Remaining : Z;
  Reset : time.Time
}.

(** Modelled from the spec: [ErrorFull] is declared in the root package;
    it is the error of an Add that exceeds the remaining quota. *)
Definition ErrorFull : error := ErrFull.

End leakybucket.

(** ** The environment: connection and clock

    [conn.DoContext] sends one command and yields a reply and an error;
    [time.Now] reads the wall clock.  Both may change the world.  The pool,
    the context and the release of the connection carry no state the
    bucket reads back and are left out. *)

Class World (W : Type) : Type := {
  conn_DoContext : command -> W -> (reply * option error) * W;
  clock_Now : W -> time.Time * W
}.

(** What a call leaves behind: a value, or a run-time panic of a failed
    type assertion. *)
Inductive outcome (A : Type) : Type :=
| Returned (a : A)
| Panicked.

Arguments Returned {A} a.
Arguments Panicked {A}.

Section Program.

Context {W : Type} `{World W}.

(** The state a call runs in: the world, and the commands sent so far, the
    oldest first. *)
Record env : Type := Env {
  world : W;
  issued : list command
}.

Definition M (A : Type) : Type := env -> outcome A * env.

Definition ret {A : Type} (a : A) : M A := fun e => (Returned a, e).

Definition bind {A B : Type} (m : M A) (k : A -> M B) : M B :=
  fun e =>
    match m e with
    | (Returned a, e') => k a e'
    | (Panicked, e') => (Panicked, e')
    end.

Definition panic {A : Type} : M A := fun e => (Panicked, e).

(** [conn.DoContext(ctx, cmd, args...)]. *)
Definition DoContext (c : command) : M (reply * option error) :=
  fun e =>
    let '(r, w) := conn_DoContext c (world e) in
    (Returned r, {| world := w; issued := issued e ++ [c] |}).

(** [time.Now()]. *)
Definition Now : M time.Time :=
  fun e =>
    let '(t, w) := clock_Now (world e) in
    (Returned t, {| world := w; issued := issued e |}).

End Program.

Arguments env W : clear implicits.
Arguments M W A : clear implicits.

Notation "'let*' p ':=' m 'in' k" := (bind m (fun p => k))
  (at level 10, p pattern, m at level 200, k at level 200, only parsing).

(** ** The bucket *)

(** [var millisecond = int64(time.Millisecond)]. *)
Definition millisecond : Z := time.Millisecond.

(** The fields of [bucket] that hold quota state; [pool] and [context]
    belong to the connection. *)
Record bucket : Type := Bucket {
  name : string;
  capacity : Z;
  remaining : Z;
  reset : time.Time;
  rate : time.Duration
}.

Definition set_remaining (b : bucket) (r : Z) : bucket :=
  {| name := name b; capacity := capacity b; remaining := r;
     reset := reset b; rate := rate b |}.

Definition set_reset (b : bucket) (t : time.Time) : bucket :=
  {| name := name b; capacity := capacity b; remaining := remaining b;
     reset := t; rate := rate b |}.

(** [func min(a, b uint) uint]. *)
Definition min (a b : Z) : Z := if a <? b then a else b.

Definition Capacity (b : bucket) : Z := capacity b.

Definition Remaining (b : bucket) : Z := remaining b.

Definition Reset (b : bucket) : time.Time := reset b.

Definition State (b : bucket) : leakybucket.BucketState :=
  {| leakybucket.Capacity := Capacity b;
     leakybucket.Remaining := Remaining b;
     leakybucket.Reset := Reset b |}.

Section Bucket.

Context {W : Type} `{World W}.

(** [func (b *bucket) updateOldReset() error].  The receiver is passed in
    and handed back with the fields the call has written.  The assertion
    [ttl.(int64)] panics on a reply of another type, after the clock has
    been read. *)
Definition updateOldReset (b : bucket) : M W (bucket * option error) :=
  let* now := Now in
  if time.Unix (reset b) >? time.Unix now then ret (b, None)
  else
    let* (ttl, err) := DoContext (PTTL (name b)) in
    match err with
    | Some e => ret (b, Some e)
    | None =>
        let* now := Now in
        match ttl with
        | RInt ttl =>
            ret (set_reset b (time.Add now (to_int64 (ttl * millisecond))), None)
        | _ => panic
        end
    end.

(** [func (b *bucket) Add(amount uint) (leakybucket.BucketState, error)]. *)
Definition Add (amount : Z) (b : bucket)
  : M W (bucket * (leakybucket.BucketState * option error)) :=
  let* r := DoContext (GET (name b)) in
  let '(count, err) := redis.Uint64 r in
  let read :=
    match err with
    | Some e =>
        if decide (e = redis.ErrNil)
        then inl (set_remaining b (capacity b))
        else inr e
    | None =>
        inl (set_remaining b
               (to_uint (capacity b - min (to_uint count) (capacity b))))
    end in
  match read with
  | inr e => ret (b, (State b, Some e))
  | inl b =>
      if amount >? remaining b then
        let* (b, _) := updateOldReset b in
        ret (b, (State b, Some leakybucket.ErrorFull))
      else
        let expiry := to_int64 (Z.quot (time.Nanoseconds (rate b)) millisecond) in
        let* r := DoContext (INCRBY (name b) amount) in
        let '(count, err) := redis.Uint64 r in
        match err with
        | Some e => ret (b, (State b, Some e))
        | None =>
            let finish :=
              let* (b, _) := updateOldReset b in
              let b := set_remaining b
                         (to_uint (capacity b - min (to_uint count) (capacity b))) in
              ret (b, (State b, None)) in
            if to_uint count =? amount then
              let* (_, err) := DoContext (PEXPIRE (name b) expiry) in
              match err with
              | Some e => ret (b, (State b, Some e))
              | None => finish
              end
            else finish
        end
  end.

(** [func (s *Storage) Create(ctx, name, capacity, rate)
    (leakybucket.Bucket, error)]; no bucket is [nil]. *)
Definition Create (name : string) (capacity : Z) (rate : time.Duration)
  : M W (option bucket * option error) :=
  let* r := DoContext (GET name) in
  let '(count, err) := redis.Uint64 r in
  match err with
  | Some e =>
      if decide (e = redis.ErrNil) then
        let* now := Now in
        ret (Some {| name := name; capacity := capacity; remaining := capacity;
                     reset := time.Add now rate; rate := rate |}, None)
      else ret (None, Some e)
  | None =>
      let* r := DoContext (PTTL name) in
      let '(ttl, err) := redis.Int64 r in
      match err with
      | Some e => ret (None, Some e)
      | None =>
          let* now := Now in
          ret (Some {| name := name; capacity := capacity;
                       remaining := to_uint (capacity - min capacity (to_uint count));
                       reset := time.Add now (to_int64 (ttl * millisecond));
                       rate := rate |}, None)
      end
  end.

End Bucket.

(** The source's [Add] with both calls of [updateOldReset] left out: the
    call "as if the refresh had been skipped", for comparison only. *)
Definition Add_refresh_skipped {W : Type} `{World W} (amount : Z) (b : bucket)
  : M W (bucket * (leakybucket.BucketState * option error)) :=
  let* r := DoContext (GET (name b)) in
  let '(count, err) := redis.Uint64 r in
  let read :=
    match err with
    | Some e =>
        if decide (e = redis.ErrNil)
        then inl (set_remaining b (capacity b))
        else inr e
    | None =>
        inl (set_remaining b
               (to_uint (capacity b - min (to_uint count) (capacity b))))
    end in
  match read with
  | inr e => ret (b, (State b, Some e))
  | inl b =>
      if amount >? remaining b then
        ret (b, (State b, Some leakybucket.ErrorFull))
      else
        let expiry := to_int64 (Z.quot (time.Nanoseconds (rate b)) millisecond) in
        let* r := DoContext (INCRBY (name b) amount) in
        let '(count, err) := redis.Uint64 r in
        match err with
        | Some e => ret (b, (State b, Some e))
        | None =>
            let finish :=
              let b := set_remaining b
                         (to_uint (capacity b - min (to_uint count) (capacity b))) in
              ret (b, (State b, None)) in
            if to_uint count =? amount then
              let* (_, err) := DoContext (PEXPIRE (name b) expiry) in
              match err with
              | Some e => ret (b, (State b, Some e))
              | None => finish
              end
            else finish
        end
  end.

(** A sequence of [Add] calls on one bucket, in order; the results of the
    calls are collected.  A panic ends the sequence. *)
Fixpoint AddAll {W : Type} `{World W} (amounts : list Z) (b : bucket)
  : M W (bucket * list (leakybucket.BucketState * option error)) :=
  match amounts with
  | [] => ret (b, [])
  | amount :: rest =>
      let* (b, r) := Add amount b in
      let* (b, rs) := AddAll rest b in
      ret (b, r :: rs)
  end.

(** ** Observations on a run *)

(** The commands a call has sent: what [issued] gained from [e] to [e']. *)
Definition sent {W : Type} (e e' : env W) : list command :=
  drop (length (issued e)) (issued e').

(** The key and duration of each set-expiry command in a list. *)
Definition expiries (l : list command) : list (string * Z) :=
  omap (fun c => match c with PEXPIRE k ms => Some (k, ms) | _ => None end) l.

(** The increments in a list of commands. *)
Definition increments (l : list command) : list (string * Z) :=
  omap (fun c => match c with INCRBY k n => Some (k, n) | _ => None end) l.

(** A reply to the time-to-live query that the refresh can take: an
    error, or an integer. *)
Definition ttl_reply_ok (r : reply * option error) : Prop :=
  match r with
  | (_, Some _) => True
  | (RInt _, None) => True
  | _ => False
  end.

(** A world whose time-to-live replies are integers, as the protocol of
    the server has them. *)
Definition ttl_typed (W : Type) `{World W} : Prop :=
  forall (k : string) (w : W), ttl_reply_ok (fst (conn_DoContext (PTTL k) w)).

(** ** A reference store

    The store of the command contract: a counter per key with an optional
    deadline, a wall clock read at every interaction, and a fault plan that
    makes chosen commands fail before they take effect.  Counters are
    integers, as in the contract.  Deadlines are in milliseconds since the
    epoch; a key whose deadline has passed is removed when a command next
    addresses it, and each removal by expiry is counted. *)

Record entry : Type := Entry {
  value : Z;
  deadline : option Z
}.

Record store : Type := Store {
  db : gmap string entry;
  wall : nat -> time.Time;
  ticks : nat;
  expirations : nat
}.

Definition now_ns (s : store) : time.Time := wall s (ticks s).

Definition tick (s : store) : store :=
  {| db := db s; wall := wall s; ticks := S (ticks s);
     expirations := expirations s |}.

Definition with_db (s : store) (m : gmap string entry) : store :=
  {| db := m; wall := wall s; ticks := ticks s; expirations := expirations s |}.

Definition expire_key (k : string) (s : store) : store :=
  {| db := delete k (db s); wall := wall s; ticks := ticks s;
     expirations := S (expirations s) |}.

Definition expired (now_ms : Z) (en : entry) : bool :=
  match deadline en with
  | Some d => d <? now_ms
  | None => false
  end.

Definition key_of (c : command) : string :=
  match c with
  | GET k | INCRBY k _ | PEXPIRE k _ | PTTL k => k
  end.

(** Lazy expiry of the key a command addresses. *)
Definition purge (k : string) (now_ms : Z) (s : store) : store :=
  match db s !! k with
  | Some en => if expired now_ms en then expire_key k s else s
  | None => s
  end.

Definition exec (c : command) (now_ms : Z) (s : store) : reply * store :=
  match c with
  | GET k =>
      match db s !! k with
      | Some en => (RBulk (strconv.FormatInt (value en)), s)
      | None => (RNil, s)
      end
  | INCRBY k n =>
      let en :=
        match db s !! k with
        | Some en => {| value := value en + n; deadline := deadline en |}
        | None => {| value := n; deadline := None |}
        end in
      (RInt (value en), with_db s (<[k := en]> (db s)))
  | PEXPIRE k ms =>
      match db s !! k with
      | None => (RInt 0, s)
      | Some en =>
          if ms <=? 0 then (RInt 1, expire_key k s)
          else (RInt 1, with_db s (<[k := {| value := value en;
                                             deadline := Some (now_ms + ms) |}]> (db s)))
      end
  | PTTL k =>
      match db s !! k with
      | None => (RInt (-2), s)
      | Some en =>
          match deadline en with
          | None => (RInt (-1), s)
          | Some d => (RInt (d - now_ms), s)
          end
      end
  end.

Definition serve (faults : command -> option error) (c : command) (s : store)
  : (reply * option error) * store :=
  let now_ms := now_ns s / time.Millisecond in
  let s := tick s in
  match faults c with
  | Some err => ((RNil, Some err), s)
  | None =>
      let '(r, s) := exec c now_ms (purge (key_of c) now_ms s) in
      ((r, None), s)
  end.

Definition served (faults : command -> option error) : World store :=
  {| conn_DoContext := serve faults;
     clock_Now := fun s => (now_ns s, tick s) |}.

(** The fault plans of the scenarios. *)
Definition healthy : command -> option error := fun _ => None.

Definition ttl_down : command -> option error :=
  fun c => match c with PTTL _ => Some (ConnError "i/o timeout") | _ => None end.

Definition expire_down : command -> option error :=
  fun c => match c with PEXPIRE _ _ => Some (ConnError "i/o timeout") | _ => None end.

Definition get_down : command -> option error :=
  fun c => match c with GET _ => Some (ConnError "i/o timeout") | _ => None end.

(** A store with no key, whose clock reads [wall]. *)
Definition empty_store (wall : nat -> time.Time) : store :=
  {| db := ∅; wall := wall; ticks := 0; expirations := 0 |}.

(** A store holding one counter. *)
Definition store_with (k : string) (en : entry) (wall : nat -> time.Time) : store :=
  {| db := {[ k := en ]}; wall := wall; ticks := 0; expirations := 0 |}.

Definition start {W : Type} (w : W) : env W := {| world := w; issued := [] |}.

(** ** The pieces of [Add]

    [Add] cut at its store commands, for the proofs: each piece is the
    text of the source from that point on. *)

Abbreviation Add_result :=
  (bucket * (leakybucket.BucketState * option error))%type.

Section StepsOfAdd.

Context {W : Type} `{World W}.

(** The last step of [Add]: refresh, then the remaining of the new count. *)
Definition Add_finish (count : Z) (b : bucket) : M W Add_result :=
  let* (b, _) := updateOldReset b in
  let b := set_remaining b
             (to_uint (capacity b - min (to_uint count) (capacity b))) in
  ret (b, (State b, None)).

(** [Add] from the reply to the increment on. *)
Definition Add_incremented (amount : Z) (b : bucket) (r : reply * option error)
  : M W Add_result :=
  let '(count, err) := redis.Uint64 r in
  match err with
  | Some e => ret (b, (State b, Some e))
  | None =>
      if to_uint count =? amount then
        let* (_, err) := DoContext
            (PEXPIRE (name b)
               (to_int64 (Z.quot (time.Nanoseconds (rate b)) millisecond))) in
        match err with
        | Some e => ret (b, (State b, Some e))
        | None => Add_finish count b
        end
      else Add_finish count b
  end.

(** [Add] from the admission check on, for the bucket as the read left it. *)
Definition Add_checked (amount : Z) (b : bucket) : M W Add_result :=
  if amount >? remaining b then
    let* (b, _) := updateOldReset b in
    ret (b, (State b, Some leakybucket.ErrorFull))
  else
    let* r := DoContext (INCRBY (name b) amount) in
    Add_incremented amount b r.

End StepsOfAdd.

(** The bucket after the counter has been read as [c]. *)
Definition after_read (b : bucket) (c : Z) : bucket :=
  set_remaining b (capacity b - min c (capacity b)).

(** The duration, in milliseconds, that [Add] hands to the set-expiry
    command. *)
Definition expiry_of (b : bucket) : Z :=
  to_int64 (Z.quot (time.Nanoseconds (rate b)) millisecond).

(** The commands an [Add amount] on [b] can send. *)
Definition Add_command (amount : Z) (b : bucket) (c : command) : Prop :=
  c = GET (name b) \/ c = PTTL (name b) \/
  c = INCRBY (name b) amount \/ c = PEXPIRE (name b) (expiry_of b).

(** ** Predicates on computations *)

(** [m] moves the world along [R]. *)
Definition along {W : Type} `{World W} (R : W -> W -> Prop) {A : Type} (m : M W A)
  : Prop :=
  forall e : env W, R (world e) (world (snd (m e))).

(** [m] returns, from every state. *)
Definition returns {W : Type} `{World W} {A : Type} (m : M W A) : Prop :=
  forall e : env W, exists a e', m e = (Returned a, e').

(** ** Observations on the reference store *)

(** The count of expiries has not gone down. *)
Definition grew (s s' : store) : Prop := (expirations s <= expirations s')%nat.

(** The counter the store holds for a key. *)
Definition counter (s : store) (k : string) : option Z := value <$> db s !! k.

(** Nothing has expired between [s] and [s'], and then the counter of [k]
    is what it was. *)
Definition kept (k : string) (s s' : store) : Prop :=
  grew s s' /\ (expirations s' = expirations s -> counter s' k = counter s k).

(** The commands other than the increment keep the counter. *)
Definition keeps_counter (c : command) : Prop :=
  match c with
  | INCRBY _ _ => False
  | _ => True
  end.

(** ** Sequences of amounts *)

(** The sum of the amounts. *)
Definition total (amounts : list Z) : Z := foldr Z.add 0 amounts.

(** What is left of [cap] after each of the amounts in turn, [sum] being
    used already. *)
Fixpoint remainders (cap sum : Z) (amounts : list Z) : list Z :=
  match amounts with
  | [] => []
  | amount :: rest => (cap - (sum + amount)) :: remainders cap (sum + amount) rest
  end.

(** ** The stores and buckets of the scenarios

    A bucket named "k" of capacity 10 with a window of one second, at a
    clock that stands at five seconds. *)

Definition five_seconds : nat -> time.Time := fun _ => 5 * time.Second.

(** A bucket whose cached reset is two seconds ahead of the clock. *)
Definition idle : bucket :=
  {| name := "k"; capacity := 10; remaining := 10;
     reset := 7 * time.Second; rate := time.Second |}.

(** A bucket whose cached reset is half a second ahead of the clock. *)
Definition half_second_ahead : bucket :=
  set_reset idle (5 * time.Second + 500 * time.Millisecond).

(** A bucket whose window is one millisecond and a half. *)
Definition odd_window : bucket :=
  {| name := "k"; capacity := 10; remaining := 10;
     reset := 7 * time.Second; rate := 1500 * 1000 |}.

(** A bucket that has cached a remaining of zero. *)
Definition clipped : bucket :=
  {| name := "k"; capacity := 10; remaining := 0;
     reset := 5500 * time.Millisecond; rate := time.Second |}.

(** Stores holding a counter of 4, 5 and 15 with half a second to live, a
    counter without a deadline, and a counter whose deadline has passed. *)
Definition four_used : store :=
  store_with "k" {| value := 4; deadline := Some 5500 |} five_seconds.


Definition overfull : store :=
  store_with "k" {| value := 15; deadline := Some 5500 |} five_seconds.

Definition undated : store :=
  store_with "k" {| value := 5; deadline := None |} five_seconds.

Definition elapsed : store :=
  store_with "k" {| value := 10; deadline := Some 4000 |} five_seconds.

(** ** A scripted connection

    A connection that answers from a list of prepared replies, whatever
    the command, and a clock that stands still: the world of the
    scenarios in which a reply has a type the server does not send. *)

Record script : Type := Script {
  replies : list (reply * option error);
  reading : time.Time
}.

Definition played : World script :=
  {| conn_DoContext := fun _ s =>
       match replies s with
       | r :: rest => (r, {| replies := rest; reading := reading s |})
       | [] => ((RNil, Some (ConnError "EOF")), s)
       end;
     clock_Now := fun s => (reading s, s) |}.

(** ** The sequences of commands of a call *)

(** The sequences of commands one [Add amount] on [b] can send. *)
Definition Add_shape (amount : Z) (b : bucket) (l : list command) : Prop :=
  l = [GET (name b)] \/
  l = [GET (name b); PTTL (name b)] \/
  l = [GET (name b); INCRBY (name b) amount] \/
  l = [GET (name b); INCRBY (name b) amount; PTTL (name b)] \/
  l = [GET (name b); INCRBY (name b) amount; PEXPIRE (name b) (expiry_of b)] \/
  l = [GET (name b); INCRBY (name b) amount; PEXPIRE (name b) (expiry_of b);
       PTTL (name b)].


(** ** The bucket as a ledger

    What a bucket of capacity [cap], [used] units of which are consumed,
    answers to each amount in turn when every amount that fits is booked:
    the remaining quota, and the bucket-full error for an amount that does
    not fit. *)

Fixpoint ledger (cap used : Z) (amounts : list Z) : list (Z * option error) :=
  match amounts with
  | [] => []
  | amount :: rest =>
      if amount >? cap - used
      then (cap - used, Some leakybucket.ErrorFull) :: ledger cap used rest
      else (cap - (used + amount), None) :: ledger cap (used + amount) rest
  end.

(** The units consumed once the amounts have been answered. *)
Fixpoint used_after (cap used : Z) (amounts : list Z) : Z :=
  match amounts with
  | [] => used
  | amount :: rest =>
      if amount >? cap - used
      then used_after cap used rest
      else used_after cap (used + amount) rest
  end.

(** The key is absent from the store, or its deadline has passed at the
    store's next reading of the clock. *)
Definition lapsed (k : string) (s : store) : Prop :=
  match db s !! k with
  | Some en => expired (now_ns s / time.Millisecond) en = true
  | None => True
  end.


(** A store whose counter another client has brought below zero. *)
Definition overdrawn : store :=
  store_with "k" {| value := -5; deadline := None |} five_seconds.

(** A store whose counter lives for some three hundred years more. *)
Definition long_lived : store :=
  store_with "k" {| value := 5; deadline := Some (5000 + 10000000000000) |} five_seconds.

(** A bucket whose cached reset is four seconds behind the clock. *)
Definition stale : bucket := set_reset idle time.Second.

(** ** One window on the reference store

    The store keeps its deadlines in whole milliseconds of its own clock.
    The readings of that clock numbered [from] to [upto - 1] fall within
    one window of [span] milliseconds when none of them is more than
    [span] milliseconds after an earlier one. *)
Definition within_window (s : store) (from upto : nat) (span : Z) : Prop :=
  forall n m : nat, (from <= n)%nat -> (n <= m)%nat -> (m < upto)%nat ->
    wall s m / time.Millisecond - wall s n / time.Millisecond <= span.

(** The same readings, to the nanosecond, fall within the duration [d]. *)
Definition within_duration (s : store) (from upto : nat) (d : time.Duration) : Prop :=
  forall n m : nat, (from <= n)%nat -> (n <= m)%nat -> (m < upto)%nat ->
    wall s m - wall s n <= d.

(** The deadline of the key [k], when it has one, lies [span] milliseconds
    after a reading numbered [from] or later. *)
Definition dated (k : string) (span : Z) (from : nat) (s : store) : Prop :=
  (from <= ticks s)%nat /\
  forall (en : entry) (d : Z),
    db s !! k = Some en -> deadline en = Some d ->
    exists n : nat,
      (from <= n < ticks s)%nat /\ d = wall s n / time.Millisecond + span.

(** From [s] to [s'] the clock is the same and has been read on; and when
    the readings up to [s'] fall within one window, the key stays dated
    and nothing expires. *)
Definition stays_dated (k : string) (span : Z) (from : nat) (s s' : store) : Prop :=
  wall s' = wall s /\ (ticks s <= ticks s')%nat /\
  (dated k span from s -> within_window s from (ticks s') span ->
   dated k span from s' /\ expirations s' = expirations s).

(** The commands of a bucket on the key [k] whose set-expiry carries
    [span] milliseconds. *)
Definition window_command (k : string) (span : Z) (c : command) : Prop :=
  key_of c = k /\
  match c with
  | PEXPIRE _ ms => ms = span
  | _ => True
  end.

(** Every call of the sequence succeeded, the call after the k-th amount
    returned the capacity less the sum of the first k amounts, and the
    bucket caches the capacity less the sum of all of them. *)
Definition all_admitted (cap : Z) (amounts : list Z) (b : bucket)
           (rs : list (leakybucket.BucketState * option error)) : Prop :=
  Forall (fun r => snd r = None) rs /\
  map (fun r => leakybucket.Remaining (fst r)) rs = remainders cap 0 amounts /\
  remaining b = cap - total amounts.

(** A clock that advances by a tenth of a second from one reading to the
    next, and a clock that stands at 0.9 ms past five seconds for the
    first eight readings and at 2.1 ms past five seconds from then on. *)
Definition steady : nat -> time.Time :=
  fun n => Z.of_nat n * (100 * time.Millisecond) + 5 * time.Second.

Definition late_call : nat -> time.Time :=
  fun n => if (n <=? 7)%nat then 5 * time.Second + 900 * 1000
           else 5 * time.Second + 2100 * 1000.

(** * Properties *)

Ltac commands_allowed :=
  repeat first
    [ apply List.Forall_nil
    | apply List.Forall_cons; [unfold Add_command; auto 10 |] ].

(** ** Machine integers and reply conversions *)

Lemma to_uint_small (z : Z) : is_uint z -> to_uint z = z.
Proof.
  unfold is_uint, to_uint, uint_max, uint_bits. intros Hz.
  apply Z.mod_small. lia.
Qed.

Lemma to_uint_is_uint (z : Z) : is_uint (to_uint z).
Proof.
  unfold is_uint, to_uint, uint_max, uint_bits.
  pose proof (Z.mod_pos_bound z (2 ^ 64)). lia.
Qed.

Lemma to_int64_small (z : Z) : is_int64 z -> to_int64 z = z.
Proof.
  unfold is_int64, to_int64, int64_min, int64_max. intros Hz.
  rewrite Z.mod_small; lia.
Qed.

Lemma min_spec (a b : Z) : (a < b /\ min a b = a) \/ (b <= a /\ min a b = b).
Proof. unfold min. destruct (Z.ltb_spec a b); lia. Qed.

(** The clipped difference of the source neither wraps nor leaves the
    range from zero to the capacity. *)
Lemma clip_exact (cap c : Z) :
  is_uint cap -> 0 <= c ->
  to_uint (cap - min c cap) = cap - min c cap /\
  0 <= cap - min c cap <= cap.
Proof.
  intros Hcap Hc. destruct (min_spec c cap) as [[? ->] | [? ->]];
    (split; [apply to_uint_small; unfold is_uint in *; lia | unfold is_uint in *; lia]).
Qed.

Lemma ParseUint_is_uint (s : string) (c : Z) :
  strconv.ParseUint s = (c, None) -> is_uint c.
Proof.
  unfold strconv.ParseUint. destruct (NilZero.uint_of_string s) as [d |]; [| discriminate].
  cbv zeta. destruct (Z.leb_spec (Z.of_N (N.of_uint d)) uint_max); [| discriminate].
  intros [= <-]. unfold is_uint. lia.
Qed.

(** A count that [redis.Uint64] delivers without error is a [uint64]. *)
Lemma Uint64_is_uint (r : reply * option error) (c : Z) :
  redis.Uint64 r = (c, None) -> is_uint c.
Proof.
  destruct r as [[| n | s | s | msg] [err |]]; simpl; try discriminate.
  - destruct (n <? 0); [discriminate |]. intros [= <-]. apply to_uint_is_uint.
  - apply ParseUint_is_uint.
Qed.

(** With the not-found error comes the count zero. *)
Lemma Uint64_nil_zero (r : reply * option error) (c : Z) :
  redis.Uint64 r = (c, Some redis.ErrNil) -> c = 0.
Proof.
  unfold redis.ErrNil.
  destruct r as [[| n | s | s | msg] [err |]]; simpl; try congruence.
  - destruct (n <? 0); congruence.
  - unfold strconv.ParseUint. destruct (NilZero.uint_of_string s); [| congruence].
    cbv zeta. destruct (_ <=? _); congruence.
Qed.

(** The server's text of a counter is read back by the client. *)
Lemma ParseUint_FormatInt (v : Z) :
  is_uint v -> strconv.ParseUint (strconv.FormatInt v) = (v, None).
Proof.
  intros Hv. unfold strconv.ParseUint, strconv.FormatInt.
  assert (Hd : exists d, Z.to_int v = Decimal.Pos d /\ d <> Decimal.Nil
                         /\ Z.of_N (N.of_uint d) = v).
  { destruct v as [| p | p]; [| | unfold is_uint in Hv; lia].
    - exists (Decimal.D0 Decimal.Nil). repeat split; discriminate.
    - exists (Pos.to_uint p). split; [reflexivity |]. split.
      + intros Hnil. pose proof (DecimalPos.Unsigned.of_to p) as Hp.
        rewrite Hnil in Hp. discriminate.
      + change (N.of_uint (Pos.to_uint p)) with (Pos.of_uint (Pos.to_uint p)).
        rewrite DecimalPos.Unsigned.of_to. reflexivity. }
  destruct Hd as (d & -> & Hnil & Hval).
  simpl NilZero.string_of_int. rewrite NilZero.usu by assumption.
  cbv zeta. rewrite Hval.
  destruct (Z.leb_spec v uint_max); [reflexivity | unfold is_uint in Hv; lia].
Qed.

(** ** Running the primitives *)

Section Running.

Context {W : Type} `{World W}.

Lemma run_DoContext {A : Type} (c : command) (k : reply * option error -> M W A)
      (e : env W) (r : reply * option error) (w : W) :
  conn_DoContext c (world e) = (r, w) ->
  bind (DoContext c) k e = k r {| world := w; issued := issued e ++ [c] |}.
Proof. intros Hc. unfold bind, DoContext. rewrite Hc. reflexivity. Qed.

Lemma run_Now {A : Type} (k : time.Time -> M W A) (e : env W) (t : time.Time) (w : W) :
  clock_Now (world e) = (t, w) ->
  bind Now k e = k t {| world := w; issued := issued e |}.
Proof. intros Hc. unfold bind, Now. rewrite Hc. reflexivity. Qed.

Lemma sent_app (e e' : env W) (l : list command) :
  issued e' = issued e ++ l -> sent e e' = l.
Proof. intros Hl. unfold sent. rewrite Hl. apply drop_app_length. Qed.

(** *** The reset-time refresh, case by case *)

(** The cached reset is ahead by the clock's second: nothing happens. *)
Lemma updateOldReset_fresh (b : bucket) (e : env W) (now : time.Time) (w1 : W) :
  clock_Now (world e) = (now, w1) ->
  time.Unix (reset b) > time.Unix now ->
  updateOldReset b e = (Returned (b, None), {| world := w1; issued := issued e |}).
Proof.
  intros Hnow Hgt. unfold updateOldReset. rewrite (run_Now _ _ _ _ Hnow).
  destruct (Z.gtb_spec (time.Unix (reset b)) (time.Unix now)); [reflexivity | lia].
Qed.

(** The time-to-live query fails: the error is handed back, the bucket
    is as it was. *)
Lemma updateOldReset_failed (b : bucket) (e : env W) (now : time.Time) (w1 w2 : W)
      (r : reply) (err : error) :
  clock_Now (world e) = (now, w1) ->
  time.Unix (reset b) <= time.Unix now ->
  conn_DoContext (PTTL (name b)) w1 = ((r, Some err), w2) ->
  updateOldReset b e =
    (Returned (b, Some err), {| world := w2; issued := issued e ++ [PTTL (name b)] |}).
Proof.
  intros Hnow Hle Httl. unfold updateOldReset. rewrite (run_Now _ _ _ _ Hnow).
  destruct (Z.gtb_spec (time.Unix (reset b)) (time.Unix now)); [lia |].
  erewrite run_DoContext by exact Httl. reflexivity.
Qed.

(** The time-to-live query answers an integer: the reset is rebuilt from
    a second reading of the clock. *)
Lemma updateOldReset_stale (b : bucket) (e : env W) (now now' : time.Time)
      (w1 w2 w3 : W) (ttl : Z) :
  clock_Now (world e) = (now, w1) ->
  time.Unix (reset b) <= time.Unix now ->
  conn_DoContext (PTTL (name b)) w1 = ((RInt ttl, None), w2) ->
  clock_Now w2 = (now', w3) ->
  updateOldReset b e =
    (Returned (set_reset b (time.Add now' (to_int64 (ttl * millisecond))), None),
     {| world := w3; issued := issued e ++ [PTTL (name b)] |}).
Proof.
  intros Hnow Hle Httl Hnow'. unfold updateOldReset. rewrite (run_Now _ _ _ _ Hnow).
  destruct (Z.gtb_spec (time.Unix (reset b)) (time.Unix now)); [lia |].
  erewrite run_DoContext by exact Httl. cbv beta iota.
  erewrite run_Now by exact Hnow'. reflexivity.
Qed.

(** A reset that is not ahead by the clock's second: the query is sent,
    whatever comes of it. *)
Lemma updateOldReset_queries (b : bucket) (e : env W) (now : time.Time) (w1 : W) :
  clock_Now (world e) = (now, w1) ->
  time.Unix (reset b) <= time.Unix now ->
  exists (out : outcome (bucket * option error)) (e' : env W),
    updateOldReset b e = (out, e') /\
    issued e' = issued e ++ [PTTL (name b)].
Proof.
  intros Hnow Hle. unfold updateOldReset. rewrite (run_Now _ _ _ _ Hnow).
  destruct (Z.gtb_spec (time.Unix (reset b)) (time.Unix now)); [lia |].
  destruct (conn_DoContext (PTTL (name b)) w1) as [[r [x |]] w2] eqn:Httl;
    erewrite run_DoContext by exact Httl; cbv beta iota.
  - eexists _, _. split; reflexivity.
  - destruct (clock_Now w2) as [now' w3] eqn:Hnow'. erewrite run_Now by exact Hnow'.
    destruct r; eexists _, _; split; reflexivity.
Qed.

(** Whatever the world does, the refresh sends at most the time-to-live
    query and writes no field but [reset]; when it hands back an error the
    bucket is untouched. *)
Lemma updateOldReset_frame (b : bucket) (e : env W) :
  exists (out : outcome (bucket * option error)) (e' : env W) (l : list command),
    updateOldReset b e = (out, e') /\
    issued e' = issued e ++ l /\
    (l = [] \/ l = [PTTL (name b)]) /\
    forall b' err, out = Returned (b', err) ->
      name b' = name b /\ capacity b' = capacity b /\
      remaining b' = remaining b /\ rate b' = rate b /\
      (err <> None -> b' = b).
Proof.
  destruct (clock_Now (world e)) as [now w1] eqn:Hnow.
  destruct (Z.le_gt_cases (time.Unix (reset b)) (time.Unix now)) as [Hle | Hgt].
  2:{ eexists _, _, []. split; [apply (updateOldReset_fresh _ _ _ _ Hnow); lia |].
      simpl. rewrite app_nil_r. repeat split; try tauto; congruence. }
  destruct (conn_DoContext (PTTL (name b)) w1) as [[r [err |]] w2] eqn:Httl.
  { eexists _, _, [_]. split; [apply (updateOldReset_failed _ _ _ _ _ _ _ Hnow Hle Httl) |].
    simpl. repeat split; try tauto; congruence. }
  destruct (clock_Now w2) as [now' w3] eqn:Hnow'.
  destruct r as [| ttl | s | s | msg].
  2:{ eexists _, _, [_].
      split; [apply (updateOldReset_stale _ _ _ _ _ _ _ _ Hnow Hle Httl Hnow') |].
      simpl. split; [reflexivity |]. split; [tauto |].
      intros b' err [= <- <-]. simpl. repeat split. congruence. }
  all: exists Panicked, {| world := w3; issued := issued e ++ [PTTL (name b)] |}, [PTTL (name b)].
  all: split; [| split; [reflexivity | split; [tauto | discriminate]]].
  all: unfold updateOldReset; rewrite (run_Now _ _ _ _ Hnow).
  all: destruct (Z.gtb_spec (time.Unix (reset b)) (time.Unix now)); [lia |].
  all: erewrite run_DoContext by exact Httl; cbv beta iota.
  all: erewrite run_Now by exact Hnow'; reflexivity.
Qed.

(** With integer time-to-live replies the refresh returns. *)
Lemma updateOldReset_returns (b : bucket) (e : env W) :
  ttl_typed W ->
  exists b' err e', updateOldReset b e = (Returned (b', err), e').
Proof.
  intros Htyped.
  destruct (clock_Now (world e)) as [now w1] eqn:Hnow.
  destruct (Z.le_gt_cases (time.Unix (reset b)) (time.Unix now)) as [Hle | Hgt].
  2:{ eexists _, _, _. apply (updateOldReset_fresh _ _ _ _ Hnow). lia. }
  pose proof (Htyped (name b) w1) as Hok.
  destruct (conn_DoContext (PTTL (name b)) w1) as [[r [err |]] w2] eqn:Httl.
  { eexists _, _, _. apply (updateOldReset_failed _ _ _ _ _ _ _ Hnow Hle Httl). }
  destruct (clock_Now w2) as [now' w3] eqn:Hnow'.
  destruct r as [| ttl | s | s | msg]; simpl in Hok; try contradiction.
  eexists _, _, _. apply (updateOldReset_stale _ _ _ _ _ _ _ _ Hnow Hle Httl Hnow').
Qed.

End Running.

(** ** The steps of [Add] *)

Section AddSteps.

Context {W : Type} `{World W}.

Lemma Add_read_failed (amount : Z) (b : bucket) (e : env W)
      (r : reply * option error) (w1 : W) (c : Z) (err : error) :
  conn_DoContext (GET (name b)) (world e) = (r, w1) ->
  redis.Uint64 r = (c, Some err) ->
  err <> redis.ErrNil ->
  Add amount b e =
    (Returned (b, (State b, Some err)),
     {| world := w1; issued := issued e ++ [GET (name b)] |}).
Proof.
  intros Hget Hcount Herr. unfold Add. erewrite run_DoContext by exact Hget.
  rewrite Hcount. destruct (decide (err = redis.ErrNil)); [contradiction | reflexivity].
Qed.

Lemma Add_read (amount : Z) (b : bucket) (e : env W)
      (r : reply * option error) (w1 : W) (c : Z) (err : option error) :
  is_uint (capacity b) ->
  conn_DoContext (GET (name b)) (world e) = (r, w1) ->
  redis.Uint64 r = (c, err) ->
  err = None \/ err = Some redis.ErrNil ->
  Add amount b e =
    Add_checked amount (after_read b c)
      {| world := w1; issued := issued e ++ [GET (name b)] |}.
Proof.
  intros Hcap Hget Hcount Herr. unfold Add. erewrite run_DoContext by exact Hget.
  rewrite Hcount. unfold after_read. destruct Herr as [-> | ->].
  - pose proof (Uint64_is_uint _ _ Hcount) as Hc.
    rewrite (to_uint_small c Hc).
    destruct (clip_exact (capacity b) c Hcap) as [-> _]; [unfold is_uint in Hc; lia |].
    reflexivity.
  - rewrite (Uint64_nil_zero _ _ Hcount).
    destruct (decide (redis.ErrNil = redis.ErrNil)); [| contradiction].
    replace (capacity b - min 0 (capacity b)) with (capacity b); [reflexivity |].
    destruct (min_spec 0 (capacity b)) as [[? ->] | [? ->]]; unfold is_uint in Hcap; lia.
Qed.

Lemma Add_finish_spec (count : Z) (b : bucket) (e : env W) :
  is_uint (capacity b) -> is_uint count ->
  exists (out : outcome Add_result) (e' : env W) (l : list command),
    Add_finish count b e = (out, e') /\
    issued e' = issued e ++ l /\
    (l = [] \/ l = [PTTL (name b)]) /\
    forall b' st err, out = Returned (b', (st, err)) ->
      err = None /\ st = State b' /\
      name b' = name b /\ capacity b' = capacity b /\ rate b' = rate b /\
      remaining b' = capacity b - min count (capacity b).
Proof.
  intros Hcap Hcount.
  destruct (updateOldReset_frame b e) as (out & e' & l & Hrun & Hl & Hcmd & Hb).
  unfold Add_finish, bind. rewrite Hrun. destruct out as [[b1 err1] |].
  - destruct (Hb b1 err1 eq_refl) as (Hn & Hc & _ & Hr & _).
    eexists _, e', l. split; [reflexivity |]. split; [exact Hl |]. split; [exact Hcmd |].
    intros b' st err [= <- <- <-]. simpl. rewrite Hc, (to_uint_small count Hcount).
    destruct (clip_exact (capacity b) count Hcap) as [-> _]; [unfold is_uint in Hcount; lia |].
    repeat split; try assumption.
  - exists Panicked, e', l.
    split; [reflexivity |]. split; [exact Hl |]. split; [exact Hcmd | discriminate].
Qed.

End AddSteps.

(** ** Creation *)

(** The run of [Create] when the lookup answers nil. *)
Lemma Create_absent_run {W : Type} `{World W}
      (nm : string) (cap : Z) (rt : time.Duration)
      (e : env W) (w1 w2 : W) (now : time.Time) :
  conn_DoContext (GET nm) (world e) = ((RNil, None), w1) ->
  clock_Now w1 = (now, w2) ->
  Create nm cap rt e =
    (Returned (Some {| name := nm; capacity := cap; remaining := cap;
                       reset := time.Add now rt; rate := rt |}, None),
     {| world := w2; issued := issued e ++ [GET nm] |}).
Proof.
  intros Hget Hnow. unfold Create. erewrite run_DoContext by exact Hget. simpl.
  erewrite run_Now by exact Hnow. reflexivity.
Qed.

(** C4. When the store answers the counter lookup with the nil reply (the
    key is absent), [Create] returns a bucket whose remaining is the
    capacity and whose reset is the clock reading plus the window
    duration, and the only command it has sent is the lookup: no mutating
    command goes to the store. *)
Theorem Create_on_absent_key {W : Type} `{World W}
        (nm : string) (cap : Z) (rt : time.Duration)
        (e : env W) (w1 w2 : W) (now : time.Time) :
  conn_DoContext (GET nm) (world e) = ((RNil, None), w1) ->
  clock_Now w1 = (now, w2) ->
  exists (b : bucket) (e' : env W),
    Create nm cap rt e = (Returned (Some b, None), e') /\
    b = {| name := nm; capacity := cap; remaining := cap;
           reset := time.Add now rt; rate := rt |} /\
    remaining b = capacity b /\
    reset b = now + rt /\
    world e' = w2 /\
    sent e e' = [GET nm] /\
    forallb mutating (sent e e') = false.
Proof.
  intros Hget Hnow.
  eexists _, _. split; [exact (Create_absent_run nm cap rt e w1 w2 now Hget Hnow) |].
  rewrite (sent_app _ _ [GET nm]) by reflexivity. repeat split.
Qed.

(** *** Witness for C4: an empty store at five seconds *)

Lemma Create_on_absent_key_witness :
  exists b e',
    @Create store (served healthy) "k" 10 time.Second (start (empty_store five_seconds))
      = (Returned (Some b, None), e') /\
    remaining b = 10 /\
    reset b = 6 * time.Second /\
    sent (start (empty_store five_seconds)) e' = [GET "k"].
Proof.
  destruct (@Create_on_absent_key store (served healthy) "k" 10 time.Second
              (start (empty_store five_seconds))
              (tick (empty_store five_seconds))
              (tick (tick (empty_store five_seconds)))
              (5 * time.Second) eq_refl eq_refl)
    as (b & e' & Hrun & Hb & _ & _ & _ & Hsent & _).
  exists b, e'. split; [exact Hrun |]. rewrite Hb. split; [reflexivity |].
  split; [reflexivity | exact Hsent].
Defined.


(** *** Witness for C5: a counter of 5 with 500 ms to live, and the two
    failing lookups *)

Lemma ten_is_uint : is_uint 10.
Proof. unfold is_uint, uint_max, uint_bits. lia. Qed.


(** ** The reset time *)

Lemma Unix_monotone (s t : time.Time) : s <= t -> time.Unix s <= time.Unix t.
Proof. intros Hst. unfold time.Unix, time.Second. apply Z.div_le_mono; lia. Qed.

Lemma Unix_second_ahead (s t : time.Time) :
  s + time.Second <= t -> time.Unix s < time.Unix t.
Proof.
  intros Hst. unfold time.Unix, time.Second in *.
  pose proof (Z.div_le_mono (s + 1 * 1000000000) t 1000000000 ltac:(lia) ltac:(lia)) as Hdiv.
  rewrite Z.div_add in Hdiv by lia. lia.
Qed.

(** C7, as the code has it.  The refresh compares whole seconds: it sends
    the time-to-live query exactly when the Unix second of the cached
    reset is not after the Unix second of the clock.  When the second of
    the cached reset is strictly later (in particular when the reset is a
    second or more ahead) the bucket is handed back untouched and no
    command is sent; when the reset is not after the clock the query is
    sent. *)
Theorem refresh_compares_seconds {W : Type} `{World W}
        (b : bucket) (e : env W) (now : time.Time) (w1 : W) :
  clock_Now (world e) = (now, w1) ->
  (time.Unix (reset b) > time.Unix now ->
     updateOldReset b e = (Returned (b, None), {| world := w1; issued := issued e |}) /\
     sent e (snd (updateOldReset b e)) = [])
  /\
  (time.Unix (reset b) <= time.Unix now ->
     sent e (snd (updateOldReset b e)) = [PTTL (name b)])
  /\
  (now + time.Second <= reset b -> time.Unix (reset b) > time.Unix now)
  /\
  (reset b <= now -> time.Unix (reset b) <= time.Unix now).
Proof.
  intros Hnow. split; [| split; [| split]].
  - intros Hgt. rewrite (updateOldReset_fresh b e now w1 Hnow Hgt).
    split; [reflexivity |]. apply sent_app. simpl. rewrite app_nil_r. reflexivity.
  - intros Hle.
    destruct (updateOldReset_queries b e now w1 Hnow Hle) as (out & e' & -> & Hl).
    apply sent_app. exact Hl.
  - intros Hahead. pose proof (Unix_second_ahead now (reset b) Hahead). lia.
  - apply Unix_monotone.
Qed.

(** *** Witness for C7: a reset two seconds ahead, and a reset in the past *)

Lemma refresh_compares_seconds_witness :
  @updateOldReset store (served healthy) idle (start (empty_store five_seconds))
    = (Returned (idle, None), start (tick (empty_store five_seconds))) /\
  sent (start (empty_store five_seconds))
       (snd (@updateOldReset store (served healthy) (set_reset idle time.Second)
               (start (empty_store five_seconds))))
    = [PTTL "k"].
Proof.
  split.
  - apply (@refresh_compares_seconds store (served healthy) idle
             (start (empty_store five_seconds)) (5 * time.Second)
             (tick (empty_store five_seconds)) eq_refl).
    reflexivity.
  - apply (@refresh_compares_seconds store (served healthy) (set_reset idle time.Second)
             (start (empty_store five_seconds)) (5 * time.Second)
             (tick (empty_store five_seconds)) eq_refl).
    vm_compute. discriminate.
Defined.

(** The claim as the spec words it fails: a cached reset half a second in
    the future, within the clock's current second, is refreshed all the
    same.  The query is sent and the reset is overwritten (here with the
    not-found reply of an empty store, which moves it into the past). *)
Lemma refresh_within_the_second :
  fst (@clock_Now store (served healthy) (empty_store five_seconds))
    < reset half_second_ahead /\
  sent (start (empty_store five_seconds))
       (snd (@updateOldReset store (served healthy) half_second_ahead
               (start (empty_store five_seconds)))) = [PTTL "k"] /\
  fst (@updateOldReset store (served healthy) half_second_ahead
         (start (empty_store five_seconds)))
    = Returned (set_reset half_second_ahead (5 * time.Second - 2 * time.Millisecond), None) /\
  ~ (sent (start (empty_store five_seconds))
          (snd (@updateOldReset store (served healthy) half_second_ahead
                  (start (empty_store five_seconds)))) = [] /\
     fst (@updateOldReset store (served healthy) half_second_ahead
            (start (empty_store five_seconds)))
       = Returned (half_second_ahead, None)).
Proof.
  vm_compute. split; [reflexivity |]. split; [reflexivity |]. split; [reflexivity |].
  intros [Habs _]. discriminate Habs.
Qed.

(** C10. A time-to-live reply that is not positive is taken as a
    duration like any other: the refresh, once it queries, and [Create]
    on an existing key both set the reset to the clock reading plus [ttl]
    milliseconds.  The reset is then not after that reading, and for a
    negative reply, such as the sentinels -1 (no expiry) and -2 (not
    found), strictly before it. *)
Theorem nonpositive_ttl_sets_reset_back {W : Type} `{World W} (ttl : Z) :
  ttl <= 0 ->
  int64_min <= ttl * millisecond ->
  (forall (b : bucket) (e : env W) (now now' : time.Time) (w1 w2 w3 : W),
      clock_Now (world e) = (now, w1) ->
      time.Unix (reset b) <= time.Unix now ->
      conn_DoContext (PTTL (name b)) w1 = ((RInt ttl, None), w2) ->
      clock_Now w2 = (now', w3) ->
      exists (b' : bucket) (e' : env W),
        updateOldReset b e = (Returned (b', None), e') /\
        reset b' = now' + ttl * time.Millisecond /\
        reset b' <= now' /\
        (ttl < 0 -> reset b' < now'))
  /\
  (forall (nm : string) (cap : Z) (rt : time.Duration) (e : env W)
          (r1 r2 : reply * option error) (c : Z) (now : time.Time) (w1 w2 w3 : W),
      conn_DoContext (GET nm) (world e) = (r1, w1) ->
      redis.Uint64 r1 = (c, None) ->
      conn_DoContext (PTTL nm) w1 = (r2, w2) ->
      redis.Int64 r2 = (ttl, None) ->
      clock_Now w2 = (now, w3) ->
      exists (b : bucket) (e' : env W),
        Create nm cap rt e = (Returned (Some b, None), e') /\
        reset b = now + ttl * time.Millisecond /\
        reset b <= now /\
        (ttl < 0 -> reset b < now)).
Proof.
  intros Hneg Hmin.
  assert (Hfit : to_int64 (ttl * millisecond) = ttl * time.Millisecond).
  { apply to_int64_small. unfold is_int64, int64_min, int64_max, millisecond,
      time.Millisecond in *. lia. }
  split.
  - intros b e now now' w1 w2 w3 Hnow Hle Httl Hnow'.
    eexists _, _. split;
      [apply (updateOldReset_stale b e now now' w1 w2 w3 ttl Hnow Hle Httl Hnow') |].
    simpl. unfold time.Add. rewrite Hfit. unfold time.Millisecond. lia.
  - intros nm cap rt e r1 r2 c now w1 w2 w3 Hget Hcount Httl Hint Hnow.
    eexists _, _. split.
    { unfold Create. erewrite run_DoContext by exact Hget. rewrite Hcount.
      erewrite run_DoContext by exact Httl. rewrite Hint.
      erewrite run_Now by exact Hnow. reflexivity. }
    simpl. unfold time.Add. rewrite Hfit. unfold time.Millisecond. lia.
Qed.

(** *** Witness for C10: a counter without expiry (reply -1) met by
    [Create], and a vanished key (reply -2) met by the refresh *)

Lemma nonpositive_ttl_sets_reset_back_witness :
  (exists b e',
     @updateOldReset store (served healthy) (set_reset idle time.Second)
       (start (empty_store five_seconds)) = (Returned (b, None), e') /\
     reset b = 5 * time.Second - 2 * time.Millisecond)
  /\ (exists b e',
        @Create store (served healthy) "k" 10 time.Second (start undated)
          = (Returned (Some b, None), e') /\
        reset b = 5 * time.Second - 1 * time.Millisecond).
Proof.
  split.
  - destruct (@nonpositive_ttl_sets_reset_back store (served healthy) (-2)) as [Hrefresh _];
      [lia | unfold int64_min, millisecond, time.Millisecond; lia |].
    destruct (Hrefresh (set_reset idle time.Second) (start (empty_store five_seconds))
                (5 * time.Second) (5 * time.Second)
                (tick (empty_store five_seconds))
                (tick (tick (empty_store five_seconds)))
                (tick (tick (tick (empty_store five_seconds)))))
      as (b & e' & Hrun & Hreset & _);
      [reflexivity | vm_compute; discriminate | reflexivity | reflexivity |].
    exists b, e'. split; [exact Hrun | rewrite Hreset; reflexivity].
  - destruct (@nonpositive_ttl_sets_reset_back store (served healthy) (-1)) as [_ Hcreate];
      [lia | unfold int64_min, millisecond, time.Millisecond; lia |].
    destruct (Hcreate "k" 10 time.Second (start undated)
                (RBulk "5", None) (RInt (-1), None) 5 (5 * time.Second)
                (tick undated) (tick (tick undated)) (tick (tick (tick undated))))
      as (b & e' & Hrun & Hreset & _);
      [reflexivity | reflexivity | reflexivity | reflexivity | reflexivity |].
    exists b, e'. split; [exact Hrun | rewrite Hreset; reflexivity].
Defined.

(** ** Consumption *)

Section AddPaths.

Context {W : Type} `{World W}.

(** Over quota: the refresh runs, then the bucket-full error is returned. *)
Lemma Add_checked_full (amount : Z) (b : bucket) (e : env W) :
  amount > remaining b ->
  exists (out : outcome (bucket * (leakybucket.BucketState * option error)))
         (e' : env W) (l : list command),
    Add_checked amount b e = (out, e') /\
    issued e' = issued e ++ l /\
    (l = [] \/ l = [PTTL (name b)]) /\
    (ttl_typed W -> exists b', out = Returned (b', (State b', Some leakybucket.ErrorFull))) /\
    forall b' st err, out = Returned (b', (st, err)) ->
      err = Some leakybucket.ErrorFull /\ st = State b' /\
      name b' = name b /\ capacity b' = capacity b /\ rate b' = rate b /\
      remaining b' = remaining b.
Proof.
  intros Hover. unfold Add_checked.
  destruct (Z.gtb_spec amount (remaining b)); [| lia].
  destruct (updateOldReset_frame b e) as (out & e' & l & Hrun & Hl & Hcmd & Hb).
  unfold bind. rewrite Hrun. destruct out as [[b1 err1] |].
  - destruct (Hb b1 err1 eq_refl) as (Hn & Hc & Hr & Hrt & _).
    eexists _, e', l. split; [reflexivity |]. split; [exact Hl |]. split; [exact Hcmd |].
    split; [intros _; eexists; reflexivity |].
    intros b' st err [= <- <- <-]. repeat split; assumption.
  - exists Panicked, e', l.
    split; [reflexivity |]. split; [exact Hl |]. split; [exact Hcmd |].
    split; [| discriminate].
    intros Htyped. destruct (updateOldReset_returns b e Htyped) as (b' & err & e'' & Hret).
    congruence.
Qed.

(** Within quota: the increment is sent. *)
Lemma Add_checked_increment (amount : Z) (b : bucket) (e : env W)
      (r : reply * option error) (w : W) :
  amount <= remaining b ->
  conn_DoContext (INCRBY (name b) amount) (world e) = (r, w) ->
  Add_checked amount b e =
    Add_incremented amount b r
      {| world := w; issued := issued e ++ [INCRBY (name b) amount] |}.
Proof.
  intros Hfit Hincr. unfold Add_checked.
  destruct (Z.gtb_spec amount (remaining b)); [lia |].
  erewrite run_DoContext by exact Hincr. reflexivity.
Qed.

(** Every path of [Add_checked], at once. *)
Lemma Add_checked_cases (amount : Z) (b : bucket) (e : env W) :
  is_uint (capacity b) ->
  exists (out : outcome (bucket * (leakybucket.BucketState * option error)))
         (e' : env W) (l : list command),
    Add_checked amount b e = (out, e') /\
    issued e' = issued e ++ l /\
    Forall (Add_command amount b) l /\
    forall b' st err, out = Returned (b', (st, err)) ->
      st = State b' /\
      name b' = name b /\ capacity b' = capacity b /\ rate b' = rate b /\
      (remaining b' = remaining b \/
       exists count, is_uint count /\ err = None /\
                     remaining b' = capacity b - min count (capacity b)).
Proof.
  intros Hcap. destruct (Z.le_gt_cases amount (remaining b)) as [Hfit | Hover].
  2:{ destruct (Add_checked_full amount b e) as (out & e' & l & Hrun & Hl & Hcmd & _ & Hb);
        [lia |].
      exists out, e', l. split; [exact Hrun |]. split; [exact Hl |]. split.
      - destruct Hcmd as [-> | ->]; commands_allowed.
      - intros b' st err Hout. destruct (Hb b' st err Hout) as (_ & ? & ? & ? & ? & ?).
        repeat split; try assumption. left. assumption. }
  destruct (conn_DoContext (INCRBY (name b) amount) (world e)) as [r w] eqn:Hincr.
  rewrite (Add_checked_increment amount b e r w Hfit Hincr). unfold Add_incremented.
  destruct (redis.Uint64 r) as [count [x |]] eqn:Hcount.
  { eexists _, _, [_]. split; [reflexivity |]. split; [reflexivity |]. split.
    - commands_allowed.
    - intros b' st err [= <- <- <-]. repeat split. left. reflexivity. }
  pose proof (Uint64_is_uint _ _ Hcount) as Hc.
  assert (Hfin : forall e1 : env W,
    exists out e' l,
      Add_finish count b e1 = (out, e') /\ issued e' = issued e1 ++ l /\
      Forall (Add_command amount b) l /\
      forall b' st err, out = Returned (b', (st, err)) ->
        st = State b' /\ name b' = name b /\ capacity b' = capacity b /\
        rate b' = rate b /\
        (remaining b' = remaining b \/
         exists count, is_uint count /\ err = None /\
                       remaining b' = capacity b - min count (capacity b))).
  { intros e1.
    destruct (Add_finish_spec count b e1 Hcap Hc) as (out & e' & l & Hrun & Hl & Hcmd & Hb).
    exists out, e', l. split; [exact Hrun |]. split; [exact Hl |]. split.
    - destruct Hcmd as [-> | ->]; commands_allowed.
    - intros b' st err Hout. destruct (Hb b' st err Hout) as (? & ? & ? & ? & ? & ?).
      repeat split; try assumption. right. exists count.
      split; [exact Hc | split; assumption]. }
  destruct (to_uint count =? amount).
  - destruct (conn_DoContext (PEXPIRE (name b) (expiry_of b)) w) as [[r2 [x |]] w3] eqn:Hexp.
    + eexists _, _, [_; _]. split.
      { erewrite run_DoContext by exact Hexp. reflexivity. }
      simpl. rewrite <- app_assoc. split; [reflexivity |]. split.
      * commands_allowed.
      * intros b' st err [= <- <- <-]. repeat split. left. reflexivity.
    + erewrite run_DoContext by exact Hexp. cbv beta iota.
      destruct (Hfin {| world := w3;
                        issued := (issued e ++ [INCRBY (name b) amount])
                                    ++ [PEXPIRE (name b) (expiry_of b)] |})
        as (out & e' & l & Hrun & Hl & Hcmd & Hb).
      exists out, e', ([INCRBY (name b) amount; PEXPIRE (name b) (expiry_of b)] ++ l).
      split; [exact Hrun |]. split.
      { rewrite Hl. simpl. rewrite <- !app_assoc. reflexivity. }
      split; [| exact Hb].
      apply Forall_app. split; [| exact Hcmd].
      commands_allowed.
  - destruct (Hfin {| world := w; issued := issued e ++ [INCRBY (name b) amount] |})
      as (out & e' & l & Hrun & Hl & Hcmd & Hb).
    exists out, e', ([INCRBY (name b) amount] ++ l).
    split; [exact Hrun |]. split.
    { rewrite Hl. simpl. rewrite <- !app_assoc. reflexivity. }
    split; [| exact Hb].
    apply Forall_app. split; [| exact Hcmd].
    commands_allowed.
Qed.

End AddPaths.

Section AddResults.

Context {W : Type} `{World W}.

(** Every path of [Add], at once: the commands it can send, the fields it
    keeps, and where the remaining it leaves comes from. *)
Lemma Add_cases (amount : Z) (b : bucket) (e : env W) :
  is_uint (capacity b) ->
  exists (out : outcome (bucket * (leakybucket.BucketState * option error)))
         (e' : env W) (l : list command),
    Add amount b e = (out, e') /\
    issued e' = issued e ++ l /\
    Forall (Add_command amount b) l /\
    forall b' st err, out = Returned (b', (st, err)) ->
      st = State b' /\
      name b' = name b /\ capacity b' = capacity b /\ rate b' = rate b /\
      ((remaining b' = remaining b /\ err <> None) \/
       exists count, is_uint count /\
                     remaining b' = capacity b - min count (capacity b)).
Proof.
  intros Hcap.
  destruct (conn_DoContext (GET (name b)) (world e)) as [r w1] eqn:Hget.
  destruct (redis.Uint64 r) as [c err] eqn:Hcount.
  assert (Hread : (exists x, err = Some x /\ x <> redis.ErrNil) \/
                  ((err = None \/ err = Some redis.ErrNil) /\ is_uint c)).
  { destruct err as [x |].
    - destruct (decide (x = redis.ErrNil)) as [-> | Hx].
      + right. split; [right; reflexivity |].
        rewrite (Uint64_nil_zero _ _ Hcount). unfold is_uint, uint_max, uint_bits. lia.
      + left. exists x. split; [reflexivity | exact Hx].
    - right. split; [left; reflexivity | exact (Uint64_is_uint _ _ Hcount)]. }
  destruct Hread as [(x & -> & Hx) | [Herr Hc]].
  - eexists _, _, [_]. split; [exact (Add_read_failed amount b e r w1 c x Hget Hcount Hx) |].
    split; [reflexivity |]. split; [commands_allowed |].
    intros b' st err' [= <- <- <-]. repeat split. left. split; [reflexivity | discriminate].
  - rewrite (Add_read amount b e r w1 c err Hcap Hget Hcount Herr).
    destruct (Add_checked_cases amount (after_read b c)
                {| world := w1; issued := issued e ++ [GET (name b)] |} Hcap)
      as (out & e' & l & Hrun & Hl & Hcmd & Hb).
    exists out, e', (GET (name b) :: l). split; [exact Hrun |]. split.
    { rewrite Hl. simpl. rewrite <- app_assoc. reflexivity. }
    split.
    { apply List.Forall_cons; [unfold Add_command; auto 10 | exact Hcmd]. }
    intros b' st err' Hout. destruct (Hb b' st err' Hout) as (? & ? & ? & ? & Hrem).
    repeat split; try assumption. right. destruct Hrem as [Hrem | (count & ? & _ & ?)].
    + exists c. split; [exact Hc | exact Hrem].
    + exists count. split; assumption.
Qed.

End AddResults.

(** C2. When the amount exceeds the remaining quota that the counter
    just read gives ([capacity - min count capacity], the count being zero
    for an absent key), [Add] returns the bucket-full error with a
    snapshot of the bucket; the remaining is that quota, so nothing has
    been consumed; and the only commands sent are the counter lookup and,
    when the cached reset is stale, the time-to-live query: no increment
    and no set-expiry goes to the store. *)
Theorem Add_over_quota {W : Type} `{World W}
        (amount : Z) (b : bucket) (e : env W)
        (r : reply * option error) (w1 : W) (c : Z) (err : option error) :
  ttl_typed W ->
  is_uint (capacity b) ->
  conn_DoContext (GET (name b)) (world e) = (r, w1) ->
  redis.Uint64 r = (c, err) ->
  err = None \/ err = Some redis.ErrNil ->
  amount > capacity b - min c (capacity b) ->
  exists (b' : bucket) (e' : env W),
    Add amount b e = (Returned (b', (State b', Some leakybucket.ErrorFull)), e') /\
    remaining b' = capacity b - min c (capacity b) /\
    (remaining b = capacity b - min c (capacity b) -> remaining b' = remaining b) /\
    name b' = name b /\ capacity b' = capacity b /\ rate b' = rate b /\
    (sent e e' = [GET (name b)] \/ sent e e' = [GET (name b); PTTL (name b)]) /\
    forallb mutating (sent e e') = false /\
    increments (sent e e') = [] /\
    expiries (sent e e') = [].
Proof.
  intros Htyped Hcap Hget Hcount Herr Hover.
  rewrite (Add_read amount b e r w1 c err Hcap Hget Hcount Herr).
  destruct (Add_checked_full amount (after_read b c)
              {| world := w1; issued := issued e ++ [GET (name b)] |} Hover)
    as (out & e' & l & Hrun & Hl & Hcmd & Hret & Hb).
  destruct (Hret Htyped) as (b' & ->).
  destruct (Hb b' _ _ eq_refl) as (_ & _ & Hn & Hc & Hrt & Hrem).
  exists b', e'. split; [exact Hrun |]. simpl in Hrem, Hn, Hc, Hrt.
  split; [exact Hrem |]. split; [congruence |].
  split; [exact Hn |]. split; [exact Hc |]. split; [exact Hrt |].
  assert (Hsent : sent e e' = GET (name b) :: l).
  { apply sent_app. rewrite Hl. simpl. rewrite <- app_assoc. reflexivity. }
  rewrite Hsent. destruct Hcmd as [-> | ->]; simpl; auto 10.
Qed.

(** The reference store answers the time-to-live query with an integer. *)
Lemma served_ttl_typed (faults : command -> option error) :
  @ttl_typed store (served faults).
Proof.
  intros k s. simpl. unfold serve. destruct (faults (PTTL k)); [exact I |].
  simpl. destruct (db (purge k _ (tick s)) !! k) as [en |]; [| exact I].
  destruct (deadline en); exact I.
Qed.

(** *** Witness for C2: 4 of 10 used, then an [Add] of 7 *)

Lemma Add_over_quota_witness :
  exists b' e',
    @Add store (served healthy) 7 (set_reset idle time.Second) (start four_used)
      = (Returned (b', (State b', Some leakybucket.ErrorFull)), e') /\
    remaining b' = 6 /\
    forallb mutating (sent (start four_used) e') = false.
Proof.
  destruct (@Add_over_quota store (served healthy) 7 (set_reset idle time.Second)
              (start four_used) (RBulk "4", None) (tick four_used) 4 None
              (served_ttl_typed healthy) ten_is_uint eq_refl eq_refl
              (or_introl eq_refl) eq_refl)
    as (b' & e' & Hrun & Hrem & _ & _ & _ & _ & _ & Hmut & _).
  exists b', e'. split; [exact Hrun |]. split; [exact Hrem | exact Hmut].
Defined.

(** C9. When the increment has succeeded with a total equal to the amount
    and the set-expiry command then fails, [Add] returns that error with
    a snapshot whose remaining is still the one computed from the counter
    read before the increment; the increment is among the commands the
    store has received. *)
Theorem Add_expiry_failure {W : Type} `{World W}
        (amount : Z) (b : bucket) (e : env W)
        (r0 r1 : reply * option error) (r2 : reply) (w1 w2 w3 : W)
        (c0 : Z) (err0 : option error) (count : Z) (err : error) :
  is_uint (capacity b) ->
  conn_DoContext (GET (name b)) (world e) = (r0, w1) ->
  redis.Uint64 r0 = (c0, err0) ->
  err0 = None \/ err0 = Some redis.ErrNil ->
  amount <= capacity b - min c0 (capacity b) ->
  conn_DoContext (INCRBY (name b) amount) w1 = (r1, w2) ->
  redis.Uint64 r1 = (count, None) ->
  count = amount ->
  conn_DoContext (PEXPIRE (name b) (expiry_of b)) w2 = ((r2, Some err), w3) ->
  exists (b' : bucket) (st : leakybucket.BucketState) (e' : env W),
    Add amount b e = (Returned (b', (st, Some err)), e') /\
    st = State b' /\
    remaining b' = capacity b - min c0 (capacity b) /\
    leakybucket.Remaining st = capacity b - min c0 (capacity b) /\
    reset b' = reset b /\
    world e' = w3 /\
    sent e e' = [GET (name b); INCRBY (name b) amount; PEXPIRE (name b) (expiry_of b)].
Proof.
  intros Hcap Hget Hc0 Herr0 Hfit Hincr Hcount -> Hexp.
  pose proof (Uint64_is_uint _ _ Hcount) as Hamount.
  rewrite (Add_read amount b e r0 w1 c0 err0 Hcap Hget Hc0 Herr0).
  erewrite Add_checked_increment; [| exact Hfit | exact Hincr]. unfold Add_incremented.
  rewrite Hcount, (to_uint_small amount Hamount), Z.eqb_refl.
  erewrite run_DoContext by exact Hexp.
  eexists _, _, _. split; [reflexivity |]. simpl.
  repeat split. apply sent_app. simpl. rewrite <- !app_assoc. reflexivity.
Qed.

(** *** Witness for C9: the first [Add] on an empty store whose
    set-expiry command fails *)

Lemma Add_expiry_failure_witness :
  exists b' st e',
    @Add store (served expire_down) 3 idle (start (empty_store five_seconds))
      = (Returned (b', (st, Some (ConnError "i/o timeout"))), e') /\
    leakybucket.Remaining st = 10 /\
    (value <$> db (world e') !! "k") = Some 3.
Proof.
  destruct (@Add_expiry_failure store (served expire_down) 3 idle
              (start (empty_store five_seconds))
              (RNil, None) (RInt 3, None) RNil
              (tick (empty_store five_seconds))
              (with_db (tick (tick (empty_store five_seconds)))
                       {[ "k" := {| value := 3; deadline := None |} ]})
              (with_db (tick (tick (tick (empty_store five_seconds))))
                       {[ "k" := {| value := 3; deadline := None |} ]})
              0 (Some redis.ErrNil) 3 (ConnError "i/o timeout")
              ten_is_uint eq_refl eq_refl (or_intror eq_refl))
    as (b' & st & e' & Hrun & _ & _ & Hrem & _ & Hworld & _);
    [vm_compute; discriminate | reflexivity | reflexivity | reflexivity | reflexivity |].
  exists b', st, e'. split; [exact Hrun |]. split; [exact Hrem |].
  rewrite Hworld. reflexivity.
Defined.

(** ** The expiry of the key *)

Lemma expiry_of_quot (b : bucket) :
  is_int64 (rate b) -> expiry_of b = Z.quot (rate b) millisecond.
Proof.
  intros Hrate. unfold expiry_of, time.Nanoseconds. apply to_int64_small.
  unfold is_int64, int64_min, int64_max, millisecond, time.Millisecond in *.
  pose proof (Z.quot_rem' (rate b) 1000000) as Hqr.
  destruct (Z.le_gt_cases 0 (rate b)) as [Hpos | Hneg].
  - pose proof (Z.rem_bound_pos (rate b) 1000000 Hpos ltac:(lia)). lia.
  - pose proof (Z.rem_bound_pos (- rate b) 1000000 ltac:(lia) ltac:(lia)) as Hr.
    rewrite Z.rem_opp_l in Hr by lia. lia.
Qed.

(** C6, as the code has it.  After a successful increment whose total
    equals the amount, [Add] sends exactly one set-expiry command, for the
    key of the bucket, with the window duration in whole milliseconds
    ([rate] divided by a millisecond, rounded toward zero): the window
    itself when it is a whole number of milliseconds, less than a
    millisecond short of it otherwise.  When the total differs from the
    amount no set-expiry command is sent.  In both cases the increment by
    the amount is the only increment sent. *)
Theorem Add_expiry_in_milliseconds {W : Type} `{World W}
        (amount : Z) (b : bucket) (e : env W)
        (r0 r1 : reply * option error) (w1 w2 : W)
        (c0 : Z) (err0 : option error) (count : Z) :
  is_uint (capacity b) ->
  conn_DoContext (GET (name b)) (world e) = (r0, w1) ->
  redis.Uint64 r0 = (c0, err0) ->
  err0 = None \/ err0 = Some redis.ErrNil ->
  amount <= capacity b - min c0 (capacity b) ->
  conn_DoContext (INCRBY (name b) amount) w1 = (r1, w2) ->
  redis.Uint64 r1 = (count, None) ->
  increments (sent e (snd (Add amount b e))) = [(name b, amount)] /\
  (count = amount ->
     expiries (sent e (snd (Add amount b e))) = [(name b, expiry_of b)]) /\
  (count <> amount ->
     expiries (sent e (snd (Add amount b e))) = []) /\
  (is_int64 (rate b) -> expiry_of b = Z.quot (rate b) millisecond) /\
  (is_int64 (rate b) -> 0 <= rate b ->
     expiry_of b * time.Millisecond <= rate b < (expiry_of b + 1) * time.Millisecond) /\
  (is_int64 (rate b) -> Z.rem (rate b) time.Millisecond = 0 ->
     expiry_of b * time.Millisecond = rate b).
Proof.
  intros Hcap Hget Hc0 Herr0 Hfit Hincr Hcount.
  pose proof (Uint64_is_uint _ _ Hcount) as Hc.
  assert (Hsent : exists l,
    (l = [] \/ l = [PTTL (name b)]) /\
    ((count = amount /\
      sent e (snd (Add amount b e)) =
        [GET (name b); INCRBY (name b) amount; PEXPIRE (name b) (expiry_of b)] ++ l) \/
     (count <> amount /\
      sent e (snd (Add amount b e)) = [GET (name b); INCRBY (name b) amount] ++ l))).
  { rewrite (Add_read amount b e r0 w1 c0 err0 Hcap Hget Hc0 Herr0).
    erewrite Add_checked_increment; [| exact Hfit | exact Hincr]. unfold Add_incremented.
    rewrite Hcount, (to_uint_small count Hc).
    destruct (Z.eqb_spec count amount) as [Heq | Hne].
    - destruct (conn_DoContext (PEXPIRE (name (after_read b c0)) (expiry_of (after_read b c0))) w2)
        as [[r2 [x |]] w3] eqn:Hexp; erewrite run_DoContext by exact Hexp.
      + exists []. split; [left; reflexivity |]. left. split; [exact Heq |].
        apply sent_app. simpl. rewrite <- !app_assoc. reflexivity.
      + cbv beta iota.
        match goal with |- context [Add_finish count ?b1 ?e1] =>
          destruct (Add_finish_spec count b1 e1 Hcap Hc) as (out & e' & l & -> & Hl & Hcmd & _)
        end.
        exists l. split; [exact Hcmd |]. left. split; [exact Heq |].
        apply sent_app. simpl. rewrite Hl. simpl. rewrite <- !app_assoc. reflexivity.
    - match goal with |- context [Add_finish count ?b1 ?e1] =>
        destruct (Add_finish_spec count b1 e1 Hcap Hc) as (out & e' & l & -> & Hl & Hcmd & _)
      end.
      exists l. split; [exact Hcmd |]. right. split; [exact Hne |].
      apply sent_app. simpl. rewrite Hl. simpl. rewrite <- !app_assoc. reflexivity. }
  destruct Hsent as (l & Hl & Hcases).
  split; [| split; [| split; [| split; [| split]]]].
  - destruct Hcases as [[_ ->] | [_ ->]]; destruct Hl as [-> | ->]; reflexivity.
  - intros Heq. destruct Hcases as [[_ ->] | [Hne _]]; [| contradiction].
    destruct Hl as [-> | ->]; reflexivity.
  - intros Hne. destruct Hcases as [[Heq _] | [_ ->]]; [contradiction |].
    destruct Hl as [-> | ->]; reflexivity.
  - apply expiry_of_quot.
  - intros Hrate Hpos. rewrite (expiry_of_quot b Hrate).
    unfold millisecond, time.Millisecond.
    pose proof (Z.quot_rem' (rate b) 1000000).
    pose proof (Z.rem_bound_pos (rate b) 1000000 Hpos ltac:(lia)). lia.
  - intros Hrate Hrem. rewrite (expiry_of_quot b Hrate).
    unfold millisecond, time.Millisecond in *.
    pose proof (Z.quot_rem' (rate b) 1000000). lia.
Qed.

(** *** Witness for C6: the first [Add] of a one-second window *)

Lemma Add_expiry_in_milliseconds_witness :
  expiries (sent (start (empty_store five_seconds))
              (snd (@Add store (served healthy) 3 idle (start (empty_store five_seconds)))))
    = [("k", 1000)] /\
  expiry_of idle * time.Millisecond = rate idle.
Proof.
  destruct (@Add_expiry_in_milliseconds store (served healthy) 3 idle
              (start (empty_store five_seconds))
              (RNil, None) (RInt 3, None)
              (tick (empty_store five_seconds))
              (with_db (tick (tick (empty_store five_seconds)))
                       {[ "k" := {| value := 3; deadline := None |} ]})
              0 (Some redis.ErrNil) 3
              ten_is_uint eq_refl eq_refl (or_intror eq_refl))
    as (_ & Hset & _ & _ & _ & Hexact);
    [vm_compute; discriminate | reflexivity | reflexivity |].
  split.
  - rewrite (Hset eq_refl). reflexivity.
  - apply Hexact; [vm_compute; split; discriminate | reflexivity].
Defined.

(** The claim as the spec words it fails for a window that is not a whole
    number of milliseconds: with a window of 1.5 ms the first [Add] asks
    for an expiry of 1 ms, and that is the lifetime the store gives the
    key. *)
Lemma expiry_truncates_the_window :
  expiries (sent (start (empty_store five_seconds))
              (snd (@Add store (served healthy) 3 odd_window
                      (start (empty_store five_seconds)))))
    = [("k", 1)] /\
  1 * time.Millisecond <> rate odd_window /\
  (deadline <$>
     db (world (snd (@Add store (served healthy) 3 odd_window
                       (start (empty_store five_seconds))))) !! "k")
    = Some (Some (5000 + 1)).
Proof.
  split; [reflexivity |]. split; [vm_compute; discriminate | reflexivity].
Qed.

(** ** Failures of the refresh *)

(** C8. In a world where the time-to-live query fails, the refresh hands
    the bucket back as it was (the error goes to its caller, the reset
    keeps its value), and [Add] drops that error: what [Add] returns, the
    bucket it leaves and its error included, is what it returns with the
    refresh skipped.  [Create] does not call the refresh. *)
Theorem refresh_failure_is_swallowed {W : Type} `{World W} :
  (forall (k : string) (w : W),
      exists r err w', conn_DoContext (PTTL k) w = ((r, Some err), w')) ->
  (forall (b : bucket) (e : env W),
      exists oerr e', updateOldReset b e = (Returned (b, oerr), e')) /\
  (forall (amount : Z) (b : bucket) (e : env W),
      fst (Add amount b e) = fst (Add_refresh_skipped amount b e)).
Proof.
  intros Hdown.
  assert (Hswallow : forall (b : bucket) (e : env W),
             exists oerr e', updateOldReset b e = (Returned (b, oerr), e')).
  { intros b e. destruct (clock_Now (world e)) as [now w1] eqn:Hnow.
    destruct (Z.le_gt_cases (time.Unix (reset b)) (time.Unix now)) as [Hle | Hgt].
    - destruct (Hdown (name b) w1) as (r & err & w2 & Httl).
      eexists _, _. apply (updateOldReset_failed b e now w1 w2 r err Hnow Hle Httl).
    - eexists _, _. apply (updateOldReset_fresh b e now w1 Hnow). lia. }
  split; [exact Hswallow |].
  intros amount b e. unfold Add, Add_refresh_skipped.
  destruct (conn_DoContext (GET (name b)) (world e)) as [r w1] eqn:Hget.
  rewrite !(run_DoContext _ _ _ _ _ Hget).
  destruct (redis.Uint64 r) as [c err].
  match goal with |- context [match ?read with inl _ => _ | inr _ => _ end] =>
    destruct read as [b1 | x]; [| reflexivity]
  end.
  destruct (amount >? remaining b1).
  { unfold bind at 1. destruct (Hswallow b1 {| world := w1; issued := issued e ++ [GET (name b)] |})
      as (oerr & e' & ->). reflexivity. }
  cbv zeta.
  destruct (conn_DoContext (INCRBY (name b1) amount) w1) as [r1 w2] eqn:Hincr.
  do 2 (erewrite run_DoContext by exact Hincr).
  destruct (redis.Uint64 r1) as [count [x |]]; [reflexivity |].
  assert (Hfinish : forall e1 : env W,
    fst (Add_finish count b1 e1)
    = Returned (set_remaining b1 (to_uint (capacity b1 - min (to_uint count) (capacity b1))),
                (State (set_remaining b1
                          (to_uint (capacity b1 - min (to_uint count) (capacity b1)))),
                 @None error))).
  { intros e1. unfold Add_finish, bind. destruct (Hswallow b1 e1) as (oerr & e' & ->).
    reflexivity. }
  destruct (to_uint count =? amount).
  - destruct (conn_DoContext
                (PEXPIRE (name b1)
                   (to_int64 (Z.quot (time.Nanoseconds (rate b1)) millisecond))) w2)
      as [[r2 [x |]] w3] eqn:Hexp; do 2 (erewrite run_DoContext by exact Hexp);
      [reflexivity | exact (Hfinish _)].
  - exact (Hfinish _).
Qed.

(** *** Witness for C8: a stale reset and a time-to-live query that times
    out *)

Lemma refresh_failure_is_swallowed_witness :
  fst (@Add store (served ttl_down) 3 (set_reset idle time.Second)
         (start (empty_store five_seconds)))
    = Returned (set_remaining (set_reset idle time.Second) 7,
                (State (set_remaining (set_reset idle time.Second) 7), None)) /\
  sent (start (empty_store five_seconds))
       (snd (@Add store (served ttl_down) 3 (set_reset idle time.Second)
               (start (empty_store five_seconds))))
    = [GET "k"; INCRBY "k" 3; PEXPIRE "k" 1000; PTTL "k"].
Proof.
  destruct (@refresh_failure_is_swallowed store (served ttl_down)) as [_ Hsame].
  - intros k w. eexists _, _, _. reflexivity.
  - split; [rewrite Hsame |]; reflexivity.
Defined.

(** ** The cached remaining *)

(** Every path of [Create], at once. *)
Lemma Create_cases {W : Type} `{World W}
      (nm : string) (cap : Z) (rt : time.Duration) (e : env W) :
  is_uint cap ->
  exists (out : outcome (option bucket * option error)) (e' : env W) (l : list command),
    Create nm cap rt e = (out, e') /\
    issued e' = issued e ++ l /\
    (l = [GET nm] \/ l = [GET nm; PTTL nm]) /\
    forall b err, out = Returned (Some b, err) ->
      err = None /\ name b = nm /\ capacity b = cap /\ rate b = rt /\
      exists count, is_uint count /\ remaining b = cap - min count cap.
Proof.
  intros Hcap. unfold Create.
  destruct (conn_DoContext (GET nm) (world e)) as [r w1] eqn:Hget.
  erewrite run_DoContext by exact Hget.
  destruct (redis.Uint64 r) as [c [x |]] eqn:Hcount.
  - destruct (decide (x = redis.ErrNil)) as [-> | Hx].
    + destruct (clock_Now w1) as [now w2] eqn:Hnow. erewrite run_Now by exact Hnow.
      eexists _, _, [_]. split; [reflexivity |]. split; [reflexivity |].
      split; [left; reflexivity |].
      intros b err [= <- <-]. simpl. repeat split. exists 0. split.
      * unfold is_uint, uint_max, uint_bits. lia.
      * destruct (min_spec 0 cap) as [[? ->] | [? ->]]; unfold is_uint in Hcap; lia.
    + eexists _, _, [_]. split; [reflexivity |]. split; [reflexivity |].
      split; [left; reflexivity | discriminate].
  - pose proof (Uint64_is_uint _ _ Hcount) as Hc.
    destruct (conn_DoContext (PTTL nm) w1) as [r2 w2] eqn:Httl.
    erewrite run_DoContext by exact Httl.
    destruct (redis.Int64 r2) as [ttl [x |]].
    + eexists _, _, [_; _]. split; [reflexivity |].
      split; [simpl; rewrite <- app_assoc; reflexivity |].
      split; [right; reflexivity | discriminate].
    + destruct (clock_Now w2) as [now w3] eqn:Hnow. erewrite run_Now by exact Hnow.
      eexists _, _, [_; _]. split; [reflexivity |].
      split; [simpl; rewrite <- app_assoc; reflexivity |].
      split; [right; reflexivity |].
      intros b err [= <- <-]. simpl. repeat split. exists c. split; [exact Hc |].
      rewrite (to_uint_small c Hc).
      assert (Hmin : min cap c = min c cap).
      { destruct (min_spec cap c) as [[? ->] | [? ->]];
          destruct (min_spec c cap) as [[? ->] | [? ->]]; lia. }
      rewrite Hmin. apply clip_exact; [exact Hcap | unfold is_uint in Hc; lia].
Qed.

(** The sequences of commands of [Add] from the admission check on. *)
Lemma Add_checked_shapes {W : Type} `{World W} (amount : Z) (b : bucket) (e : env W) :
  is_uint (capacity b) ->
  exists l,
    issued (snd (Add_checked amount b e)) = issued e ++ l /\
    (l = [] \/ l = [PTTL (name b)] \/
     l = [INCRBY (name b) amount] \/
     l = [INCRBY (name b) amount; PTTL (name b)] \/
     l = [INCRBY (name b) amount; PEXPIRE (name b) (expiry_of b)] \/
     l = [INCRBY (name b) amount; PEXPIRE (name b) (expiry_of b); PTTL (name b)]).
Proof.
  intros Hcap. destruct (Z.le_gt_cases amount (remaining b)) as [Hfit | Hover].
  2:{ destruct (Add_checked_full amount b e) as (out & e' & l & -> & Hl & Hcmd & _);
        [lia |].
      exists l. split; [exact Hl |]. destruct Hcmd as [-> | ->]; auto. }
  destruct (conn_DoContext (INCRBY (name b) amount) (world e)) as [r w] eqn:Hincr.
  rewrite (Add_checked_increment amount b e r w Hfit Hincr). unfold Add_incremented.
  destruct (redis.Uint64 r) as [count [x |]] eqn:Hcount.
  { exists [INCRBY (name b) amount]. split; [reflexivity | auto]. }
  pose proof (Uint64_is_uint _ _ Hcount) as Hc.
  destruct (to_uint count =? amount).
  - destruct (conn_DoContext (PEXPIRE (name b) (expiry_of b)) w) as [[r2 [x |]] w3] eqn:Hexp;
      erewrite run_DoContext by exact Hexp.
    + eexists. split; [simpl; rewrite <- app_assoc; reflexivity | auto 10].
    + cbv beta iota.
      match goal with |- context [Add_finish count b ?e1] =>
        destruct (Add_finish_spec count b e1 Hcap Hc) as (out & e' & l & -> & Hl & Hcmd & _)
      end.
      exists ([INCRBY (name b) amount; PEXPIRE (name b) (expiry_of b)] ++ l). split.
      * simpl. rewrite Hl. simpl. rewrite <- !app_assoc. reflexivity.
      * destruct Hcmd as [-> | ->]; simpl; auto 10.
  - match goal with |- context [Add_finish count b ?e1] =>
      destruct (Add_finish_spec count b e1 Hcap Hc) as (out & e' & l & -> & Hl & Hcmd & _)
    end.
    exists ([INCRBY (name b) amount] ++ l). split.
    + simpl. rewrite Hl. simpl. rewrite <- !app_assoc. reflexivity.
    + destruct Hcmd as [-> | ->]; simpl; auto 10.
Qed.

(** The sequences of commands of a whole [Add]. *)
Lemma Add_shapes {W : Type} `{World W} (amount : Z) (b : bucket) (e : env W) :
  is_uint (capacity b) ->
  Add_shape amount b (sent e (snd (Add amount b e))).
Proof.
  intros Hcap.
  destruct (conn_DoContext (GET (name b)) (world e)) as [r w1] eqn:Hget.
  destruct (redis.Uint64 r) as [c err] eqn:Hcount.
  assert (Hread : (exists x, err = Some x /\ x <> redis.ErrNil) \/
                  (err = None \/ err = Some redis.ErrNil)).
  { destruct err as [x |]; [| auto].
    destruct (decide (x = redis.ErrNil)) as [-> | Hx]; [auto | eauto]. }
  destruct Hread as [(x & -> & Hx) | Herr].
  - rewrite (Add_read_failed amount b e r w1 c x Hget Hcount Hx). simpl.
    rewrite (sent_app _ _ [GET (name b)]) by reflexivity. unfold Add_shape. auto.
  - rewrite (Add_read amount b e r w1 c err Hcap Hget Hcount Herr).
    destruct (Add_checked_shapes amount (after_read b c)
                {| world := w1; issued := issued e ++ [GET (name b)] |} Hcap)
      as (l & Hl & Hcmd).
    rewrite (sent_app _ _ (GET (name b) :: l)).
    + unfold Add_shape. simpl in Hcmd.
      change (expiry_of (after_read b c)) with (expiry_of b) in Hcmd.
      destruct Hcmd as [-> | [-> | [-> | [-> | [-> | ->]]]]]; auto 10.
    + rewrite Hl. simpl. rewrite <- app_assoc. reflexivity.
Qed.

(** The remaining that [Create] caches is the capacity less the count of
    the lookup reply, clipped to the capacity; the count of a nil reply is
    zero. *)
Lemma Create_clips {W : Type} `{World W}
      (nm : string) (cap : Z) (rt : time.Duration) (e e' : env W)
      (b : bucket) (err : option error)
      (r : reply * option error) (w1 : W) (c : Z) (gerr : option error) :
  is_uint cap ->
  conn_DoContext (GET nm) (world e) = (r, w1) ->
  redis.Uint64 r = (c, gerr) ->
  Create nm cap rt e = (Returned (Some b, err), e') ->
  is_uint c /\ capacity b = cap /\ remaining b = cap - min c cap.
Proof.
  intros Hcap Hget Hcount. unfold Create.
  erewrite run_DoContext by exact Hget. rewrite Hcount.
  destruct gerr as [x |].
  - destruct (decide (x = redis.ErrNil)) as [-> | Hx]; [| discriminate].
    rewrite (Uint64_nil_zero _ _ Hcount).
    destruct (clock_Now w1) as [now w2] eqn:Hnow. erewrite run_Now by exact Hnow.
    intros [= <- _ _]. simpl. split; [unfold is_uint, uint_max, uint_bits; lia |].
    split; [reflexivity |].
    destruct (min_spec 0 cap) as [[? ->] | [? ->]]; unfold is_uint in Hcap; lia.
  - pose proof (Uint64_is_uint _ _ Hcount) as Hc.
    destruct (conn_DoContext (PTTL nm) w1) as [r2 w2] eqn:Httl.
    erewrite run_DoContext by exact Httl.
    destruct (redis.Int64 r2) as [ttl [x |]]; [discriminate |].
    destruct (clock_Now w2) as [now w3] eqn:Hnow. erewrite run_Now by exact Hnow.
    intros [= <- _ _]. simpl. split; [exact Hc |]. split; [reflexivity |].
    rewrite (to_uint_small c Hc).
    assert (Hmin : min cap c = min c cap).
    { destruct (min_spec cap c) as [[? ->] | [? ->]];
        destruct (min_spec c cap) as [[? ->] | [? ->]]; lia. }
    rewrite Hmin. apply clip_exact; [exact Hcap | unfold is_uint in Hc; lia].
Qed.

(** Once the increment has been answered: a successful [Add] leaves the
    capacity less the count of that answer, clipped to the capacity; a
    failing one leaves the remaining as the lookup set it. *)
Lemma Add_incremented_result {W : Type} `{World W}
      (amount : Z) (b b' : bucket) (r : reply * option error) (e e' : env W)
      (st : leakybucket.BucketState) (err : option error)
      (c2 : Z) (ierr : option error) :
  is_uint (capacity b) ->
  redis.Uint64 r = (c2, ierr) ->
  Add_incremented amount b r e = (Returned (b', (st, err)), e') ->
  (err = None -> ierr = None /\ remaining b' = capacity b - min c2 (capacity b)) /\
  (err <> None -> remaining b' = remaining b).
Proof.
  intros Hcap Hcount. unfold Add_incremented. rewrite Hcount.
  destruct ierr as [x |].
  { intros [= <- _ <- _]. split; [discriminate | reflexivity]. }
  pose proof (Uint64_is_uint _ _ Hcount) as Hc.
  assert (Hfin : forall e1 : env W,
            Add_finish c2 b e1 = (Returned (b', (st, err)), e') ->
            (err = None -> None = @None error /\
                           remaining b' = capacity b - min c2 (capacity b)) /\
            (err <> None -> remaining b' = remaining b)).
  { intros e1 Hrun.
    destruct (Add_finish_spec c2 b e1 Hcap Hc) as (out & e2 & l & Hrun' & _ & _ & Hb).
    rewrite Hrun in Hrun'. injection Hrun' as <- <-.
    destruct (Hb b' st err eq_refl) as (-> & _ & _ & _ & _ & Hrem).
    split; [intros _; split; [reflexivity | exact Hrem] | congruence]. }
  destruct (to_uint c2 =? amount); [| apply Hfin].
  destruct (conn_DoContext (PEXPIRE (name b)
              (to_int64 (Z.quot (time.Nanoseconds (rate b)) millisecond))) (world e))
    as [[r2 [x |]] w3] eqn:Hexp; erewrite run_DoContext by exact Hexp.
  - intros [= <- _ <- _]. split; [discriminate | reflexivity].
  - apply Hfin.
Qed.

(** C3. A bucket that [Create] returns, and the bucket that any returning
    [Add] leaves, has a remaining between zero and the capacity, whatever
    counts the store delivers.  The bound comes from clipping the count
    that the store has just delivered: [Create] caches the capacity less
    the count of its lookup reply clipped to the capacity (the count of a
    nil reply being zero); an [Add] that succeeds caches the capacity less
    the count of the reply to its increment, clipped; an [Add] that fails
    after its lookup caches the capacity less the count of the lookup
    reply, clipped; an [Add] whose lookup fails leaves the cached value.
    A count at or above the capacity gives zero.  The counter of the store
    is never clamped: the commands of an [Add] are one of six sequences
    whose only write to the counter is the increment by the amount, and
    [Create] sends the lookup, alone or followed by the time-to-live
    query, and nothing else. *)
Theorem remaining_within_capacity {W : Type} `{World W} :
  (forall (nm : string) (cap : Z) (rt : time.Duration) (e e' : env W)
          (b : bucket) (err : option error)
          (r : reply * option error) (w1 : W) (c : Z) (gerr : option error),
      is_uint cap ->
      conn_DoContext (GET nm) (world e) = (r, w1) ->
      redis.Uint64 r = (c, gerr) ->
      Create nm cap rt e = (Returned (Some b, err), e') ->
      capacity b = cap /\ 0 <= remaining b <= capacity b /\
      remaining b = cap - min c cap /\
      (cap <= c -> remaining b = 0) /\
      (c <= cap -> remaining b = cap - c))
  /\
  (forall (amount : Z) (b b' : bucket) (e e' : env W)
          (st : leakybucket.BucketState) (err : option error),
      is_uint (capacity b) ->
      0 <= remaining b <= capacity b ->
      Add amount b e = (Returned (b', (st, err)), e') ->
      capacity b' = capacity b /\
      0 <= remaining b' <= capacity b' /\
      leakybucket.Capacity st = capacity b' /\
      leakybucket.Remaining st = remaining b')
  /\
  (forall (amount : Z) (b b' : bucket) (e e' : env W)
          (st : leakybucket.BucketState) (err : option error)
          (r : reply * option error) (w1 : W) (c : Z) (gerr : option error),
      is_uint (capacity b) ->
      conn_DoContext (GET (name b)) (world e) = (r, w1) ->
      redis.Uint64 r = (c, gerr) ->
      Add amount b e = (Returned (b', (st, err)), e') ->
      (gerr = None \/ gerr = Some redis.ErrNil ->
         (err <> None -> remaining b' = capacity b - min c (capacity b)) /\
         (err = None ->
            exists (r2 : reply * option error) (w2 : W) (c2 : Z),
              conn_DoContext (INCRBY (name b) amount) w1 = (r2, w2) /\
              redis.Uint64 r2 = (c2, None) /\
              remaining b' = capacity b - min c2 (capacity b) /\
              (capacity b <= c2 -> remaining b' = 0) /\
              (c2 <= capacity b -> remaining b' = capacity b - c2))) /\
      (gerr <> None -> gerr <> Some redis.ErrNil ->
         err = gerr /\ remaining b' = remaining b))
  /\
  (forall (amount : Z) (b : bucket) (e : env W),
      is_uint (capacity b) ->
      Add_shape amount b (sent e (snd (Add amount b e))) /\
      Forall (Add_command amount b) (sent e (snd (Add amount b e))))
  /\
  (forall (nm : string) (cap : Z) (rt : time.Duration) (e : env W),
      is_uint cap ->
      (sent e (snd (Create nm cap rt e)) = [GET nm] \/
       sent e (snd (Create nm cap rt e)) = [GET nm; PTTL nm]) /\
      existsb mutating (sent e (snd (Create nm cap rt e))) = false).
Proof.
  split; [| split; [| split; [| split]]].
  - intros nm cap rt e e' b err r w1 c gerr Hcap Hget Hcount Hrun.
    destruct (Create_clips nm cap rt e e' b err r w1 c gerr Hcap Hget Hcount Hrun)
      as (Hc & Hcapb & Hrem).
    split; [exact Hcapb |]. rewrite Hrem, Hcapb.
    split; [apply clip_exact; [exact Hcap | unfold is_uint in Hc; lia] |].
    split; [reflexivity |].
    destruct (min_spec c cap) as [[? ->] | [? ->]]; split; lia.
  - intros amount b b' e e' st err Hcap Hinv Hrun.
    destruct (Add_cases amount b e Hcap) as (out & e1 & l & Hrun' & _ & _ & Hb).
    rewrite Hrun in Hrun'. injection Hrun' as <- <-.
    destruct (Hb b' st err eq_refl) as (-> & _ & Hc & _ & Hrem).
    split; [exact Hc |]. split; [| split; reflexivity]. rewrite Hc.
    destruct Hrem as [[-> _] | (count & Hcount & ->)]; [exact Hinv |].
    apply clip_exact; [exact Hcap | unfold is_uint in Hcount; lia].
  - intros amount b b' e e' st err r w1 c gerr Hcap Hget Hcount Hrun. split.
    + intros Hgerr.
      rewrite (Add_read amount b e r w1 c gerr Hcap Hget Hcount Hgerr) in Hrun.
      destruct (Z.le_gt_cases amount (remaining (after_read b c))) as [Hfit | Hover].
      * destruct (conn_DoContext (INCRBY (name b) amount) w1) as [r2 w2] eqn:Hincr.
        rewrite (Add_checked_increment amount (after_read b c)
                   {| world := w1; issued := issued e ++ [GET (name b)] |}
                   r2 w2 Hfit Hincr) in Hrun.
        destruct (redis.Uint64 r2) as [c2 ierr] eqn:Hcount2.
        destruct (Add_incremented_result amount (after_read b c) b' r2 _ e' st err c2 ierr
                    Hcap Hcount2 Hrun) as [Hok Hfail].
        split; [exact Hfail |].
        intros Herr. destruct (Hok Herr) as [-> Hrem].
        exists r2, w2, c2. split; [reflexivity |]. split; [exact Hcount2 |].
        simpl in Hrem. split; [exact Hrem |]. rewrite Hrem.
        destruct (min_spec c2 (capacity b)) as [[? ->] | [? ->]]; split; lia.
      * destruct (Add_checked_full amount (after_read b c)
                    {| world := w1; issued := issued e ++ [GET (name b)] |})
          as (out & e1 & l & Hrun' & _ & _ & _ & Hb); [lia |].
        rewrite Hrun in Hrun'. injection Hrun' as <- <-.
        destruct (Hb b' st err eq_refl) as (-> & _ & _ & _ & _ & Hrem).
        split; [intros _; exact Hrem | intros [=]].
    + intros Hsome Hnil. destruct gerr as [x |]; [| contradiction].
      assert (Hx : x <> redis.ErrNil) by congruence.
      rewrite (Add_read_failed amount b e r w1 c x Hget Hcount Hx) in Hrun.
      injection Hrun as <- _ <- _. split; reflexivity.
  - intros amount b e Hcap. split; [exact (Add_shapes amount b e Hcap) |].
    destruct (Add_cases amount b e Hcap) as (out & e1 & l & -> & Hl & Hcmd & _).
    simpl. rewrite (sent_app _ _ _ Hl). exact Hcmd.
  - intros nm cap rt e Hcap.
    destruct (Create_cases nm cap rt e Hcap) as (out & e1 & l & -> & Hl & Hcmd & _).
    simpl. rewrite (sent_app _ _ _ Hl). split; [exact Hcmd |].
    destruct Hcmd as [-> | ->]; reflexivity.
Qed.

(** *** Witness for C3: a counter of 15 against a capacity of 10 *)

Lemma remaining_within_capacity_witness :
  (exists b e',
      @Create store (served healthy) "k" 10 time.Second (start overfull)
        = (Returned (Some b, None), e') /\
      0 <= remaining b <= capacity b /\ remaining b = 0 /\
      sent (start overfull) e' = [GET "k"; PTTL "k"]) /\
  (exists b' st e',
      @Add store (served healthy) 0 clipped (start overfull)
        = (Returned (b', (st, None)), e') /\
      0 <= remaining b' <= capacity b' /\ remaining b' = 0 /\
      sent (start overfull) e' = [GET "k"; INCRBY "k" 0; PTTL "k"]).
Proof.
  destruct (@remaining_within_capacity store (served healthy))
    as (Hcreate & Hadd & Hclip & _ & _).
  split.
  - eexists _, _. split; [reflexivity |].
    destruct (Hcreate "k" 10 time.Second (start overfull) _ _ None
                (RBulk "15", None) (tick overfull) 15 None ten_is_uint
                eq_refl eq_refl eq_refl) as (_ & Hbound & _ & Hzero & _).
    split; [exact Hbound |]. split; [apply Hzero; lia | reflexivity].
  - assert (Hrun : exists b' st e',
              @Add store (served healthy) 0 clipped (start overfull)
                = (Returned (b', (st, None)), e') /\
              sent (start overfull) e' = [GET "k"; INCRBY "k" 0; PTTL "k"]).
    { eexists _, _, _. split; vm_compute; reflexivity. }
    destruct Hrun as (b' & st & e' & Hrun & Hsent).
    exists b', st, e'. split; [exact Hrun |].
    destruct (Hadd 0 clipped b' (start overfull) e' st None ten_is_uint
                ltac:(simpl; lia) Hrun) as (_ & Hbound & _).
    split; [exact Hbound |].
    destruct (Hclip 0 clipped b' (start overfull) e' st None
                (RBulk "15", None) (tick overfull) 15 None ten_is_uint
                eq_refl eq_refl Hrun) as [Hok _].
    destruct (Hok (or_introl eq_refl)) as [_ Hdone].
    destruct (Hdone eq_refl) as (r2 & w2 & c2 & Hincr & Hcount2 & _ & Hzero & _).
    split; [| exact Hsent].
    apply Hzero. vm_compute in Hincr. injection Hincr as <- _.
    vm_compute in Hcount2. injection Hcount2 as <-. simpl. lia.
Defined.

(** The counter above the capacity stays as it is: an admitted [Add] of
    zero reports a remaining of zero and the store still holds 15. *)
Example counter_above_capacity_kept :
  fst (@Add store (served healthy) 0 clipped (start overfull))
    = Returned (clipped, (State clipped, None)) /\
  (value <$> db (world (snd (@Add store (served healthy) 0 clipped (start overfull)))) !! "k")
    = Some 15.
Proof. split; reflexivity. Qed.

(** ** Properties that follow the structure of a computation *)

Section Structure.

Context {W : Type} `{World W}.

(** A relation on worlds that is reflexive and transitive, and that every
    reading of the clock and every command in [uses] respects. *)
Variable R : W -> W -> Prop.
Variable uses : command -> Prop.
Hypothesis R_refl : forall w, R w w.
Hypothesis R_trans : forall w1 w2 w3, R w1 w2 -> R w2 w3 -> R w1 w3.
Hypothesis R_DoContext : forall c w, uses c -> R w (snd (conn_DoContext c w)).
Hypothesis R_Now : forall w, R w (snd (clock_Now w)).

Lemma along_ret {A : Type} (a : A) : along R (ret a).
Proof. intros e. apply R_refl. Qed.

Lemma along_panic {A : Type} : along R (@panic W A).
Proof. intros e. apply R_refl. Qed.

Lemma along_DoContext (c : command) : uses c -> along R (DoContext c).
Proof.
  intros Hc e. unfold DoContext. pose proof (R_DoContext c (world e) Hc) as Hstep.
  destruct (conn_DoContext c (world e)). exact Hstep.
Qed.

Lemma along_Now : along R Now.
Proof.
  intros e. unfold Now. pose proof (R_Now (world e)) as Hstep.
  destruct (clock_Now (world e)). exact Hstep.
Qed.

Lemma along_bind {A B : Type} (m : M W A) (k : A -> M W B) :
  along R m -> (forall a, along R (k a)) -> along R (bind m k).
Proof.
  intros Hm Hk e. unfold bind. pose proof (Hm e) as He.
  destruct (m e) as [[a |] e1]; simpl in *; [| exact He].
  apply (R_trans _ _ _ He). apply Hk.
Qed.

Lemma along_updateOldReset (b : bucket) :
  uses (PTTL (name b)) -> along R (updateOldReset b).
Proof.
  intros Httl. unfold updateOldReset. apply along_bind; [apply along_Now |]. intros now.
  destruct (_ >? _); [apply along_ret |].
  apply along_bind; [apply along_DoContext, Httl |]. intros [r [x |]]; [apply along_ret |].
  apply along_bind; [apply along_Now |]. intros now'.
  destruct r; first [apply along_ret | apply along_panic].
Qed.

Lemma along_Add_finish (count : Z) (b : bucket) :
  uses (PTTL (name b)) -> along R (Add_finish count b).
Proof.
  intros Httl. unfold Add_finish. apply along_bind; [apply along_updateOldReset, Httl |].
  intros [b1 x]. apply along_ret.
Qed.

Lemma along_Add_incremented (amount : Z) (b : bucket) (r : reply * option error) :
  uses (PTTL (name b)) -> uses (PEXPIRE (name b) (expiry_of b)) ->
  along R (Add_incremented amount b r).
Proof.
  intros Httl Hexp. unfold Add_incremented.
  destruct (redis.Uint64 r) as [count [x |]]; [apply along_ret |].
  destruct (_ =? _); [| apply along_Add_finish, Httl].
  apply along_bind; [apply along_DoContext, Hexp |]. intros [r2 [x |]];
    [apply along_ret | apply along_Add_finish, Httl].
Qed.

Lemma along_Add_checked (amount : Z) (b : bucket) :
  uses (PTTL (name b)) -> uses (PEXPIRE (name b) (expiry_of b)) ->
  uses (INCRBY (name b) amount) ->
  along R (Add_checked amount b).
Proof.
  intros Httl Hexp Hincr. unfold Add_checked. destruct (_ >? _).
  - apply along_bind; [apply along_updateOldReset, Httl |]. intros [b1 x]. apply along_ret.
  - apply along_bind; [apply along_DoContext, Hincr |]. intros r.
    apply (along_Add_incremented amount b r Httl Hexp).
Qed.

Lemma along_Add (amount : Z) (b : bucket) :
  (forall c, Add_command amount b c -> uses c) ->
  along R (Add amount b).
Proof.
  intros Huses. unfold Add. apply along_bind.
  { apply along_DoContext, Huses. unfold Add_command. auto. }
  intros r. destruct (redis.Uint64 r) as [c err].
  match goal with |- context [match ?read with inl _ => _ | inr _ => _ end] =>
    assert (Hread : match read with inl b1 => name b1 = name b /\ rate b1 = rate b
                               | inr _ => True end)
      by (destruct err as [x |]; [destruct (decide (x = redis.ErrNil)) |];
          simpl; auto);
    destruct read as [b1 | x]; [| apply along_ret]
  end.
  destruct Hread as [Hn Hr].
  assert (Hexp : expiry_of b1 = expiry_of b) by (unfold expiry_of; rewrite Hr; reflexivity).
  apply (along_Add_checked amount b1); apply Huses; unfold Add_command;
    rewrite ?Hn, ?Hexp; auto 10.
Qed.

Lemma along_AddAll (amounts : list Z) (b : bucket) :
  (forall c, uses c) -> along R (AddAll amounts b).
Proof.
  intros Huses. revert b. induction amounts as [| amount rest IH]; intros b; simpl.
  - apply along_ret.
  - apply along_bind; [apply along_Add; auto |]. intros [b1 r].
    apply along_bind; [apply IH |]. intros [b2 rs]. apply along_ret.
Qed.

Lemma returns_ret {A : Type} (a : A) : returns (ret a).
Proof. intros e. eexists _, _. reflexivity. Qed.

Lemma returns_DoContext (c : command) : returns (DoContext c).
Proof.
  intros e. unfold DoContext. destruct (conn_DoContext c (world e)).
  eexists _, _. reflexivity.
Qed.

Lemma returns_bind {A B : Type} (m : M W A) (k : A -> M W B) :
  returns m -> (forall a, returns (k a)) -> returns (bind m k).
Proof.
  intros Hm Hk e. unfold bind. destruct (Hm e) as (a & e1 & ->). apply Hk.
Qed.

Lemma returns_updateOldReset (b : bucket) : ttl_typed W -> returns (updateOldReset b).
Proof.
  intros Htyped e. destruct (updateOldReset_returns b e Htyped) as (b' & err & e' & Hrun).
  eexists _, _. exact Hrun.
Qed.

Lemma returns_Add_finish (count : Z) (b : bucket) :
  ttl_typed W -> returns (Add_finish count b).
Proof.
  intros Htyped. unfold Add_finish.
  apply returns_bind; [apply returns_updateOldReset, Htyped |].
  intros [b1 x]. apply returns_ret.
Qed.

Lemma returns_Add_checked (amount : Z) (b : bucket) :
  ttl_typed W -> returns (Add_checked amount b).
Proof.
  intros Htyped. unfold Add_checked. destruct (_ >? _).
  - apply returns_bind; [apply returns_updateOldReset, Htyped |].
    intros [b1 x]. apply returns_ret.
  - apply returns_bind; [apply returns_DoContext |]. intros r. unfold Add_incremented.
    destruct (redis.Uint64 r) as [count [x |]]; [apply returns_ret |].
    destruct (_ =? _); [| apply returns_Add_finish, Htyped].
    apply returns_bind; [apply returns_DoContext |]. intros [r2 [x |]];
      [apply returns_ret | apply returns_Add_finish, Htyped].
Qed.

(** With integer time-to-live replies [Add] returns. *)
Lemma returns_Add (amount : Z) (b : bucket) : ttl_typed W -> returns (Add amount b).
Proof.
  intros Htyped. unfold Add. apply returns_bind; [apply returns_DoContext |].
  intros r. destruct (redis.Uint64 r) as [c err].
  match goal with |- context [match ?read with inl _ => _ | inr _ => _ end] =>
    destruct read as [b1 | x]; [| apply returns_ret]
  end.
  apply (returns_Add_checked amount b1 Htyped).
Qed.

End Structure.

(** ** The reference store within one window *)

Lemma purge_cases (k : string) (now_ms : Z) (s : store) :
  purge k now_ms s = s \/ expirations (purge k now_ms s) = S (expirations s).
Proof.
  unfold purge. destruct (db s !! k) as [en |]; [| left; reflexivity].
  destruct (expired now_ms en); [right; reflexivity | left; reflexivity].
Qed.

Lemma exec_grew (c : command) (now_ms : Z) (s : store) :
  grew s (snd (exec c now_ms s)).
Proof.
  unfold grew. destruct c as [k | k n | k ms | k]; simpl.
  - destruct (db s !! k); simpl; lia.
  - simpl. lia.
  - destruct (db s !! k); [destruct (ms <=? 0) |]; simpl; lia.
  - destruct (db s !! k) as [en |]; [destruct (deadline en) |]; simpl; lia.
Qed.

Lemma serve_grew (faults : command -> option error) (c : command) (s : store) :
  grew s (snd (serve faults c s)).
Proof.
  unfold serve, grew. destruct (faults c); [simpl; lia |].
  pose proof (exec_grew c (now_ns s / time.Millisecond)
                (purge (key_of c) (now_ns s / time.Millisecond) (tick s))) as Hexec.
  destruct (exec c _ _) as [r s']. unfold grew in Hexec. simpl in *.
  destruct (purge_cases (key_of c) (now_ns s / time.Millisecond) (tick s)) as [Hp | Hp];
    rewrite Hp in Hexec; simpl in Hexec; lia.
Qed.

(** A command during which nothing expired ran on the store as the clock
    tick left it. *)
Lemma serve_quiet (c : command) (s : store) :
  expirations (snd (serve healthy c s)) = expirations s ->
  serve healthy c s =
    ((fst (exec c (now_ns s / time.Millisecond) (tick s)), None),
     snd (exec c (now_ns s / time.Millisecond) (tick s))).
Proof.
  unfold serve. simpl.
  destruct (purge_cases (key_of c) (now_ns s / time.Millisecond) (tick s)) as [-> | Hp].
  - intros _. destruct (exec c _ _); reflexivity.
  - pose proof (exec_grew c (now_ns s / time.Millisecond)
                  (purge (key_of c) (now_ns s / time.Millisecond) (tick s))) as Hexec.
    destruct (exec c _ (purge _ _ _)) as [r s']. unfold grew in Hexec. simpl in *. lia.
Qed.

(** The lookup answers nil or the text of the counter it holds. *)
Lemma serve_GET_reply (k : string) (s : store) :
  exists r, fst (serve healthy (GET k) s) = (r, None) /\
            (r = RNil \/
             exists en, db s !! k = Some en /\ r = RBulk (strconv.FormatInt (value en))).
Proof.
  unfold serve, purge. simpl. destruct (db s !! k) as [en |] eqn:Hk; simpl.
  - destruct (expired _ en); simpl.
    + rewrite lookup_delete_eq. eexists. split; [reflexivity |]. left. reflexivity.
    + rewrite Hk. eexists. split; [reflexivity |]. right. exists en. split; reflexivity.
  - rewrite Hk. eexists. split; [reflexivity |]. left. reflexivity.
Qed.

Lemma kept_refl (k : string) (s : store) : kept k s s.
Proof. split; [unfold grew; lia | reflexivity]. Qed.

Lemma kept_trans (k : string) (s1 s2 s3 : store) :
  kept k s1 s2 -> kept k s2 s3 -> kept k s1 s3.
Proof.
  unfold kept, grew. intros [Hg1 Hk1] [Hg2 Hk2]. split; [lia |].
  intros Heq. rewrite Hk2, Hk1 by lia. reflexivity.
Qed.

Lemma kept_tick (k : string) (s : store) : kept k s (tick s).
Proof. split; [unfold grew; simpl; lia | reflexivity]. Qed.

Lemma kept_serve (k : string) (c : command) (s : store) :
  keeps_counter c -> kept k s (snd (serve healthy c s)).
Proof.
  intros Hc. split; [apply serve_grew |].
  intros Hquiet. pose proof (serve_quiet c s Hquiet) as Hserve.
  rewrite Hserve in Hquiet |- *. clear Hserve. revert Hquiet.
  unfold counter. destruct c as [k' | k' n | k' ms | k']; simpl in *; intros Hquiet.
  - destruct (db s !! k'); reflexivity.
  - contradiction.
  - destruct (db s !! k') as [en |] eqn:Hk'; [| reflexivity].
    destruct (ms <=? 0); simpl in *; [lia |].
    destruct (decide (k' = k)) as [-> | Hne].
    + rewrite lookup_insert_eq, Hk'. reflexivity.
    + rewrite lookup_insert_ne by exact Hne. reflexivity.
  - destruct (db s !! k') as [en |]; [destruct (deadline en) |]; reflexivity.
Qed.

(** The increment, when nothing expired, adds to the counter it found. *)
Lemma serve_INCRBY (k : string) (n : Z) (s : store) :
  exists v s1,
    serve healthy (INCRBY k n) s = ((RInt v, None), s1) /\
    grew s s1 /\
    (expirations s1 = expirations s ->
       v = default 0 (counter s k) + n /\ counter s1 k = Some v).
Proof.
  pose proof (serve_grew healthy (INCRBY k n) s) as Hgrew.
  destruct (serve healthy (INCRBY k n) s) as [[r x] s1] eqn:Hserve.
  assert (Hreply : exists v, r = RInt v /\ x = None).
  { revert Hserve. unfold serve. simpl. intros [= <- <- _]. eexists. split; reflexivity. }
  destruct Hreply as (v & -> & ->). exists v, s1. split; [reflexivity |].
  split; [exact Hgrew |]. intros Hquiet.
  assert (Hq : expirations (snd (serve healthy (INCRBY k n) s)) = expirations s)
    by (rewrite Hserve; exact Hquiet).
  rewrite (serve_quiet _ _ Hq) in Hserve. simpl in Hserve.
  injection Hserve as Hv Hs1. subst s1. unfold counter. simpl.
  rewrite lookup_insert_eq. simpl. rewrite <- Hv.
  split; [| reflexivity]. destruct (db s !! k); reflexivity.
Qed.

Lemma serve_healthy_ok (c : command) (s : store) :
  snd (fst (serve healthy c s)) = None.
Proof. unfold serve. simpl. destruct (exec c _ _). reflexivity. Qed.

Lemma grew_refl (s : store) : grew s s.
Proof. unfold grew. lia. Qed.

Lemma grew_trans (s1 s2 s3 : store) : grew s1 s2 -> grew s2 s3 -> grew s1 s3.
Proof. unfold grew. lia. Qed.

Lemma grew_tick (s : store) : grew s (tick s).
Proof. unfold grew. simpl. lia. Qed.

(** Expiries are only ever counted up: the store moves along [grew]
    whatever the code sends. *)
Ltac grew_along lemma :=
  apply (lemma store (served healthy) grew (fun _ => True));
  [ exact grew_refl | exact grew_trans
  | intros c w _; apply serve_grew | exact grew_tick | .. ];
  try exact I; try (intros; exact I).

Lemma along_grew_Add_incremented (amount : Z) (b : bucket) (r : reply * option error)
      (e : env store) :
  grew (world e) (world (snd (@Add_incremented store (served healthy) amount b r e))).
Proof. grew_along @along_Add_incremented. Qed.

Lemma along_grew_Add_checked (amount : Z) (b : bucket) (e : env store) :
  grew (world e) (world (snd (@Add_checked store (served healthy) amount b e))).
Proof. grew_along @along_Add_checked. Qed.

Lemma along_grew_Add (amount : Z) (b : bucket) (e : env store) :
  grew (world e) (world (snd (@Add store (served healthy) amount b e))).
Proof. grew_along @along_Add. Qed.

Lemma along_kept_Add_finish (count : Z) (b : bucket) (e : env store) :
  kept (name b) (world e)
       (world (snd (@Add_finish store (served healthy) count b e))).
Proof.
  apply (@along_Add_finish store (served healthy) (kept (name b)) keeps_counter).
  - apply kept_refl.
  - apply kept_trans.
  - intros c w Hc. apply kept_serve, Hc.
  - intros w. apply kept_tick.
  - exact I.
Qed.

(** The last step of [Add] on the reference store: when nothing expires,
    the remaining is the capacity less the new count and the counter is
    as the increment left it. *)
Lemma Add_finish_in_window (count : Z) (b b' : bucket) (e e' : env store)
      (st : leakybucket.BucketState) (err : option error) :
  is_uint (capacity b) -> 0 <= count <= capacity b ->
  @Add_finish store (served healthy) count b e = (Returned (b', (st, err)), e') ->
  grew (world e) (world e') /\
  (expirations (world e') = expirations (world e) ->
     err = None /\ st = State b' /\
     remaining b' = capacity b - count /\
     counter (world e') (name b) = counter (world e) (name b)).
Proof.
  intros Hcap Hcount Hrun.
  assert (Hc : is_uint count) by (unfold is_uint in *; lia).
  pose proof (along_kept_Add_finish count b e) as [Hgrew Hkept].
  rewrite Hrun in Hgrew, Hkept. simpl in Hgrew, Hkept.
  split; [exact Hgrew |]. intros Hquiet.
  destruct (@Add_finish_spec store (served healthy) count b e Hcap Hc)
    as (out & e1 & l & Hrun' & _ & _ & Hb).
  rewrite Hrun in Hrun'. injection Hrun' as <- <-.
  destruct (Hb b' st err eq_refl) as (-> & -> & _ & _ & _ & Hrem).
  split; [reflexivity |]. split; [reflexivity |]. split; [| exact (Hkept Hquiet)].
  rewrite Hrem. destruct (min_spec count (capacity b)) as [[? ->] | [? ->]]; lia.
Qed.

(** One [Add] on the reference store, the counter holding [sum] (zero when
    the key is absent): the call returns; and when nothing expired during
    the call it succeeded, the remaining is the capacity less the new
    total, and the counter holds the new total. *)
Lemma Add_in_window (amount : Z) (b : bucket) (e : env store) (sum : Z) :
  is_uint (capacity b) -> 0 <= amount -> 0 <= sum ->
  sum + amount <= capacity b ->
  default 0 (counter (world e) (name b)) = sum ->
  exists b' st err e',
    @Add store (served healthy) amount b e = (Returned (b', (st, err)), e') /\
    name b' = name b /\ capacity b' = capacity b /\ rate b' = rate b /\
    grew (world e) (world e') /\
    (expirations (world e') = expirations (world e) ->
       err = None /\ st = State b' /\
       remaining b' = capacity b - (sum + amount) /\
       counter (world e') (name b) = Some (sum + amount)).
Proof.
  intros Hcap Hamount Hsum Hfit Hheld.
  destruct (@returns_Add store (served healthy) amount b (served_ttl_typed healthy) e)
    as ([b' [st err]] & e' & Hrun).
  exists b', st, err, e'. split; [exact Hrun |].
  destruct (@Add_cases store (served healthy) amount b e Hcap)
    as (out & e1 & l & Hrun' & _ & _ & Hb).
  rewrite Hrun in Hrun'. injection Hrun' as <- <-.
  destruct (Hb b' st err eq_refl) as (_ & Hn & Hc & Hr & _). clear Hb.
  split; [exact Hn |]. split; [exact Hc |]. split; [exact Hr |].
  pose proof (along_grew_Add amount b e) as Hgrew. rewrite Hrun in Hgrew. simpl in Hgrew.
  split; [exact Hgrew |]. intros Hquiet.
  (* the lookup *)
  destruct (serve_GET_reply (name b) (world e)) as (r & Hreply & Hcases).
  destruct (serve healthy (GET (name b)) (world e)) as [r0 s1] eqn:Hget.
  simpl in Hreply. subst r0.
  assert (Hcount : exists c err0,
             redis.Uint64 (r, None) = (c, err0) /\
             (err0 = None \/ err0 = Some redis.ErrNil) /\
             0 <= c <= sum /\ (r <> RNil -> c = sum)).
  { destruct Hcases as [-> | (en & Hk & ->)].
    - exists 0, (Some redis.ErrNil). split; [reflexivity |]. split; [right; reflexivity |].
      split; [lia | congruence].
    - unfold counter in Hheld. rewrite Hk in Hheld. simpl in Hheld. rewrite Hheld.
      exists sum, None. simpl. split.
      + apply ParseUint_FormatInt. unfold is_uint in *. lia.
      + split; [left; reflexivity |]. split; [lia | reflexivity]. }
  destruct Hcount as (c & err0 & Hcount & Herr0 & Hc0 & Hcsum).
  rewrite (@Add_read store (served healthy) amount b e (r, None) s1 c err0
             Hcap Hget Hcount Herr0) in Hrun.
  pose proof (kept_serve (name b) (GET (name b)) (world e) I) as [Hg1 Hk1].
  rewrite Hget in Hg1, Hk1. simpl in Hg1, Hk1.
  pose proof (along_grew_Add_checked amount (after_read b c)
                {| world := s1; issued := issued e ++ [GET (name b)] |}) as Hg1'.
  rewrite Hrun in Hg1'. simpl in Hg1'.
  assert (Hq1 : expirations s1 = expirations (world e)) by (unfold grew in *; lia).
  assert (Hc_sum : c = sum).
  { destruct (decide (r = RNil)) as [-> | Hne]; [| exact (Hcsum Hne)].
    assert (Hq : expirations (snd (serve healthy (GET (name b)) (world e)))
                 = expirations (world e)) by (rewrite Hget; exact Hq1).
    pose proof (serve_quiet _ _ Hq) as Hexact. rewrite Hget in Hexact. simpl in Hexact.
    unfold counter in Hheld. destruct (db (world e) !! name b) as [en |].
    - discriminate Hexact.
    - simpl in Hheld. simpl in Hcount. injection Hcount as <- _. lia. }
  subst c. clear Hcsum Hc0.
  assert (Hmin : capacity b - min sum (capacity b) = capacity b - sum).
  { destruct (min_spec sum (capacity b)) as [[? ->] | [? ->]]; lia. }
  (* the increment *)
  destruct (serve_INCRBY (name b) amount s1) as (v & s2 & Hincr & Hg2 & Hq2).
  rewrite (@Add_checked_increment store (served healthy) amount (after_read b sum)
             {| world := s1; issued := issued e ++ [GET (name b)] |}
             (RInt v, None) s2) in Hrun;
    [| simpl; lia | exact Hincr].
  match type of Hrun with
  | Add_incremented ?a ?b1 ?r1 ?e2 = _ =>
      pose proof (along_grew_Add_incremented a b1 r1 e2) as Hg2'
  end.
  rewrite Hrun in Hg2'. simpl in Hg2'.
  assert (Hq2' : expirations s2 = expirations s1) by (unfold grew in *; lia).
  destruct (Hq2 Hq2') as [Hv Hcounter2].
  rewrite (Hk1 Hq1), Hheld in Hv. subst v.
  unfold Add_incremented in Hrun. unfold redis.Uint64 in Hrun.
  assert (Hlt : (sum + amount <? 0) = false) by (apply Z.ltb_ge; lia).
  rewrite Hlt in Hrun. cbv beta iota in Hrun.
  rewrite !(to_uint_small (sum + amount)) in Hrun by (unfold is_uint in *; lia).
  assert (Hfinish : exists e3 : env store,
             @Add_finish store (served healthy) (sum + amount) (after_read b sum) e3
               = (Returned (b', (st, err)), e') /\
             grew s2 (world e3) /\
             (expirations (world e3) = expirations s2 ->
                counter (world e3) (name b) = counter s2 (name b))).
  { destruct (sum + amount =? amount).
    - destruct (serve healthy (PEXPIRE (name b) (expiry_of (after_read b sum))) s2)
        as [[r2 x] s3] eqn:Hexp.
      pose proof (serve_healthy_ok (PEXPIRE (name b) (expiry_of (after_read b sum))) s2) as Hx.
      rewrite Hexp in Hx. simpl in Hx. subst x.
      erewrite run_DoContext in Hrun by exact Hexp.
      eexists. split; [exact Hrun |]. simpl.
      pose proof (kept_serve (name b) (PEXPIRE (name b) (expiry_of (after_read b sum))) s2 I)
        as Hkept.
      rewrite Hexp in Hkept. exact Hkept.
    - eexists. split; [exact Hrun |]. simpl. apply kept_refl. }
  destruct Hfinish as (e3 & Hfin & Hg3 & Hk3).
  destruct (Add_finish_in_window (sum + amount) (after_read b sum) b' e3 e' st err)
    as [Hg4 Hdone]; [exact Hcap | simpl; lia | exact Hfin |].
  assert (Hq3 : expirations (world e3) = expirations s2) by (unfold grew in *; lia).
  destruct Hdone as (-> & -> & Hrem & Hcounter); [unfold grew in *; lia |].
  split; [reflexivity |]. split; [reflexivity |]. split.
  - rewrite Hrem. reflexivity.
  - simpl in Hcounter. rewrite Hcounter, (Hk3 Hq3). exact Hcounter2.
Qed.

(** ** A sequence of calls on a fresh bucket *)

Lemma AddAll_length {W : Type} `{World W} (amounts : list Z) :
  forall (b b' : bucket) (e e' : env W)
         (rs : list (leakybucket.BucketState * option error)),
    AddAll amounts b e = (Returned (b', rs), e') -> length rs = length amounts.
Proof.
  induction amounts as [| amount rest IH]; intros b b' e e' rs; simpl.
  - intros [= _ <- _]. reflexivity.
  - unfold bind. destruct (Add amount b e) as [[[b1 r] |] e1]; [| discriminate].
    destruct (AddAll rest b1 e1) as [[[b2 rs2] |] e2] eqn:Hrest; [| discriminate].
    intros [= _ <- _]. simpl. f_equal. exact (IH _ _ _ _ _ Hrest).
Qed.

Lemma returns_AddAll {W : Type} `{World W} (amounts : list Z) :
  ttl_typed W -> forall b : bucket, returns (AddAll amounts b).
Proof.
  intros Htyped. induction amounts as [| amount rest IH]; intros b; simpl.
  - apply returns_ret.
  - apply returns_bind; [apply returns_Add, Htyped |]. intros [b1 r].
    apply returns_bind; [apply IH |]. intros [b2 rs]. apply returns_ret.
Qed.

Lemma along_grew_AddAll (amounts : list Z) (b : bucket) (e : env store) :
  grew (world e) (world (snd (@AddAll store (served healthy) amounts b e))).
Proof. grew_along @along_AddAll. Qed.

(** A sequence of calls during which nothing expired: every call
    succeeded and left the capacity less the running total. *)
Lemma AddAll_in_window (amounts : list Z) :
  forall (b b' : bucket) (e e' : env store) (sum : Z)
         (rs : list (leakybucket.BucketState * option error)),
    is_uint (capacity b) ->
    Forall (fun amount => 0 <= amount) amounts ->
    0 <= sum -> sum + total amounts <= capacity b ->
    default 0 (counter (world e) (name b)) = sum ->
    remaining b = capacity b - sum ->
    @AddAll store (served healthy) amounts b e = (Returned (b', rs), e') ->
    expirations (world e') = expirations (world e) ->
    Forall (fun r => snd r = None) rs /\
    map (fun r => leakybucket.Remaining (fst r)) rs = remainders (capacity b) sum amounts /\
    remaining b' = capacity b - (sum + total amounts).
Proof.
  induction amounts as [| amount rest IH];
    intros b b' e e' sum rs Hcap Hpos Hsum Hfit Hheld Hsync; simpl.
  - intros [= <- <- <-] _. split; [constructor |]. split; [reflexivity |].
    rewrite Hsync. lia.
  - apply Forall_cons in Hpos as [Hamount Hpos].
    assert (Hrest_pos : 0 <= total rest).
    { clear -Hpos. induction Hpos; simpl; lia. }
    destruct (Add_in_window amount b e sum Hcap Hamount Hsum ltac:(simpl in Hfit; lia) Hheld)
      as (b1 & st & err & e1 & Hadd & Hn & Hc & _ & Hg1 & Hstep).
    unfold bind. rewrite Hadd.
    pose proof (along_grew_AddAll rest b1 e1) as Hg2.
    destruct (@AddAll store (served healthy) rest b1 e1) as [[[b2 rs2] |] e2] eqn:Hrest;
      [| discriminate].
    simpl in Hg2. intros [= <- <- <-] Hquiet.
    assert (Hq1 : expirations (world e1) = expirations (world e))
      by (unfold grew in *; lia).
    destruct (Hstep Hq1) as (-> & -> & Hrem1 & Hcounter1).
    destruct (IH b1 b2 e1 e2 (sum + amount) rs2) as (Hok & Hrems & Hfinal);
      try assumption.
    + rewrite Hc. exact Hcap.
    + lia.
    + rewrite Hc. simpl in Hfit. lia.
    + rewrite Hn, Hcounter1. reflexivity.
    + rewrite Hc. exact Hrem1.
    + unfold grew in *. lia.
    + split; [constructor; [reflexivity | exact Hok] |]. split.
      * simpl. unfold Remaining. rewrite Hrem1. f_equal. rewrite Hrems, Hc. reflexivity.
      * rewrite Hfinal, Hc. simpl. lia.
Qed.

(** ** One window, by the clock *)

Lemma within_window_shorter (s : store) (from upto upto' : nat) (span : Z) :
  (upto' <= upto)%nat ->
  within_window s from upto span -> within_window s from upto' span.
Proof. intros Hle Hwin n m Hn Hnm Hm. apply Hwin; lia. Qed.

(** Readings that lie within a whole number of milliseconds, to the
    nanosecond, lie within as many milliseconds of the store's clock. *)
Lemma within_duration_window (s : store) (from upto : nat) (rt : time.Duration) :
  0 <= rt -> Z.rem rt millisecond = 0 ->
  within_duration s from upto rt ->
  within_window s from upto (Z.quot rt millisecond).
Proof.
  intros Hpos Hrem Hd n m Hn Hnm Hm. specialize (Hd n m Hn Hnm Hm).
  pose proof (Z.quot_rem' rt millisecond) as Hrt. rewrite Hrem in Hrt.
  set (q := Z.quot rt millisecond) in *. unfold millisecond, time.Millisecond in *.
  assert (Hle : wall s m / 1000000 <= (wall s n + q * 1000000) / 1000000)
    by (apply Z.div_le_mono; lia).
  rewrite Z.div_add in Hle by lia. lia.
Qed.

Lemma purge_clock (k : string) (now_ms : Z) (s : store) :
  wall (purge k now_ms s) = wall s /\ ticks (purge k now_ms s) = ticks s.
Proof.
  unfold purge. destruct (db s !! k) as [en |]; [| split; reflexivity].
  destruct (expired now_ms en); split; reflexivity.
Qed.

Lemma exec_clock (c : command) (now_ms : Z) (s : store) :
  wall (snd (exec c now_ms s)) = wall s /\ ticks (snd (exec c now_ms s)) = ticks s.
Proof.
  destruct c as [k | k n | k ms | k]; simpl.
  - destruct (db s !! k); split; reflexivity.
  - split; reflexivity.
  - destruct (db s !! k); [destruct (ms <=? 0) |]; split; reflexivity.
  - destruct (db s !! k) as [en |]; [destruct (deadline en) |]; split; reflexivity.
Qed.

(** Every command is one reading of the store's clock. *)
Lemma serve_clock (faults : command -> option error) (c : command) (s : store) :
  wall (snd (serve faults c s)) = wall s /\
  ticks (snd (serve faults c s)) = S (ticks s).
Proof.
  unfold serve. destruct (faults c); [split; reflexivity |].
  pose proof (exec_clock c (now_ns s / time.Millisecond)
                (purge (key_of c) (now_ns s / time.Millisecond) (tick s))) as [Hw Ht].
  destruct (purge_clock (key_of c) (now_ns s / time.Millisecond) (tick s)) as [Hw' Ht'].
  destruct (exec c _ _) as [r s']. simpl in *. rewrite Hw, Ht, Hw', Ht'.
  split; reflexivity.
Qed.

Lemma stays_dated_refl (k : string) (span : Z) (from : nat) (s : store) :
  stays_dated k span from s s.
Proof. split; [reflexivity |]. split; [lia |]. intros Hd _. split; [exact Hd | reflexivity]. Qed.

Lemma stays_dated_trans (k : string) (span : Z) (from : nat) (s1 s2 s3 : store) :
  stays_dated k span from s1 s2 -> stays_dated k span from s2 s3 ->
  stays_dated k span from s1 s3.
Proof.
  intros (Hw1 & Ht1 & H1) (Hw2 & Ht2 & H2).
  split; [congruence |]. split; [lia |]. intros Hd Hwin.
  destruct (H1 Hd) as [Hd2 He2].
  { apply (within_window_shorter s1 from (ticks s3)); [lia | exact Hwin]. }
  destruct (H2 Hd2) as [Hd3 He3].
  { unfold within_window in *. rewrite Hw1. exact Hwin. }
  split; [exact Hd3 | congruence].
Qed.

Lemma stays_dated_tick (k : string) (span : Z) (from : nat) (s : store) :
  stays_dated k span from s (tick s).
Proof.
  split; [reflexivity |]. split; [simpl; lia |]. intros [Hfrom Hd] _.
  split; [| reflexivity]. split; [simpl; lia |].
  intros en d Hk Hdl. destruct (Hd en d Hk Hdl) as (n & Hn & ->).
  exists n. split; [simpl; lia | reflexivity].
Qed.

(** A command of the bucket that the store serves within the window finds
    the key alive, and leaves it dated. *)
Lemma stays_dated_serve (k : string) (span : Z) (from : nat) (c : command) (s : store) :
  1 <= span -> window_command k span c ->
  stays_dated k span from s (snd (serve healthy c s)).
Proof.
  intros Hspan [Hkey Hms].
  destruct (serve_clock healthy c s) as [Hwall Hticks].
  split; [exact Hwall |]. split; [lia |].
  rewrite Hticks. intros [Hfrom Hd] Hwin.
  assert (Hpurge : purge k (now_ns s / time.Millisecond) (tick s) = tick s).
  { unfold purge. simpl. destruct (db s !! k) as [en |] eqn:Hk; [| reflexivity].
    unfold expired. destruct (deadline en) as [d |] eqn:Hdl; [| reflexivity].
    destruct (Hd en d eq_refl Hdl) as (n & Hn & ->).
    specialize (Hwin n (ticks s) ltac:(lia) ltac:(lia) ltac:(lia)).
    unfold now_ns. destruct (Z.ltb_spec (wall s n / time.Millisecond + span)
                               (wall s (ticks s) / time.Millisecond)); [lia | reflexivity]. }
  assert (Hkeep : dated k span from (tick s)).
  { split; [simpl; lia |]. intros en d Hk Hdl.
    destruct (Hd en d Hk Hdl) as (n & Hn & ->). exists n. split; [simpl; lia | reflexivity]. }
  unfold serve. simpl (healthy c). cbv beta iota. rewrite Hkey, Hpurge.
  destruct c as [k' | k' a | k' ms | k']; simpl in Hkey, Hms; subst k'; simpl.
  - destruct (db s !! k); simpl; split; [exact Hkeep | reflexivity | exact Hkeep | reflexivity].
  - split; [| reflexivity]. split; [simpl; lia |]. simpl.
    intros en d. rewrite lookup_insert_eq. intros [= <-].
    destruct (db s !! k) as [en0 |] eqn:Hk; simpl; [| discriminate].
    intros Hdl. destruct (Hd en0 d eq_refl Hdl) as (n & Hn & ->).
    exists n. split; [lia | reflexivity].
  - subst ms. destruct (db s !! k) as [en0 |] eqn:Hk; simpl;
      [| split; [exact Hkeep | reflexivity]].
    destruct (Z.leb_spec span 0); [lia |]. simpl. split; [| reflexivity].
    split; [simpl; lia |]. simpl. intros en d. rewrite lookup_insert_eq.
    intros [= <-]. simpl. intros [= <-].
    exists (ticks s). split; [lia | reflexivity].
  - destruct (db s !! k) as [en0 |]; [destruct (deadline en0) |]; simpl;
      split; first [exact Hkeep | reflexivity].
Qed.

(** One [Add] of the bucket keeps the key dated. *)
Lemma along_dated_Add (span : Z) (from : nat) (amount : Z) (b : bucket) (e : env store) :
  1 <= span -> expiry_of b = span ->
  stays_dated (name b) span from (world e)
    (world (snd (@Add store (served healthy) amount b e))).
Proof.
  intros Hspan Hexp.
  apply (@along_Add store (served healthy) (stays_dated (name b) span from)
           (window_command (name b) span)).
  - apply stays_dated_refl.
  - apply stays_dated_trans.
  - intros c w Hc. apply stays_dated_serve; assumption.
  - intros w. apply stays_dated_tick.
  - intros c [-> | [-> | [-> | ->]]]; split; simpl; auto.
Qed.

(** A sequence of [Add] calls keeps the key dated. *)
Lemma along_dated_AddAll (span : Z) (from : nat) (amounts : list Z) :
  forall (b : bucket) (e : env store),
    is_uint (capacity b) -> 1 <= span -> expiry_of b = span ->
    stays_dated (name b) span from (world e)
      (world (snd (@AddAll store (served healthy) amounts b e))).
Proof.
  induction amounts as [| amount rest IH]; intros b e Hcap Hspan Hexp; simpl.
  - apply stays_dated_refl.
  - pose proof (along_dated_Add span from amount b e Hspan Hexp) as Hadd.
    destruct (@Add_cases store (served healthy) amount b e Hcap)
      as (out & e1 & l & Hrun & _ & _ & Hb).
    unfold bind. rewrite Hrun in Hadd |- *. simpl in Hadd.
    destruct out as [[b1 [st err]] |]; [| exact Hadd].
    destruct (Hb b1 st err eq_refl) as (_ & Hn & Hc & Hr & _).
    assert (Hexp1 : expiry_of b1 = span) by (unfold expiry_of in *; rewrite Hr; exact Hexp).
    pose proof (IH b1 e1 ltac:(rewrite Hc; exact Hcap) Hspan Hexp1) as Hrest.
    rewrite Hn in Hrest.
    destruct (@AddAll store (served healthy) rest b1 e1) as [[[b2 rs] |] e2]; simpl in *;
      exact (stays_dated_trans _ _ _ _ _ _ Hadd Hrest).
Qed.

(** A window of at least one millisecond is handed to the store as at
    least one millisecond. *)
Lemma expiry_of_window (b : bucket) :
  millisecond <= rate b -> is_int64 (rate b) ->
  expiry_of b = Z.quot (rate b) millisecond /\
  1 <= Z.quot (rate b) millisecond.
Proof.
  intros Hms Hrt. split; [exact (expiry_of_quot b Hrt) |].
  unfold millisecond, time.Millisecond in *. rewrite Z.quot_div_nonneg by lia.
  apply Z.div_le_lower_bound; lia.
Qed.

(** [Create] keeps the key dated: it sends the lookup and the
    time-to-live query. *)
Lemma along_dated_Create (span : Z) (from : nat)
      (nm : string) (cap : Z) (rt : time.Duration) (e : env store) :
  1 <= span ->
  stays_dated nm span from (world e)
    (world (snd (@Create store (served healthy) nm cap rt e))).
Proof.
  intros Hspan.
  assert (Hdo : forall c, window_command nm span c ->
                  @along store (served healthy) (stays_dated nm span from) _
                    (@DoContext store (served healthy) c)).
  { intros c Hc.
    apply (@along_DoContext store (served healthy) (stays_dated nm span from)
             (window_command nm span)); [| exact Hc].
    intros c' w Hc'. apply stays_dated_serve; assumption. }
  assert (Hnow : @along store (served healthy) (stays_dated nm span from) _
                   (@Now store (served healthy))).
  { apply (@along_Now store (served healthy) (stays_dated nm span from)).
    intros w. apply stays_dated_tick. }
  assert (Hret : forall (A : Type) (a : A),
             @along store (served healthy) (stays_dated nm span from) _ (@ret store A a)).
  { intros A a. apply (@along_ret store (served healthy) (stays_dated nm span from)).
    apply stays_dated_refl. }
  assert (Hbind := @along_bind store (served healthy) (stays_dated nm span from)
                     (stays_dated_trans nm span from)).
  revert e.
  change (@along store (served healthy) (stays_dated nm span from) _
            (@Create store (served healthy) nm cap rt)).
  unfold Create. apply Hbind; [apply Hdo; split; [reflexivity | exact I] |].
  intros r. destruct (redis.Uint64 r) as [c [x |]].
  - destruct (decide (x = redis.ErrNil)); [| apply Hret].
    apply Hbind; [exact Hnow |]. intros now. apply Hret.
  - apply Hbind; [apply Hdo; split; [reflexivity | exact I] |].
    intros r2. destruct (redis.Int64 r2) as [ttl [x |]]; [apply Hret |].
    apply Hbind; [exact Hnow |]. intros now. apply Hret.
Qed.

(** The calls on a fresh bucket whose window is at least a millisecond:
    while the readings of the clock fall within one window nothing
    expires, and the key stays dated. *)
Lemma fresh_bucket_quiet (amounts : list Z) (b0 : bucket) (e0 : env store) :
  is_uint (capacity b0) -> millisecond <= rate b0 -> is_int64 (rate b0) ->
  db (world e0) !! name b0 = None ->
  within_window (world e0) (ticks (world e0))
    (ticks (world (snd (@AddAll store (served healthy) amounts b0 e0))))
    (Z.quot (rate b0) millisecond) ->
  dated (name b0) (Z.quot (rate b0) millisecond) (ticks (world e0))
    (world (snd (@AddAll store (served healthy) amounts b0 e0))) /\
  expirations (world (snd (@AddAll store (served healthy) amounts b0 e0)))
    = expirations (world e0).
Proof.
  intros Hcap Hms Hrt Habsent Hwin.
  destruct (expiry_of_window b0 Hms Hrt) as [Hexp Hspan].
  pose proof (along_dated_AddAll (Z.quot (rate b0) millisecond) (ticks (world e0))
                amounts b0 e0 Hcap Hspan Hexp) as (_ & _ & Hstep).
  apply Hstep; [| exact Hwin].
  split; [lia |]. intros en d Hk. congruence.
Qed.

(** A fresh bucket and a sequence of calls on it, while nothing expires:
    [Create] on an absent key returns a bucket, the calls return, and when
    the count of expiries has not moved every call was admitted. *)
Lemma fresh_bucket_until_expiry
      (nm : string) (cap : Z) (rt : time.Duration) (amounts : list Z) (s : store) :
  is_uint cap ->
  Forall (fun amount => 0 <= amount) amounts ->
  total amounts <= cap ->
  db s !! nm = None ->
  exists (b0 b : bucket) (e0 e' : env store)
         (rs : list (leakybucket.BucketState * option error)),
    @Create store (served healthy) nm cap rt (start s) = (Returned (Some b0, None), e0) /\
    @AddAll store (served healthy) amounts b0 e0 = (Returned (b, rs), e') /\
    length rs = length amounts /\
    name b0 = nm /\ capacity b0 = cap /\ rate b0 = rt /\
    world e0 = tick (tick s) /\
    (expirations (world e') = expirations s -> all_admitted cap amounts b rs).
Proof.
  intros Hcap Hpos Hfit Habsent.
  assert (Hget : serve healthy (GET nm) s = ((RNil, None), tick s)).
  { unfold serve, purge. simpl. rewrite Habsent. simpl. rewrite Habsent. reflexivity. }
  pose proof (@Create_absent_run store (served healthy) nm cap rt (start s)
                (tick s) (tick (tick s)) (now_ns (tick s)) Hget eq_refl) as Hcreate.
  set (b0 := {| name := nm; capacity := cap; remaining := cap;
                reset := time.Add (now_ns (tick s)) rt; rate := rt |}) in *.
  set (e0 := {| world := tick (tick s); issued := issued (start s) ++ [GET nm] |}) in *.
  assert (Hb0 : b0 = {| name := nm; capacity := cap; remaining := cap;
                        reset := time.Add (now_ns (tick s)) rt; rate := rt |})
    by reflexivity.
  assert (Hworld : world e0 = tick (tick s)) by reflexivity.
  clearbody b0 e0.
  destruct (@returns_AddAll store (served healthy) amounts (served_ttl_typed healthy) b0 e0)
    as ([b rs] & e' & Hall).
  exists b0, b, e0, e', rs. split; [exact Hcreate |]. split; [exact Hall |].
  split; [exact (AddAll_length amounts _ _ _ _ _ Hall) |].
  assert (Hcap0 : capacity b0 = cap) by (rewrite Hb0; reflexivity).
  split; [rewrite Hb0; reflexivity |]. split; [exact Hcap0 |].
  split; [rewrite Hb0; reflexivity |]. split; [exact Hworld |].
  intros Hquiet.
  destruct (AddAll_in_window amounts b0 b e0 e' 0 rs) as (Hok & Hrems & Hfinal);
    try assumption.
  - rewrite Hcap0. exact Hcap.
  - lia.
  - rewrite Hcap0. lia.
  - rewrite Hworld, Hb0. unfold counter. simpl. rewrite Habsent. reflexivity.
  - rewrite Hb0. simpl. lia.
  - rewrite Hworld. simpl. exact Hquiet.
  - rewrite Hcap0 in Hrems, Hfinal. split; [exact Hok |]. split; [exact Hrems |].
    rewrite Hfinal. lia.
Qed.

(** C1, as the code has it.  On the reference store, from a state in which
    the key is absent, for a bucket whose window [rate] is at least one
    millisecond: [Create] returns a fresh bucket and every sequence of
    [Add] calls on it returns.  When the amounts sum to at most the
    capacity and the calls fall within one window as the store keeps it
    (from the first [Add] on, no reading of the store's clock is more
    than [rate] in whole milliseconds later, on the millisecond clock of
    the store, than an earlier one), every call succeeds, the call after
    the k-th amount returns the capacity less the sum of the first k
    amounts, and the remaining the bucket caches at the end is the
    capacity less the sum of all amounts.  For a window of a whole number
    of milliseconds it is enough that no reading is more than [rate]
    later than an earlier one. *)
Theorem fresh_bucket_consumption
        (nm : string) (cap : Z) (rt : time.Duration) (amounts : list Z) (s : store) :
  is_uint cap ->
  Forall (fun amount => 0 <= amount) amounts ->
  total amounts <= cap ->
  millisecond <= rt -> is_int64 rt ->
  db s !! nm = None ->
  exists (b0 b : bucket) (e0 e' : env store)
         (rs : list (leakybucket.BucketState * option error)),
    @Create store (served healthy) nm cap rt (start s) = (Returned (Some b0, None), e0) /\
    @AddAll store (served healthy) amounts b0 e0 = (Returned (b, rs), e') /\
    length rs = length amounts /\
    (within_window s (ticks (world e0)) (ticks (world e')) (Z.quot rt millisecond) ->
       all_admitted cap amounts b rs) /\
    (Z.rem rt millisecond = 0 ->
     within_duration s (ticks (world e0)) (ticks (world e')) rt ->
       all_admitted cap amounts b rs).
Proof.
  intros Hcap Hpos Hfit Hms Hrt Habsent.
  destruct (fresh_bucket_until_expiry nm cap rt amounts s Hcap Hpos Hfit Habsent)
    as (b0 & b & e0 & e' & rs & Hcreate & Hall & Hlen & Hn & Hc & Hr & Hworld & Hquiet).
  exists b0, b, e0, e', rs. split; [exact Hcreate |]. split; [exact Hall |].
  split; [exact Hlen |].
  assert (Hwindow : within_window s (ticks (world e0)) (ticks (world e'))
                      (Z.quot rt millisecond) ->
                    all_admitted cap amounts b rs).
  { intros Hwin. apply Hquiet.
    destruct (fresh_bucket_quiet amounts b0 e0) as [_ Heq].
    - rewrite Hc. exact Hcap.
    - rewrite Hr. exact Hms.
    - rewrite Hr. exact Hrt.
    - rewrite Hworld, Hn. exact Habsent.
    - rewrite Hall, Hr. simpl. intros n m Hfrom Hnm Hupto. rewrite Hworld. simpl.
      exact (Hwin n m Hfrom Hnm Hupto).
    - rewrite Hall in Heq. simpl in Heq. rewrite Heq, Hworld. reflexivity. }
  split; [exact Hwindow |].
  intros Hwhole Hdur. apply Hwindow.
  apply within_duration_window;
    [unfold millisecond, time.Millisecond in Hms; lia | exact Hwhole | exact Hdur].
Qed.

(** *** Witness for C1: capacity 10, a window of one second, amounts 4
    and 6, the clock a tenth of a second further at every reading *)

Lemma fresh_bucket_consumption_witness :
  exists b0 b e0 e' rs,
    @Create store (served healthy) "k" 10 time.Second (start (empty_store steady))
      = (Returned (Some b0, None), e0) /\
    @AddAll store (served healthy) [4; 6] b0 e0 = (Returned (b, rs), e') /\
    Forall (fun r => snd r = None) rs /\
    map (fun r => leakybucket.Remaining (fst r)) rs = [6; 0] /\
    remaining b = 0.
Proof.
  destruct (fresh_bucket_consumption "k" 10 time.Second [4; 6] (empty_store steady))
    as (b0 & b & e0 & e' & rs & Hcreate & Hall & _ & Hwindow & _).
  - exact ten_is_uint.
  - repeat constructor; lia.
  - simpl. lia.
  - unfold millisecond, time.Millisecond, time.Second. lia.
  - unfold is_int64, int64_min, int64_max, time.Second. lia.
  - reflexivity.
  - exists b0, b, e0, e', rs. split; [exact Hcreate |]. split; [exact Hall |].
    apply Hwindow.
    assert (Hticks : ticks (world e0) = 2%nat /\ ticks (world e') = 9%nat).
    { vm_compute in Hcreate. injection Hcreate as <- <-.
      vm_compute in Hall. injection Hall as _ _ <-. split; reflexivity. }
    destruct Hticks as [-> ->].
    intros n m Hfrom Hnm Hupto.
    unfold empty_store, wall, steady, millisecond, time.Second, time.Millisecond.
    rewrite !Z.mul_assoc, !Z.div_add_l by lia.
    change (Z.quot 1000000000 1000000) with 1000. lia.
Defined.

(** The claim as the specification words it, with the window the
    duration [rate], fails in two ways.  A window of half a millisecond
    reaches the store as an expiry of zero milliseconds, which removes the
    key at once: with every call at the same instant, [Add] 4 and [Add] 6
    on a fresh bucket of capacity 10 both succeed and the bucket is left
    with 4, not 0.  A window of a millisecond and a half reaches the store
    as one millisecond: with the second call 1.2 ms after the first, the
    key has expired in between and the bucket is again left with 4. *)
Lemma window_cut_short :
  (exists b0 b e0 e' rs,
     @Create store (served healthy) "k" 10 (500 * 1000) (start (empty_store five_seconds))
       = (Returned (Some b0, None), e0) /\
     @AddAll store (served healthy) [4; 6] b0 e0 = (Returned (b, rs), e') /\
     total [4; 6] <= 10 /\
     within_duration (empty_store five_seconds)
       (ticks (world e0)) (ticks (world e')) (500 * 1000) /\
     expiries (sent e0 e') = [("k", 0); ("k", 0)] /\
     Forall (fun r => snd r = None) rs /\
     remaining b = 4 /\
     ~ all_admitted 10 [4; 6] b rs)
  /\
  (exists b0 b e0 e' rs,
     @Create store (served healthy) "k" 10 (1500 * 1000) (start (empty_store late_call))
       = (Returned (Some b0, None), e0) /\
     @AddAll store (served healthy) [4; 6] b0 e0 = (Returned (b, rs), e') /\
     total [4; 6] <= 10 /\
     within_duration (empty_store late_call)
       (ticks (world e0)) (ticks (world e')) (1500 * 1000) /\
     expiries (sent e0 e') = [("k", 1); ("k", 1)] /\
     Forall (fun r => snd r = None) rs /\
     remaining b = 4 /\
     ~ all_admitted 10 [4; 6] b rs).
Proof.
  split.
  - eexists _, _, _, _, _. split; [vm_compute; reflexivity |].
    split; [vm_compute; reflexivity |]. split; [simpl; lia |].
    split; [intros n m _ _ _; simpl; unfold five_seconds; lia |].
    split; [vm_compute; reflexivity |].
    split; [repeat constructor |]. split; [reflexivity |].
    intros (_ & _ & Hrem). vm_compute in Hrem. discriminate Hrem.
  - eexists _, _, _, _, _. split; [vm_compute; reflexivity |].
    split; [vm_compute; reflexivity |]. split; [simpl; lia |].
    split.
    { intros n m _ _ _. simpl. unfold late_call, time.Second.
      destruct (n <=? 7)%nat, (m <=? 7)%nat; lia. }
    split; [vm_compute; reflexivity |].
    split; [repeat constructor |]. split; [reflexivity |].
    intros (_ & _ & Hrem). vm_compute in Hrem. discriminate Hrem.
Qed.

(** ** The scenarios of a bucket of capacity 10 with a window of one second *)

(** Create on an empty key, [Add] 4, then [Add] 7 is refused and [Add] 6
    leaves nothing. *)
Example scenario_fill :
  exists b0 e0,
    @Create store (served healthy) "k" 10 time.Second (start (empty_store five_seconds))
      = (Returned (Some b0, None), e0) /\
    exists b e' rs,
      @AddAll store (served healthy) [4; 7; 6] b0 e0 = (Returned (b, rs), e') /\
      map (fun r => (leakybucket.Remaining (fst r), snd r)) rs
        = [(6, None); (6, Some leakybucket.ErrorFull); (0, None)] /\
      sent e0 e' = [GET "k"; INCRBY "k" 4; PEXPIRE "k" 1000;
                    GET "k"; GET "k"; INCRBY "k" 6].
Proof.
  eexists _, _. split; [vm_compute; reflexivity |].
  eexists _, _, _. split; [vm_compute; reflexivity |]. split; vm_compute; reflexivity.
Qed.

(** Once the window has elapsed the key is gone, and an [Add] of 3 starts
    a new window: remaining 7, a new expiry of one second. *)
Example scenario_next_window :
  fst (@Add store (served healthy) 3 idle (start elapsed))
    = Returned (set_remaining idle 7, (State (set_remaining idle 7), None)) /\
  expiries (sent (start elapsed) (snd (@Add store (served healthy) 3 idle (start elapsed))))
    = [("k", 1000)] /\
  db (world (snd (@Add store (served healthy) 3 idle (start elapsed)))) !! "k"
    = Some {| value := 3; deadline := Some 6000 |}.
Proof. split; [reflexivity |]. split; reflexivity. Qed.

(** * Further properties of the calls *)

(** ** Failures of the store during [Add] *)

(** X1. When the counter lookup of [Add] fails with an error other than
    not-found (a failed connection, an error reply, a value that is not an
    unsigned number), [Add] returns that error with a snapshot of the
    bucket as it was: no field is written, and the lookup is the only
    command sent. *)
Theorem Add_lookup_failure {W : Type} `{World W}
        (amount : Z) (b : bucket) (e : env W)
        (r : reply * option error) (w1 : W) (c : Z) (err : error) :
  conn_DoContext (GET (name b)) (world e) = (r, w1) ->
  redis.Uint64 r = (c, Some err) ->
  err <> redis.ErrNil ->
  exists e' : env W,
    Add amount b e = (Returned (b, (State b, Some err)), e') /\
    world e' = w1 /\
    sent e e' = [GET (name b)].
Proof.
  intros Hget Hcount Herr. eexists. split.
  - exact (Add_read_failed amount b e r w1 c err Hget Hcount Herr).
  - split; [reflexivity |]. apply sent_app. reflexivity.
Qed.

(** *** Witness for X1: the lookup times out *)

Lemma Add_lookup_failure_witness :
  exists e',
    @Add store (served get_down) 3 idle (start four_used)
      = (Returned (idle, (State idle, Some (ConnError "i/o timeout"))), e') /\
    sent (start four_used) e' = [GET "k"].
Proof.
  destruct (@Add_lookup_failure store (served get_down) 3 idle (start four_used)
              (RNil, Some (ConnError "i/o timeout")) (tick four_used) 0
              (ConnError "i/o timeout") eq_refl eq_refl)
    as (e' & Hrun & _ & Hsent).
  - discriminate.
  - exists e'. split; [exact Hrun | exact Hsent].
Defined.

(** X2. When the amount is within the quota just read and the increment
    fails (the command fails, or its reply is not an unsigned number),
    [Add] returns that error with the remaining computed from the lookup;
    the reset is as cached, and neither a set-expiry nor a time-to-live
    query is sent. *)
Theorem Add_increment_failure {W : Type} `{World W}
        (amount : Z) (b : bucket) (e : env W)
        (r0 r1 : reply * option error) (w1 w2 : W)
        (c0 : Z) (err0 : option error) (count : Z) (err : error) :
  is_uint (capacity b) ->
  conn_DoContext (GET (name b)) (world e) = (r0, w1) ->
  redis.Uint64 r0 = (c0, err0) ->
  err0 = None \/ err0 = Some redis.ErrNil ->
  amount <= capacity b - min c0 (capacity b) ->
  conn_DoContext (INCRBY (name b) amount) w1 = (r1, w2) ->
  redis.Uint64 r1 = (count, Some err) ->
  exists (b' : bucket) (e' : env W),
    Add amount b e = (Returned (b', (State b', Some err)), e') /\
    remaining b' = capacity b - min c0 (capacity b) /\
    reset b' = reset b /\
    world e' = w2 /\
    sent e e' = [GET (name b); INCRBY (name b) amount].
Proof.
  intros Hcap Hget Hc0 Herr0 Hfit Hincr Hcount.
  rewrite (Add_read amount b e r0 w1 c0 err0 Hcap Hget Hc0 Herr0).
  erewrite Add_checked_increment; [| exact Hfit | exact Hincr].
  unfold Add_incremented. rewrite Hcount.
  eexists _, _. split; [reflexivity |]. simpl.
  repeat split. apply sent_app. simpl. rewrite <- !app_assoc. reflexivity.
Qed.

(** *** Witness for X2: an absent key, then an increment that fails *)

Lemma Add_increment_failure_witness :
  exists b' e',
    @Add script played 3 idle
      (start {| replies := [(RNil, None); (RNil, Some (ConnError "broken pipe"))];
                reading := 5 * time.Second |})
      = (Returned (b', (State b', Some (ConnError "broken pipe"))), e') /\
    remaining b' = 10 /\ reset b' = reset idle.
Proof.
  destruct (@Add_increment_failure script played 3 idle
              (start {| replies := [(RNil, None); (RNil, Some (ConnError "broken pipe"))];
                        reading := 5 * time.Second |})
              (RNil, None) (RNil, Some (ConnError "broken pipe"))
              {| replies := [(RNil, Some (ConnError "broken pipe"))];
                 reading := 5 * time.Second |}
              {| replies := []; reading := 5 * time.Second |}
              0 (Some redis.ErrNil) 0 (ConnError "broken pipe")
              ten_is_uint eq_refl eq_refl (or_intror eq_refl))
    as (b' & e' & Hrun & Hrem & Hreset & _);
    [vm_compute; discriminate | reflexivity | reflexivity |].
  exists b', e'. split; [exact Hrun |]. split; [exact Hrem | exact Hreset].
Defined.

(** ** Admission past the capacity *)


(** *** Witness for X3: a counter of 15 against a capacity of 10, and an
    [Add] of zero *)


(** ** What a call keeps *)

(** X4. Whatever the store does, a returning [Add] leaves the name, the
    capacity and the window duration of the bucket as they were, and the
    snapshot it returns is the state the accessors give afterwards: its
    capacity, remaining and reset are those the bucket now caches. *)
Theorem Add_keeps_the_bucket {W : Type} `{World W}
        (amount : Z) (b b' : bucket) (e e' : env W)
        (st : leakybucket.BucketState) (err : option error) :
  is_uint (capacity b) ->
  Add amount b e = (Returned (b', (st, err)), e') ->
  name b' = name b /\ capacity b' = capacity b /\ rate b' = rate b /\
  st = State b' /\
  leakybucket.Capacity st = Capacity b' /\
  leakybucket.Remaining st = Remaining b' /\
  leakybucket.Reset st = Reset b'.
Proof.
  intros Hcap Hrun.
  destruct (Add_cases amount b e Hcap) as (out & e1 & l & Hrun' & _ & _ & Hb).
  rewrite Hrun in Hrun'. injection Hrun' as <- <-.
  destruct (Hb b' st err eq_refl) as (-> & Hn & Hc & Hr & _).
  repeat split; assumption.
Qed.

(** *** Witness for X4: an [Add] of 3 on 4 used *)

Lemma Add_keeps_the_bucket_witness :
  exists b' st err e',
    @Add store (served healthy) 3 stale (start four_used) = (Returned (b', (st, err)), e') /\
    name b' = "k" /\ capacity b' = 10 /\ rate b' = time.Second /\ st = State b'.
Proof.
  assert (Hrun : exists b' st err e',
            @Add store (served healthy) 3 stale (start four_used)
              = (Returned (b', (st, err)), e')).
  { eexists _, _, _, _. vm_compute. reflexivity. }
  destruct Hrun as (b' & st & err & e' & Hrun).
  exists b', st, err, e'. split; [exact Hrun |].
  destruct (@Add_keeps_the_bucket store (served healthy) 3 stale b' (start four_used) e'
              st err ten_is_uint Hrun) as (Hn & Hc & Hr & Hst & _).
  repeat split; assumption.
Defined.

(** X5. Whatever the store does, the reset-time refresh sends no command
    or exactly the time-to-live query for the key of the bucket, and a
    refresh that returns has written no field but the reset; when it
    returns an error the bucket is as it was. *)
Theorem refresh_writes_only_reset {W : Type} `{World W} (b : bucket) (e : env W) :
  (sent e (snd (updateOldReset b e)) = [] \/
   sent e (snd (updateOldReset b e)) = [PTTL (name b)]) /\
  existsb mutating (sent e (snd (updateOldReset b e))) = false /\
  forall b' err,
    fst (updateOldReset b e) = Returned (b', err) ->
    b' = set_reset b (reset b') /\ (err <> None -> b' = b).
Proof.
  destruct (updateOldReset_frame b e) as (out & e' & l & Hrun & Hl & Hcmd & Hb).
  rewrite Hrun. simpl. rewrite (sent_app _ _ _ Hl). split; [exact Hcmd |]. split.
  - destruct Hcmd as [-> | ->]; reflexivity.
  - intros b' err ->. destruct (Hb b' err eq_refl) as (Hn & Hc & Hrem & Hr & Heq).
    split; [| exact Heq]. destruct b'. simpl in *. subst. reflexivity.
Qed.

(** ** A reply of another type *)

(** X6. The refresh asserts that the time-to-live reply is an integer.
    When the cached reset is not ahead by the clock's second and the query
    succeeds with a reply of another type (nil, a bulk string, a status),
    the refresh panics instead of returning an error; an [Add] over quota
    therefore panics as well, after its lookup, with no bucket-full error
    returned. *)
Theorem refresh_panics_on_untyped_reply {W : Type} `{World W}
        (b : bucket) (r : reply) :
  (forall n, r <> RInt n) ->
  (forall (e : env W) (now : time.Time) (w1 w2 : W),
      clock_Now (world e) = (now, w1) ->
      time.Unix (reset b) <= time.Unix now ->
      conn_DoContext (PTTL (name b)) w1 = ((r, None), w2) ->
      fst (updateOldReset b e) = Panicked /\
      sent e (snd (updateOldReset b e)) = [PTTL (name b)])
  /\
  (forall (amount : Z) (e : env W) (r0 : reply * option error) (c0 : Z)
          (err0 : option error) (now : time.Time) (w1 w2 w3 : W),
      is_uint (capacity b) ->
      conn_DoContext (GET (name b)) (world e) = (r0, w1) ->
      redis.Uint64 r0 = (c0, err0) ->
      err0 = None \/ err0 = Some redis.ErrNil ->
      amount > capacity b - min c0 (capacity b) ->
      clock_Now w1 = (now, w2) ->
      time.Unix (reset b) <= time.Unix now ->
      conn_DoContext (PTTL (name b)) w2 = ((r, None), w3) ->
      fst (Add amount b e) = Panicked).
Proof.
  intros Hr.
  assert (Hpanic : forall (b1 : bucket) (e : env W) (now : time.Time) (w1 w2 : W),
             name b1 = name b -> reset b1 = reset b ->
             clock_Now (world e) = (now, w1) ->
             time.Unix (reset b) <= time.Unix now ->
             conn_DoContext (PTTL (name b)) w1 = ((r, None), w2) ->
             exists w3, updateOldReset b1 e =
               (Panicked, {| world := w3; issued := issued e ++ [PTTL (name b)] |})).
  { intros b1 e now w1 w2 Hn Hreset Hnow Hle Httl.
    unfold updateOldReset. rewrite (run_Now _ _ _ _ Hnow), Hn, Hreset.
    destruct (Z.gtb_spec (time.Unix (reset b)) (time.Unix now)); [lia |].
    erewrite run_DoContext by exact Httl. cbv beta iota.
    destruct (clock_Now w2) as [now' w3] eqn:Hnow'. erewrite run_Now by exact Hnow'.
    exists w3. destruct r as [| n | s | s | msg]; try reflexivity.
    exfalso. exact (Hr n eq_refl). }
  split.
  - intros e now w1 w2 Hnow Hle Httl.
    destruct (Hpanic b e now w1 w2 eq_refl eq_refl Hnow Hle Httl) as (w3 & ->).
    split; [reflexivity |]. apply sent_app. reflexivity.
  - intros amount e r0 c0 err0 now w1 w2 w3 Hcap Hget Hc0 Herr0 Hover Hnow Hle Httl.
    rewrite (Add_read amount b e r0 w1 c0 err0 Hcap Hget Hc0 Herr0).
    unfold Add_checked.
    destruct (Z.gtb_spec amount (remaining (after_read b c0))) as [_ | Hfit];
      [| simpl in Hfit; lia].
    unfold bind.
    destruct (Hpanic (after_read b c0)
                {| world := w1; issued := issued e ++ [GET (name b)] |}
                now w2 w3 eq_refl eq_refl Hnow Hle Httl) as (w4 & ->).
    reflexivity.
Qed.

(** *** Witness for X6: 4 of 10 used, an [Add] of 7, and a nil reply to
    the time-to-live query *)

Lemma refresh_panics_on_untyped_reply_witness :
  fst (@updateOldReset script played stale
         (start {| replies := [(RNil, None)]; reading := 5 * time.Second |}))
    = Panicked /\
  fst (@Add script played 7 stale
         (start {| replies := [(RBulk "4", None); (RNil, None)];
                   reading := 5 * time.Second |}))
    = Panicked.
Proof.
  destruct (@refresh_panics_on_untyped_reply script played stale RNil) as [Hrefresh Hadd].
  - discriminate.
  - split.
    + apply (Hrefresh (start {| replies := [(RNil, None)]; reading := 5 * time.Second |})
               (5 * time.Second)
               {| replies := [(RNil, None)]; reading := 5 * time.Second |}
               {| replies := []; reading := 5 * time.Second |});
        [reflexivity | vm_compute; discriminate | reflexivity].
    + apply (Hadd 7 (start {| replies := [(RBulk "4", None); (RNil, None)];
                              reading := 5 * time.Second |})
               (RBulk "4", None) 4 None (5 * time.Second)
               {| replies := [(RNil, None)]; reading := 5 * time.Second |}
               {| replies := [(RNil, None)]; reading := 5 * time.Second |}
               {| replies := []; reading := 5 * time.Second |});
        [exact ten_is_uint | reflexivity | reflexivity | left; reflexivity
        | reflexivity | reflexivity | vm_compute; discriminate | reflexivity].
Defined.

(** *** Witness for X5: a stale reset rebuilt from 500 ms to live *)

Lemma refresh_writes_only_reset_witness :
  exists b' e',
    @updateOldReset store (served healthy) stale (start four_used)
      = (Returned (b', None), e') /\
    b' = set_reset stale (5500 * time.Millisecond).
Proof.
  destruct (@refresh_writes_only_reset store (served healthy) stale (start four_used))
    as (_ & _ & Hkeeps).
  eexists _, _. split; [reflexivity |].
  destruct (Hkeeps _ _ eq_refl) as [Hb' _]. exact Hb'.
Defined.

(** ** The reset time that a call reports *)


(** *** Witness for X7: 4 of 10 used with 500 ms to live, an [Add] of 7 *)


(** ** A cached reset that is ahead *)



(** *** Witness for X8: a reset two seconds ahead of a client clock that
    stands still *)


(** ** A time to live beyond the range of a duration *)

(** X9. The time to live is turned into nanoseconds in 64 bits.  A reply
    of more than some 292 years ([ttl] milliseconds with [ttl * 10^6]
    from [2^63] up to [2^64 - 1]) wraps around: the refresh and [Create]
    on an existing key set the reset to the clock reading plus
    [ttl * 10^6 - 2^64] nanoseconds, a time before that reading although
    the key has not expired. *)
Theorem far_ttl_wraps_the_reset {W : Type} `{World W} (ttl : Z) :
  2 ^ 63 <= ttl * millisecond < 2 ^ 64 ->
  (forall (b : bucket) (e : env W) (now now' : time.Time) (w1 w2 w3 : W),
      clock_Now (world e) = (now, w1) ->
      time.Unix (reset b) <= time.Unix now ->
      conn_DoContext (PTTL (name b)) w1 = ((RInt ttl, None), w2) ->
      clock_Now w2 = (now', w3) ->
      exists (b' : bucket) (e' : env W),
        updateOldReset b e = (Returned (b', None), e') /\
        reset b' = now' + (ttl * time.Millisecond - 2 ^ 64) /\
        reset b' < now')
  /\
  (forall (nm : string) (cap : Z) (rt : time.Duration) (e : env W)
          (r1 r2 : reply * option error) (c : Z) (now : time.Time) (w1 w2 w3 : W),
      conn_DoContext (GET nm) (world e) = (r1, w1) ->
      redis.Uint64 r1 = (c, None) ->
      conn_DoContext (PTTL nm) w1 = (r2, w2) ->
      redis.Int64 r2 = (ttl, None) ->
      clock_Now w2 = (now, w3) ->
      exists (b : bucket) (e' : env W),
        Create nm cap rt e = (Returned (Some b, None), e') /\
        reset b = now + (ttl * time.Millisecond - 2 ^ 64) /\
        reset b < now).
Proof.
  intros Hfar.
  assert (Hwrap : to_int64 (ttl * millisecond) = ttl * time.Millisecond - 2 ^ 64).
  { unfold to_int64, millisecond, time.Millisecond in *.
    replace (ttl * 1000000 + 2 ^ 63) with ((ttl * 1000000 - 2 ^ 63) + 1 * 2 ^ 64) by lia.
    rewrite Z.mod_add by lia. rewrite Z.mod_small by lia. lia. }
  split.
  - intros b e now now' w1 w2 w3 Hnow Hle Httl Hnow'.
    eexists _, _. split;
      [apply (updateOldReset_stale b e now now' w1 w2 w3 ttl Hnow Hle Httl Hnow') |].
    simpl. unfold time.Add. rewrite Hwrap.
    unfold millisecond, time.Millisecond in *. lia.
  - intros nm cap rt e r1 r2 c now w1 w2 w3 Hget Hcount Httl Hint Hnow.
    eexists _, _. split.
    { unfold Create. erewrite run_DoContext by exact Hget. rewrite Hcount.
      erewrite run_DoContext by exact Httl. rewrite Hint.
      erewrite run_Now by exact Hnow. reflexivity. }
    simpl. unfold time.Add. rewrite Hwrap.
    unfold millisecond, time.Millisecond in *. lia.
Qed.

(** *** Witness for X9: a key with 10^13 ms to live *)

Lemma far_ttl_wraps_the_reset_witness :
  exists b e',
    @Create store (served healthy) "k" 10 time.Second (start long_lived)
      = (Returned (Some b, None), e') /\
    reset b < 5 * time.Second.
Proof.
  destruct (@far_ttl_wraps_the_reset store (served healthy) 10000000000000) as [_ Hcreate].
  - unfold millisecond, time.Millisecond. lia.
  - destruct (Hcreate "k" 10 time.Second (start long_lived)
                (RBulk "5", None) (RInt 10000000000000, None) 5 (5 * time.Second)
                (tick long_lived) (tick (tick long_lived)) (tick (tick (tick long_lived)))
                eq_refl eq_refl eq_refl eq_refl eq_refl)
      as (b & e' & Hrun & _ & Hpast).
    exists b, e'. split; [exact Hrun | exact Hpast].
Defined.

(** ** A counter that is not an unsigned number *)

Lemma ParseUint_negative (v : Z) :
  v < 0 -> strconv.ParseUint (strconv.FormatInt v) = (0, Some ErrSyntax).
Proof.
  intros Hv. destruct v as [| p | p]; [lia | lia |].
  unfold strconv.ParseUint, strconv.FormatInt, NilZero.string_of_int, Z.to_int.
  unfold NilZero.uint_of_string. simpl NilEmpty.uint_of_string.
  destruct (NilEmpty.uint_of_string _); reflexivity.
Qed.

(** X10. When the store holds a negative counter for the key (its text
    starts with a minus sign), the lookup cannot be read as an unsigned
    number: [Add] returns the syntax error with the bucket as it was,
    [Create] returns the syntax error and no bucket, and neither sends
    anything but the lookup. *)
Theorem negative_counter_is_refused {W : Type} `{World W} (v : Z) :
  v < 0 ->
  (forall (amount : Z) (b : bucket) (e : env W) (w1 : W),
      conn_DoContext (GET (name b)) (world e)
        = ((RBulk (strconv.FormatInt v), None), w1) ->
      exists e' : env W,
        Add amount b e = (Returned (b, (State b, Some ErrSyntax)), e') /\
        sent e e' = [GET (name b)])
  /\
  (forall (nm : string) (cap : Z) (rt : time.Duration) (e : env W) (w1 : W),
      conn_DoContext (GET nm) (world e)
        = ((RBulk (strconv.FormatInt v), None), w1) ->
      exists e' : env W,
        Create nm cap rt e = (Returned (None, Some ErrSyntax), e') /\
        sent e e' = [GET nm]).
Proof.
  intros Hv.
  assert (Hcount : redis.Uint64 (RBulk (strconv.FormatInt v), None) = (0, Some ErrSyntax))
    by exact (ParseUint_negative v Hv).
  split.
  - intros amount b e w1 Hget. eexists. split.
    + apply (Add_read_failed amount b e _ w1 0 ErrSyntax Hget Hcount). discriminate.
    + apply sent_app. reflexivity.
  - intros nm cap rt e w1 Hget. eexists. split.
    + unfold Create. erewrite run_DoContext by exact Hget. rewrite Hcount.
      destruct (decide (ErrSyntax = redis.ErrNil)) as [Habs | _];
        [discriminate Habs | reflexivity].
    + apply sent_app. reflexivity.
Qed.

(** *** Witness for X10: a counter of -5 *)

Lemma negative_counter_is_refused_witness :
  (exists e', @Add store (served healthy) 3 idle (start overdrawn)
              = (Returned (idle, (State idle, Some ErrSyntax)), e')) /\
  (exists e', @Create store (served healthy) "k" 10 time.Second (start overdrawn)
              = (Returned (None, Some ErrSyntax), e')).
Proof.
  destruct (@negative_counter_is_refused store (served healthy) (-5)) as [Hadd Hcreate];
    [lia |].
  split.
  - destruct (Hadd 3 idle (start overdrawn) (tick overdrawn) eq_refl) as (e' & Hrun & _).
    exists e'. exact Hrun.
  - destruct (Hcreate "k" 10 time.Second (start overdrawn) (tick overdrawn) eq_refl)
      as (e' & Hrun & _).
    exists e'. exact Hrun.
Defined.

(** ** After the window *)

Lemma serve_GET_lapsed (k : string) (s : store) :
  lapsed k s ->
  exists s1, serve healthy (GET k) s = ((RNil, None), s1) /\ db s1 !! k = None.
Proof.
  unfold lapsed, serve, purge. simpl. destruct (db s !! k) as [en |] eqn:Hk.
  - intros ->. simpl. rewrite lookup_delete_eq. eexists. split; [reflexivity |].
    simpl. apply lookup_delete_eq.
  - intros _. simpl. rewrite ?Hk. eexists. split; [reflexivity | exact Hk].
Qed.

Lemma serve_INCRBY_absent (k : string) (n : Z) (s : store) :
  db s !! k = None ->
  exists s1, serve healthy (INCRBY k n) s = ((RInt n, None), s1) /\
             db s1 !! k = Some {| value := n; deadline := None |}.
Proof.
  intros Hk. unfold serve, purge. simpl. rewrite Hk. simpl. rewrite Hk.
  eexists. split; [reflexivity |]. simpl. apply lookup_insert_eq.
Qed.

(** X11. On the reference store, when the key of the bucket is absent or
    its deadline has passed, an [Add] of an amount within the capacity
    behaves as on a new bucket whatever the bucket has cached and whatever
    the clock does next: it succeeds, reports the capacity less the
    amount, and sends the increment and then the set-expiry that starts a
    new window. *)
Theorem Add_after_the_window (amount : Z) (b : bucket) (e : env store) :
  is_uint (capacity b) ->
  0 <= amount <= capacity b ->
  lapsed (name b) (world e) ->
  exists (b' : bucket) (e' : env store) (l : list command),
    @Add store (served healthy) amount b e = (Returned (b', (State b', None)), e') /\
    remaining b' = capacity b - amount /\
    sent e e' = [GET (name b); INCRBY (name b) amount;
                 PEXPIRE (name b) (expiry_of b)] ++ l /\
    (l = [] \/ l = [PTTL (name b)]).
Proof.
  intros Hcap Hamount Hlapsed.
  assert (Hu : is_uint amount) by (unfold is_uint in *; lia).
  destruct (serve_GET_lapsed (name b) (world e) Hlapsed) as (s1 & Hget & Hk1).
  rewrite (@Add_read store (served healthy) amount b e (RNil, None) s1 0
             (Some redis.ErrNil) Hcap Hget eq_refl (or_intror eq_refl)).
  assert (Hmin : capacity b - min 0 (capacity b) = capacity b).
  { destruct (min_spec 0 (capacity b)) as [[? ->] | [? ->]]; unfold is_uint in Hcap; lia. }
  destruct (serve_INCRBY_absent (name b) amount s1 Hk1) as (s2 & Hincr & _).
  erewrite (@Add_checked_increment store (served healthy));
    [| simpl; lia | exact Hincr].
  unfold Add_incremented, redis.Uint64.
  assert (Hlt : (amount <? 0) = false) by (apply Z.ltb_ge; lia).
  rewrite Hlt. cbv beta iota. rewrite !(to_uint_small amount Hu), Z.eqb_refl.
  destruct (serve healthy (PEXPIRE (name b) (expiry_of b)) s2) as [[r2 x] s3] eqn:Hexp.
  pose proof (serve_healthy_ok (PEXPIRE (name b) (expiry_of b)) s2) as Hx.
  rewrite Hexp in Hx. simpl in Hx. subst x.
  erewrite run_DoContext by exact Hexp. cbv beta iota.
  match goal with |- context [Add_finish amount ?b1 ?e1] =>
    destruct (@returns_Add_finish store (served healthy) amount b1
                (served_ttl_typed healthy) e1) as ([b' [st err]] & e' & Hrun);
    destruct (@Add_finish_spec store (served healthy) amount b1 e1 Hcap Hu)
      as (out & e1' & l & Hrun' & Hl & Hcmd & Hb)
  end.
  rewrite Hrun in Hrun'. injection Hrun' as <- <-.
  destruct (Hb b' st err eq_refl) as (-> & -> & _ & _ & _ & Hrem).
  exists b', e', l. split; [exact Hrun |]. split.
  - rewrite Hrem. simpl. destruct (min_spec amount (capacity b)) as [[? ->] | [? ->]]; lia.
  - split; [| exact Hcmd]. apply sent_app. rewrite Hl. simpl.
    rewrite <- !app_assoc. reflexivity.
Qed.

(** *** Witness for X11: a full counter whose deadline has passed, and an
    [Add] of 3 *)

Lemma Add_after_the_window_witness :
  exists b' e' l,
    @Add store (served healthy) 3 clipped (start elapsed)
      = (Returned (b', (State b', None)), e') /\
    remaining b' = 7 /\
    sent (start elapsed) e' = [GET "k"; INCRBY "k" 3; PEXPIRE "k" 1000] ++ l.
Proof.
  destruct (Add_after_the_window 3 clipped (start elapsed) ten_is_uint)
    as (b' & e' & l & Hrun & Hrem & Hsent & _).
  - simpl. lia.
  - reflexivity.
  - exists b', e', l. split; [exact Hrun |]. split; [exact Hrem | exact Hsent].
Defined.

(** ** The bucket within one window *)

(** The lookup of an [Add] on the reference store during which nothing
    expired read the counter the store holds. *)
Lemma Add_lookup_in_window (amount : Z) (b b' : bucket) (e e' : env store) (used : Z)
      (st : leakybucket.BucketState) (err : option error) :
  is_uint (capacity b) -> 0 <= used <= capacity b ->
  default 0 (counter (world e) (name b)) = used ->
  @Add store (served healthy) amount b e = (Returned (b', (st, err)), e') ->
  expirations (world e') = expirations (world e) ->
  exists s1 : store,
    @Add_checked store (served healthy) amount (after_read b used)
      {| world := s1; issued := issued e ++ [GET (name b)] |}
      = (Returned (b', (st, err)), e') /\
    expirations s1 = expirations (world e) /\
    counter s1 (name b) = counter (world e) (name b).
Proof.
  intros Hcap Hused Hheld Hrun Hquiet.
  destruct (serve_GET_reply (name b) (world e)) as (r & Hreply & Hcases).
  destruct (serve healthy (GET (name b)) (world e)) as [r0 s1] eqn:Hget.
  simpl in Hreply. subst r0.
  assert (Hcount : exists c err0,
             redis.Uint64 (r, None) = (c, err0) /\
             (err0 = None \/ err0 = Some redis.ErrNil) /\
             (r <> RNil -> c = used) /\ (r = RNil -> c = 0)).
  { destruct Hcases as [-> | (en & Hk & ->)].
    - exists 0, (Some redis.ErrNil). split; [reflexivity |]. split; [right; reflexivity |].
      split; [congruence | reflexivity].
    - unfold counter in Hheld. rewrite Hk in Hheld. simpl in Hheld. rewrite Hheld.
      exists used, None. simpl. split.
      + apply ParseUint_FormatInt. unfold is_uint in *. lia.
      + split; [left; reflexivity |]. split; [reflexivity | discriminate]. }
  destruct Hcount as (c & err0 & Hcount & Herr0 & Hcused & Hcnil).
  rewrite (@Add_read store (served healthy) amount b e (r, None) s1 c err0
             Hcap Hget Hcount Herr0) in Hrun.
  pose proof (kept_serve (name b) (GET (name b)) (world e) I) as [Hg1 Hk1].
  rewrite Hget in Hg1, Hk1. simpl in Hg1, Hk1.
  pose proof (along_grew_Add_checked amount (after_read b c)
                {| world := s1; issued := issued e ++ [GET (name b)] |}) as Hg1'.
  rewrite Hrun in Hg1'. simpl in Hg1'.
  assert (Hq1 : expirations s1 = expirations (world e)) by (unfold grew in *; lia).
  assert (Hc_used : c = used).
  { destruct (decide (r = RNil)) as [Hnil | Hne]; [| exact (Hcused Hne)].
    rewrite (Hcnil Hnil). subst r.
    assert (Hq : expirations (snd (serve healthy (GET (name b)) (world e)))
                 = expirations (world e)) by (rewrite Hget; exact Hq1).
    pose proof (serve_quiet _ _ Hq) as Hexact. rewrite Hget in Hexact. simpl in Hexact.
    unfold counter in Hheld. destruct (db (world e) !! name b) as [en |].
    - discriminate Hexact.
    - simpl in Hheld. lia. }
  subst c. exists s1. split; [exact Hrun |]. split; [exact Hq1 | exact (Hk1 Hq1)].
Qed.

Lemma along_kept_updateOldReset (b : bucket) (e : env store) :
  kept (name b) (world e) (world (snd (@updateOldReset store (served healthy) b e))).
Proof.
  apply (@along_updateOldReset store (served healthy) (kept (name b)) keeps_counter).
  - apply kept_refl.
  - apply kept_trans.
  - intros c w Hc. apply kept_serve, Hc.
  - intros w. apply kept_tick.
  - exact I.
Qed.

(** An [Add] over quota on the reference store during which nothing
    expired: the bucket-full error, the quota as the remaining, and the
    counter as it was. *)
Lemma Add_refused_in_window (amount : Z) (b b' : bucket) (e e' : env store) (used : Z)
      (st : leakybucket.BucketState) (err : option error) :
  is_uint (capacity b) -> 0 <= used <= capacity b ->
  default 0 (counter (world e) (name b)) = used ->
  amount > capacity b - used ->
  @Add store (served healthy) amount b e = (Returned (b', (st, err)), e') ->
  expirations (world e') = expirations (world e) ->
  err = Some leakybucket.ErrorFull /\ st = State b' /\
  name b' = name b /\ capacity b' = capacity b /\
  remaining b' = capacity b - used /\
  counter (world e') (name b) = counter (world e) (name b).
Proof.
  intros Hcap Hused Hheld Hover Hrun Hquiet.
  destruct (Add_lookup_in_window amount b b' e e' used st err
              Hcap Hused Hheld Hrun Hquiet) as (s1 & Hrun1 & Hq1 & Hk1).
  assert (Hrem : remaining (after_read b used) = capacity b - used).
  { simpl. destruct (min_spec used (capacity b)) as [[? ->] | [? ->]]; lia. }
  destruct (@Add_checked_full store (served healthy) amount (after_read b used)
              {| world := s1; issued := issued e ++ [GET (name b)] |})
    as (out & e1 & l & Hrun' & _ & _ & _ & Hb); [rewrite Hrem; exact Hover |].
  rewrite Hrun1 in Hrun'. injection Hrun' as <- <-.
  destruct (Hb b' st err eq_refl) as (-> & -> & Hn & Hc & _ & Hr).
  split; [reflexivity |]. split; [reflexivity |].
  split; [exact Hn |]. split; [exact Hc |]. split; [rewrite Hr; exact Hrem |].
  assert (Hkept : kept (name b) s1 (world e')).
  { revert Hrun1. unfold Add_checked.
    destruct (Z.gtb_spec amount (remaining (after_read b used))) as [_ | Hfit];
      [| rewrite Hrem in Hfit; lia].
    unfold bind.
    pose proof (along_kept_updateOldReset (after_read b used)
                  {| world := s1; issued := issued e ++ [GET (name b)] |}) as Hk.
    destruct (@updateOldReset store (served healthy) (after_read b used) _)
      as [[[b1 x] |] e2]; [| discriminate].
    unfold ret. intros Heq. assert (He : e2 = e') by congruence. subst e2. exact Hk. }
  destruct Hkept as [Hg Hk]. rewrite Hk by (unfold grew in *; lia). exact Hk1.
Qed.

(** The sequence of calls on the reference store during which nothing
    expired answers as the ledger does. *)
Lemma AddAll_ledger (amounts : list Z) :
  forall (b b' : bucket) (e e' : env store) (used : Z)
         (rs : list (leakybucket.BucketState * option error)),
    is_uint (capacity b) ->
    Forall (fun amount => 0 <= amount) amounts ->
    0 <= used <= capacity b ->
    default 0 (counter (world e) (name b)) = used ->
    remaining b = capacity b - used ->
    @AddAll store (served healthy) amounts b e = (Returned (b', rs), e') ->
    expirations (world e') = expirations (world e) ->
    map (fun r => (leakybucket.Remaining (fst r), snd r)) rs
      = ledger (capacity b) used amounts /\
    name b' = name b /\ capacity b' = capacity b /\
    remaining b' = capacity b - used_after (capacity b) used amounts /\
    default 0 (counter (world e') (name b)) = used_after (capacity b) used amounts /\
    0 <= used_after (capacity b) used amounts <= capacity b.
Proof.
  induction amounts as [| amount rest IH];
    intros b b' e e' used rs Hcap Hpos Hused Hheld Hsync; simpl.
  - intros [= <- <- <-] _. repeat split; try assumption; lia.
  - apply Forall_cons in Hpos as [Hamount Hpos].
    unfold bind.
    pose proof (along_grew_Add amount b e) as Hg1.
    destruct (@Add store (served healthy) amount b e) as [[[b1 [st err]] |] e1] eqn:Hadd;
      [| discriminate].
    pose proof (along_grew_AddAll rest b1 e1) as Hg2.
    destruct (@AddAll store (served healthy) rest b1 e1) as [[[b2 rs2] |] e2] eqn:Hrest;
      [| discriminate].
    simpl in Hg1, Hg2. intros [= <- <- <-] Hquiet.
    assert (Hq1 : expirations (world e1) = expirations (world e))
      by (unfold grew in *; lia).
    assert (Hq2 : expirations (world e2) = expirations (world e1))
      by (unfold grew in *; lia).
    destruct (Z.gtb_spec amount (capacity b - used)) as [Hover | Hfit].
    + destruct (Add_refused_in_window amount b b1 e e1 used st err
                  Hcap Hused Hheld ltac:(lia) Hadd Hq1)
        as (-> & -> & Hn & Hc & Hrem & Hcounter).
      destruct (IH b1 b2 e1 e2 used rs2) as (Hrs & Hn2 & Hc2 & Hrem2 & Hheld2 & Hrange);
        try assumption.
      * rewrite Hc. exact Hcap.
      * rewrite Hc. exact Hused.
      * rewrite Hn, Hcounter. exact Hheld.
      * rewrite Hc. exact Hrem.
      * rewrite Hc, Hn in *. simpl. unfold Remaining. rewrite Hrem, Hrs.
        repeat split; try assumption; lia.
    + destruct (Add_in_window amount b e used Hcap Hamount ltac:(lia) ltac:(lia) Hheld)
        as (b1' & st' & err' & e1' & Hadd' & Hn & Hc & _ & _ & Hstep).
      rewrite Hadd in Hadd'. injection Hadd' as <- <- <- <-.
      destruct (Hstep Hq1) as (-> & -> & Hrem & Hcounter).
      destruct (IH b1 b2 e1 e2 (used + amount) rs2)
        as (Hrs & Hn2 & Hc2 & Hrem2 & Hheld2 & Hrange); try assumption.
      * rewrite Hc. exact Hcap.
      * rewrite Hc. lia.
      * rewrite Hn, Hcounter. reflexivity.
      * rewrite Hc. exact Hrem.
      * rewrite Hc, Hn in *. simpl. unfold Remaining. rewrite Hrem, Hrs.
        repeat split; try assumption; lia.
Qed.

(** X12. On the reference store, a bucket created on an absent key, with a
    window of at least a millisecond, answers any sequence of amounts as a
    ledger of its capacity does, as long as the calls fall within one
    window (from the first [Add] on, no reading of the store's clock is
    more than the window in whole milliseconds after an earlier one): an
    amount that fits what is left succeeds and reports what is then left,
    an amount that does not fit gets the bucket-full error and reports
    what is left unchanged, and at the end the counter in the store holds
    exactly the sum of the amounts that succeeded. *)
Theorem bucket_follows_the_ledger
        (nm : string) (cap : Z) (rt : time.Duration) (amounts : list Z) (s : store) :
  is_uint cap ->
  Forall (fun amount => 0 <= amount) amounts ->
  millisecond <= rt -> is_int64 rt ->
  db s !! nm = None ->
  exists (b0 b : bucket) (e0 e' : env store)
         (rs : list (leakybucket.BucketState * option error)),
    @Create store (served healthy) nm cap rt (start s) = (Returned (Some b0, None), e0) /\
    @AddAll store (served healthy) amounts b0 e0 = (Returned (b, rs), e') /\
    (within_window s (ticks (world e0)) (ticks (world e')) (Z.quot rt millisecond) ->
       map (fun r => (leakybucket.Remaining (fst r), snd r)) rs = ledger cap 0 amounts /\
       remaining b = cap - used_after cap 0 amounts /\
       default 0 (counter (world e') nm) = used_after cap 0 amounts).
Proof.
  intros Hcap Hpos Hms Hrt Habsent.
  assert (Hget : serve healthy (GET nm) s = ((RNil, None), tick s)).
  { unfold serve, purge. simpl. rewrite Habsent. simpl. rewrite Habsent. reflexivity. }
  pose proof (@Create_absent_run store (served healthy) nm cap rt (start s)
                (tick s) (tick (tick s)) (now_ns (tick s)) Hget eq_refl) as Hcreate.
  set (b0 := {| name := nm; capacity := cap; remaining := cap;
                reset := time.Add (now_ns (tick s)) rt; rate := rt |}) in *.
  set (e0 := {| world := tick (tick s); issued := issued (start s) ++ [GET nm] |}) in *.
  destruct (@returns_AddAll store (served healthy) amounts (served_ttl_typed healthy) b0 e0)
    as ([b rs] & e' & Hall).
  exists b0, b, e0, e', rs. split; [exact Hcreate |]. split; [exact Hall |].
  intros Hwin.
  assert (Hquiet : expirations (world e') = expirations s).
  { destruct (fresh_bucket_quiet amounts b0 e0 Hcap Hms Hrt Habsent) as [_ Heq].
    - rewrite Hall. exact Hwin.
    - rewrite Hall in Heq. exact Heq. }
  destruct (AddAll_ledger amounts b0 b e0 e' 0 rs) as (Hrs & _ & _ & Hrem & Hheld & _);
    try assumption.
  - unfold is_uint in Hcap. simpl. lia.
  - unfold counter. simpl. rewrite Habsent. reflexivity.
  - simpl. lia.
  - split; [exact Hrs |]. split; [exact Hrem | exact Hheld].
Qed.

(** *** Witness for X12: capacity 10 and the amounts 4, 7, 6, 1 *)

Lemma bucket_follows_the_ledger_witness :
  exists b0 b e0 e' rs,
    @Create store (served healthy) "k" 10 time.Second (start (empty_store five_seconds))
      = (Returned (Some b0, None), e0) /\
    @AddAll store (served healthy) [4; 7; 6; 1] b0 e0 = (Returned (b, rs), e') /\
    map (fun r => (leakybucket.Remaining (fst r), snd r)) rs
      = [(6, None); (6, Some leakybucket.ErrorFull); (0, None);
         (0, Some leakybucket.ErrorFull)] /\
    default 0 (counter (world e') "k") = 10.
Proof.
  destruct (bucket_follows_the_ledger "k" 10 time.Second [4; 7; 6; 1]
              (empty_store five_seconds))
    as (b0 & b & e0 & e' & rs & Hcreate & Hall & Hwindow).
  - exact ten_is_uint.
  - repeat constructor; lia.
  - unfold millisecond, time.Millisecond, time.Second. lia.
  - unfold is_int64, int64_min, int64_max, time.Second. lia.
  - reflexivity.
  - exists b0, b, e0, e', rs. split; [exact Hcreate |]. split; [exact Hall |].
    destruct Hwindow as (Hrs & _ & Hheld).
    + intros n m _ _ _. simpl. unfold five_seconds.
      change (Z.quot time.Second millisecond) with 1000. lia.
    + split; [exact Hrs | exact Hheld].
Defined.

(** ** A second handle on the same key *)

(** [Create] returns, whatever the store does: it asserts no type. *)
Lemma returns_Create {W : Type} `{World W}
      (nm : string) (cap : Z) (rt : time.Duration) :
  returns (Create nm cap rt).
Proof.
  assert (Hnow : returns (@Now W _)).
  { intros e. unfold Now. destruct (clock_Now (world e)). eexists _, _. reflexivity. }
  unfold Create. apply returns_bind; [apply returns_DoContext |]. intros r.
  destruct (redis.Uint64 r) as [c [x |]].
  - destruct (decide (x = redis.ErrNil)); [| apply returns_ret].
    apply returns_bind; [exact Hnow |]. intros now. apply returns_ret.
  - apply returns_bind; [apply returns_DoContext |]. intros r2.
    destruct (redis.Int64 r2) as [ttl [x |]]; [apply returns_ret |].
    apply returns_bind; [exact Hnow |]. intros now. apply returns_ret.
Qed.

Lemma along_kept_Create (nm : string) (cap : Z) (rt : time.Duration) (e : env store) :
  kept nm (world e) (world (snd (@Create store (served healthy) nm cap rt e))).
Proof.
  assert (Hdo : forall c, keeps_counter c ->
                  @along store (served healthy) (kept nm) _ (@DoContext store (served healthy) c)).
  { intros c Hc.
    apply (@along_DoContext store (served healthy) (kept nm) keeps_counter); [| exact Hc].
    intros c' w Hc'. apply kept_serve, Hc'. }
  assert (Hnow : @along store (served healthy) (kept nm) _ (@Now store (served healthy))).
  { apply (@along_Now store (served healthy) (kept nm)). intros w. apply kept_tick. }
  assert (Hret : forall (A : Type) (a : A), @along store (served healthy) (kept nm) _ (@ret store A a)).
  { intros A a. apply (@along_ret store (served healthy) (kept nm)). apply kept_refl. }
  revert e. change (@along store (served healthy) (kept nm) _ (@Create store (served healthy) nm cap rt)).
  unfold Create.
  apply (@along_bind store (served healthy) (kept nm) (kept_trans nm)); [apply Hdo; exact I |].
  intros r. destruct (redis.Uint64 r) as [c [x |]].
  - destruct (decide (x = redis.ErrNil)); [| apply Hret].
    apply (@along_bind store (served healthy) (kept nm) (kept_trans nm)); [exact Hnow |].
    intros now. apply Hret.
  - apply (@along_bind store (served healthy) (kept nm) (kept_trans nm));
      [apply Hdo; exact I |].
    intros r2. destruct (redis.Int64 r2) as [ttl [x |]]; [apply Hret |].
    apply (@along_bind store (served healthy) (kept nm) (kept_trans nm)); [exact Hnow |].
    intros now. apply Hret.
Qed.

(** [Create] on the reference store, nothing expiring meanwhile, caches
    the capacity less the counter the store holds. *)
Lemma Create_in_window (nm : string) (cap : Z) (rt : time.Duration)
      (e e' : env store) (used : Z) (ob : option bucket) (err : option error) :
  is_uint cap -> 0 <= used <= cap ->
  default 0 (counter (world e) nm) = used ->
  @Create store (served healthy) nm cap rt e = (Returned (ob, err), e') ->
  expirations (world e') = expirations (world e) ->
  exists b, ob = Some b /\ err = None /\
            name b = nm /\ capacity b = cap /\ rate b = rt /\
            remaining b = cap - used /\
            counter (world e') nm = counter (world e) nm.
Proof.
  intros Hcap Hused Hheld Hrun Hquiet.
  pose proof (along_kept_Create nm cap rt e) as [_ Hkept].
  rewrite Hrun in Hkept. simpl in Hkept. specialize (Hkept Hquiet).
  destruct (serve_GET_reply nm (world e)) as (r & Hreply & Hcases).
  destruct (serve healthy (GET nm) (world e)) as [r0 s1] eqn:Hget.
  simpl in Hreply. subst r0.
  pose proof (serve_grew healthy (GET nm) (world e)) as Hg1. rewrite Hget in Hg1.
  simpl in Hg1.
  revert Hrun. unfold Create. erewrite run_DoContext by exact Hget.
  destruct Hcases as [-> | (en & Hk & ->)].
  - simpl redis.Uint64. cbv beta iota.
    destruct (decide (redis.ErrNil = redis.ErrNil)) as [_ | Hne]; [| contradiction].
    unfold bind, Now, ret. simpl. intros [= <- <- <-]. simpl in *.
    assert (Hq : expirations (snd (serve healthy (GET nm) (world e)))
                 = expirations (world e)) by (rewrite Hget; unfold grew in *; simpl; lia).
    pose proof (serve_quiet _ _ Hq) as Hexact. rewrite Hget in Hexact. simpl in Hexact.
    unfold counter in Hheld. destruct (db (world e) !! nm) as [en |];
      [discriminate Hexact |].
    simpl in Hheld. eexists. split; [reflexivity |]. split; [reflexivity |].
    simpl. repeat split; [lia | exact Hkept].
  - unfold counter in Hheld. rewrite Hk in Hheld. simpl in Hheld. rewrite Hheld.
    assert (Hu : is_uint used) by (unfold is_uint in *; lia).
    unfold redis.Uint64. rewrite (ParseUint_FormatInt used Hu). cbv beta iota.
    destruct (serve healthy (PTTL nm) s1) as [[r2 x] s2] eqn:Httl.
    pose proof (serve_healthy_ok (PTTL nm) s1) as Hx. rewrite Httl in Hx.
    simpl in Hx. subst x.
    pose proof (served_ttl_typed healthy nm s1) as Htyped. simpl in Htyped.
    rewrite Httl in Htyped. simpl in Htyped.
    erewrite run_DoContext by exact Httl.
    destruct r2 as [| ttl | t | t | msg]; try contradiction.
    unfold redis.Int64. cbv beta iota.
    unfold bind, Now, ret. simpl. intros [= <- <- <-].
    eexists. split; [reflexivity |]. split; [reflexivity |].
    simpl. repeat split; [| exact Hkept].
    rewrite (to_uint_small used Hu).
    assert (Hmin : min cap used = used).
    { destruct (min_spec cap used) as [[? ->] | [? ->]]; lia. }
    rewrite Hmin. apply to_uint_small. unfold is_uint in *. lia.
Qed.

(** X13. On the reference store, a second handle obtained with [Create]
    after any sequence of [Add] calls on the first, the window being at
    least a millisecond and all of it within one window (from the first
    [Add] on, no reading of the store's clock is more than the window in
    whole milliseconds after an earlier one), caches the same capacity and
    the same remaining as the handle that made the calls. *)
Theorem second_handle_agrees
        (nm : string) (cap : Z) (rt : time.Duration) (amounts : list Z) (s : store) :
  is_uint cap ->
  Forall (fun amount => 0 <= amount) amounts ->
  millisecond <= rt -> is_int64 rt ->
  db s !! nm = None ->
  exists (b0 b : bucket) (e0 e1 e2 : env store)
         (rs : list (leakybucket.BucketState * option error))
         (ob : option bucket) (err : option error),
    @Create store (served healthy) nm cap rt (start s) = (Returned (Some b0, None), e0) /\
    @AddAll store (served healthy) amounts b0 e0 = (Returned (b, rs), e1) /\
    @Create store (served healthy) nm cap rt e1 = (Returned (ob, err), e2) /\
    (within_window s (ticks (world e0)) (ticks (world e2)) (Z.quot rt millisecond) ->
       exists b2, ob = Some b2 /\ err = None /\
                  capacity b2 = capacity b /\ remaining b2 = remaining b).
Proof.
  intros Hcap Hpos Hms Hrt Habsent.
  assert (Hget : serve healthy (GET nm) s = ((RNil, None), tick s)).
  { unfold serve, purge. simpl. rewrite Habsent. simpl. rewrite Habsent. reflexivity. }
  pose proof (@Create_absent_run store (served healthy) nm cap rt (start s)
                (tick s) (tick (tick s)) (now_ns (tick s)) Hget eq_refl) as Hcreate.
  set (b0 := {| name := nm; capacity := cap; remaining := cap;
                reset := time.Add (now_ns (tick s)) rt; rate := rt |}) in *.
  set (e0 := {| world := tick (tick s); issued := issued (start s) ++ [GET nm] |}) in *.
  destruct (@returns_AddAll store (served healthy) amounts (served_ttl_typed healthy) b0 e0)
    as ([b rs] & e1 & Hall).
  destruct (@returns_Create store (served healthy) nm cap rt e1) as ([ob err] & e2 & Hagain).
  exists b0, b, e0, e1, e2, rs, ob, err.
  split; [exact Hcreate |]. split; [exact Hall |]. split; [exact Hagain |].
  intros Hwin.
  destruct (expiry_of_window b0 Hms Hrt) as [_ Hspan]. simpl in Hspan.
  pose proof (along_dated_Create (Z.quot rt millisecond) (ticks (world e0)) nm cap rt e1 Hspan)
    as (Hwall & Hticks & Hstep).
  rewrite Hagain in Hwall, Hticks, Hstep. simpl in Hwall, Hticks, Hstep.
  pose proof (@along_dated_AddAll (Z.quot rt millisecond) (ticks (world e0)) amounts b0 e0
                Hcap Hspan (proj1 (expiry_of_window b0 Hms Hrt))) as (Hwall1 & _ & _).
  rewrite Hall in Hwall1. simpl in Hwall1.
  destruct (fresh_bucket_quiet amounts b0 e0 Hcap Hms Hrt Habsent) as [Hdated Hq1].
  { rewrite Hall. simpl.
    apply (within_window_shorter _ _ (ticks (world e2))); [exact Hticks | exact Hwin]. }
  rewrite Hall in Hdated, Hq1. simpl in Hdated, Hq1.
  destruct (Hstep Hdated) as [_ Hq2].
  { intros n m Hfrom Hnm Hupto. rewrite Hwall1. exact (Hwin n m Hfrom Hnm Hupto). }
  destruct (AddAll_ledger amounts b0 b e0 e1 0 rs)
    as (_ & Hn & Hc & Hrem & Hheld & Hrange); try assumption.
  - unfold is_uint in Hcap. simpl. lia.
  - unfold counter. simpl. rewrite Habsent. reflexivity.
  - simpl. lia.
  - simpl in Hn, Hc, Hrem, Hheld, Hrange.
    destruct (Create_in_window nm cap rt e1 e2 (used_after cap 0 amounts) ob err
                Hcap Hrange Hheld Hagain Hq2)
      as (b2 & -> & -> & _ & Hc2 & _ & Hrem2 & _).
    exists b2. split; [reflexivity |]. split; [reflexivity |].
    rewrite Hc2, Hc, Hrem2, Hrem. split; reflexivity.
Qed.

(** *** Witness for X13: capacity 10, the amounts 4 and 7, then a second
    handle *)

Lemma second_handle_agrees_witness :
  exists b0 b e0 e1 e2 rs b2,
    @Create store (served healthy) "k" 10 time.Second (start (empty_store five_seconds))
      = (Returned (Some b0, None), e0) /\
    @AddAll store (served healthy) [4; 7] b0 e0 = (Returned (b, rs), e1) /\
    @Create store (served healthy) "k" 10 time.Second e1
      = (Returned (Some b2, None), e2) /\
    remaining b2 = remaining b.
Proof.
  destruct (second_handle_agrees "k" 10 time.Second [4; 7] (empty_store five_seconds))
    as (b0 & b & e0 & e1 & e2 & rs & ob & err & Hcreate & Hall & Hagain & Hwindow).
  - exact ten_is_uint.
  - repeat constructor; lia.
  - unfold millisecond, time.Millisecond, time.Second. lia.
  - unfold is_int64, int64_min, int64_max, time.Second. lia.
  - reflexivity.
  - destruct Hwindow as (b2 & -> & -> & _ & Hrem).
    + intros n m _ _ _. simpl. unfold five_seconds.
      change (Z.quot time.Second millisecond) with 1000. lia.
    + exists b0, b, e0, e1, e2, rs, b2.
      split; [exact Hcreate |]. split; [exact Hall |]. split; [exact Hagain | exact Hrem].
Defined.

(** ** Which amounts are admitted *)

Lemma Add_incremented_shapes {W : Type} `{World W}
      (amount : Z) (b : bucket) (r : reply * option error) (e : env W) :
  is_uint (capacity b) ->
  exists l,
    issued (snd (Add_incremented amount b r e)) = issued e ++ l /\
    (l = [] \/ l = [PTTL (name b)] \/
     l = [PEXPIRE (name b) (expiry_of b)] \/
     l = [PEXPIRE (name b) (expiry_of b); PTTL (name b)]).
Proof.
  intros Hcap. unfold Add_incremented.
  destruct (redis.Uint64 r) as [count [x |]] eqn:Hcount.
  { exists []. split; [simpl; rewrite app_nil_r; reflexivity | auto]. }
  pose proof (Uint64_is_uint _ _ Hcount) as Hc.
  destruct (to_uint count =? amount).
  - destruct (conn_DoContext (PEXPIRE (name b) (expiry_of b)) (world e))
      as [[r2 [x |]] w3] eqn:Hexp; erewrite run_DoContext by exact Hexp.
    + eexists. split; [reflexivity | auto 10].
    + cbv beta iota.
      match goal with |- context [Add_finish count b ?e1] =>
        destruct (Add_finish_spec count b e1 Hcap Hc) as (out & e' & l & -> & Hl & Hcmd & _)
      end.
      exists ([PEXPIRE (name b) (expiry_of b)] ++ l). split.
      * simpl. rewrite Hl. simpl. rewrite <- !app_assoc. reflexivity.
      * destruct Hcmd as [-> | ->]; simpl; auto 10.
  - destruct (Add_finish_spec count b e Hcap Hc) as (out & e' & l & -> & Hl & Hcmd & _).
    exists l. split; [exact Hl |]. destruct Hcmd as [-> | ->]; auto.
Qed.

(** X14. Whatever the store does, once the lookup has delivered a count
    (zero for an absent key) [Add] sends the increment exactly when the
    amount is at most [capacity - min count capacity], and then once and
    by exactly the amount; an amount of zero is therefore always admitted,
    also on a bucket that is full. *)
Theorem Add_admits_what_fits {W : Type} `{World W}
        (amount : Z) (b : bucket) (e : env W)
        (r : reply * option error) (w1 : W) (c : Z) (err : option error) :
  is_uint (capacity b) ->
  conn_DoContext (GET (name b)) (world e) = (r, w1) ->
  redis.Uint64 r = (c, err) ->
  err = None \/ err = Some redis.ErrNil ->
  (amount <= capacity b - min c (capacity b) ->
     increments (sent e (snd (Add amount b e))) = [(name b, amount)]) /\
  (amount > capacity b - min c (capacity b) ->
     increments (sent e (snd (Add amount b e))) = []) /\
  (amount = 0 ->
     increments (sent e (snd (Add amount b e))) = [(name b, 0)]).
Proof.
  intros Hcap Hget Hcount Herr.
  assert (Hquota : 0 <= capacity b - min c (capacity b)).
  { destruct (min_spec c (capacity b)) as [[? ->] | [? ->]]; lia. }
  assert (Hfits : amount <= capacity b - min c (capacity b) ->
                  increments (sent e (snd (Add amount b e))) = [(name b, amount)]).
  { intros Hfit.
    rewrite (Add_read amount b e r w1 c err Hcap Hget Hcount Herr).
    destruct (conn_DoContext (INCRBY (name b) amount) w1) as [r1 w2] eqn:Hincr.
    erewrite Add_checked_increment; [| exact Hfit | exact Hincr].
    match goal with |- context [Add_incremented amount ?b1 r1 ?e1] =>
      destruct (Add_incremented_shapes amount b1 r1 e1 Hcap) as (l & Hl & Hcmd)
    end.
    rewrite (sent_app _ _ ([GET (name b); INCRBY (name b) amount] ++ l)).
    - change (expiry_of (after_read b c)) with (expiry_of b) in Hcmd. simpl in Hcmd.
      destruct Hcmd as [-> | [-> | [-> | ->]]]; reflexivity.
    - rewrite Hl. simpl. rewrite <- !app_assoc. reflexivity. }
  split; [exact Hfits |]. split.
  - intros Hover.
    rewrite (Add_read amount b e r w1 c err Hcap Hget Hcount Herr).
    destruct (Add_checked_full amount (after_read b c)
                {| world := w1; issued := issued e ++ [GET (name b)] |} Hover)
      as (out & e' & l & -> & Hl & Hcmd & _).
    rewrite (sent_app _ _ (GET (name b) :: l)).
    + destruct Hcmd as [-> | ->]; reflexivity.
    + simpl. rewrite Hl. simpl. rewrite <- app_assoc. reflexivity.
  - intros ->. apply Hfits. exact Hquota.
Qed.

(** *** Witness for X14: an [Add] of zero on a counter of 15 against a
    capacity of 10 *)

Lemma Add_admits_what_fits_witness :
  increments (sent (start overfull)
                (snd (@Add store (served healthy) 0 clipped (start overfull))))
    = [("k", 0)] /\
  increments (sent (start overfull)
                (snd (@Add store (served healthy) 1 clipped (start overfull))))
    = [].
Proof.
  split.
  - apply (@Add_admits_what_fits store (served healthy) 0 clipped (start overfull)
             (RBulk "15", None) (tick overfull) 15 None ten_is_uint eq_refl eq_refl
             (or_introl eq_refl)).
    reflexivity.
  - apply (@Add_admits_what_fits store (served healthy) 1 clipped (start overfull)
             (RBulk "15", None) (tick overfull) 15 None ten_is_uint eq_refl eq_refl
             (or_introl eq_refl)).
    reflexivity.
Defined.
